(** * act-js: the DOM patch algorithm (lib/diff.js) and the application
      container (lib/act.js), embedded and verified.

    Definitions come first.
    - [Dom]: the host's document tree and attribute lists, which both source
      files work on.
    - [Json]: the host's [JSON.parse] and [Object.entries], which
      [bindEvents] calls, and its numbers as strings.
    - [Js]: the host's [trim] and its conversion of strings to numbers.
    - [Diff]: lib/diff.js, [syncAttrs], [patch] and [reconcileChildren], with
      the [value] property of the host's elements.
    - [Act]: lib/act.js, the state held in the closure of [createApp] and the
      functions that close over it.
    - [ActAux]: predicates on that state and on runs.
    - [ActCss]: the style-sheet part of lib/act.js.
    - [Components]: components/timer.js, a caller of lib/act.js.
    - [Build]: the walk of the module graph in lib/build.js.
    The properties follow in [DomFacts], [JsonFacts], [DiffProofs] and
    [ActProofs], and further ones in [DiffExtra], [ActExtra], [CssExtra],
    [ComponentsExtra] and [BuildProofs]. *)

From Stdlib Require Import String Ascii List Arith ZArith Lia DecimalString.
From stdpp Require Import gmap strings list fin_maps.

Local Open Scope string_scope.
Local Open Scope list_scope.

(** ** The host's document tree *)

Module Dom.

(** An element's [attributes]: ordered (name, value) pairs. *)
Abbreviation Attrs := (list (string * string)).

(** [el.getAttribute(name)]; [None] is the host's [null]. *)
Fixpoint getAttribute (attrs : Attrs) (name : string) : option string :=
  match attrs with
  | [] => None
  | (n, v) :: rest => if String.eqb n name then Some v else getAttribute rest name
  end.

(** [el.hasAttribute(name)]. *)
Definition hasAttribute (attrs : Attrs) (name : string) : bool :=
  match getAttribute attrs name with Some _ => true | None => false end.

(** [el.setAttribute(name, value)]: an attribute of that name keeps its
    place and takes the new value, a new one goes to the end. *)
Fixpoint setAttribute (attrs : Attrs) (name value : string) : Attrs :=
  match attrs with
  | [] => [(name, value)]
  | (n, v) :: rest =>
      if String.eqb n name then (n, value) :: rest
      else (n, v) :: setAttribute rest name value
  end.

(** [el.removeAttribute(name)]. *)
Definition removeAttribute (attrs : Attrs) (name : string) : Attrs :=
  List.filter (fun nv => negb (String.eqb (fst nv) name)) attrs.

(** Names are unique in a host attribute list. *)
Definition unique_names (attrs : Attrs) : Prop := NoDup (fst <$> attrs).

(** JavaScript's [!==] on the results of [getAttribute]. *)
Definition opt_string_eqb (a b : option string) : bool :=
  match a, b with
  | Some x, Some y => String.eqb x y
  | None, None => true
  | _, _ => false
  end.

(** What an element keeps for its [value] property, as opposed to its
    [value] attribute.  [NoValue]: nothing.  [Pristine]: an input that
    nobody has put a value in, whose property follows the attribute.
    [Dirty v]: the user or a script put in [v], which the property holds
    whatever the attribute says.  [Diff] says what the property is for each
    kind of element. *)
Inductive ValueProp :=
| NoValue
| Pristine
| Dirty (v : string).

(** Child nodes that are neither text nor element. *)
Inductive OtherKind :=
| CDataSectionNode
| ProcessingInstructionNode (target : string)
| CommentNode.

Local Unset Elimination Schemes.
Inductive Node :=
| Text (data : string)
| Element (tag : string) (attrs : Attrs) (value : ValueProp) (children : list Node)
| Other (kind : OtherKind) (data : string).
Local Set Elimination Schemes.

Definition ELEMENT_NODE : nat := 1.
Definition TEXT_NODE : nat := 3.

Definition nodeType (n : Node) : nat :=
  match n with
  | Element _ _ _ _ => ELEMENT_NODE
  | Text _ => TEXT_NODE
  | Other CDataSectionNode _ => 4
  | Other (ProcessingInstructionNode _) _ => 7
  | Other CommentNode _ => 8
  end.

Definition nodeName (n : Node) : string :=
  match n with
  | Element tag _ _ _ => tag
  | Text _ => "#text"
  | Other CDataSectionNode _ => "#cdata-section"
  | Other (ProcessingInstructionNode target) _ => target
  | Other CommentNode _ => "#comment"
  end.

(** [node.textContent]: the data of a character-data node, the
    concatenated text of an element's descendants. *)
Fixpoint textContent (n : Node) : string :=
  match n with
  | Text data => data
  | Other _ data => data
  | Element _ _ _ children =>
      (fix go (l : list Node) : string :=
         match l with
         | [] => ""
         | c :: rest =>
             match nodeType c with
             | 7 | 8 => go rest
             | _ => textContent c +:+ go rest
             end
         end) children
  end.

(** [node.textContent = s]. *)
Definition set_textContent (n : Node) (s : string) : Node :=
  match n with
  | Text _ => Text s
  | Other kind _ => Other kind s
  | Element tag attrs value _ =>
      Element tag attrs value (if String.eqb s "" then [] else [Text s])
  end.

(** [node.cloneNode(deep)]: a copy with the attributes and the value state
    and, when [deep], the descendants. *)
Definition cloneNode (deep : bool) (n : Node) : Node :=
  match n with
  | Element tag attrs value children =>
      Element tag attrs value (if deep then children else [])
  | _ => n
  end.

Fixpoint well_formed (n : Node) : bool :=
  match n with
  | Element _ attrs _ children =>
      bool_decide (unique_names attrs) && forallb well_formed children
  | _ => true
  end.

(** Induction over a tree and the trees below it. *)
Section NodeInduction.
Variable P : Node -> Prop.
Hypothesis P_text : forall data, P (Text data).
Hypothesis P_element : forall tag attrs value children,
    Forall P children -> P (Element tag attrs value children).
Hypothesis P_other : forall kind data, P (Other kind data).

Fixpoint Node_ind (n : Node) : P n :=
  match n with
  | Text data => P_text data
  | Element tag attrs value children =>
      P_element tag attrs value children
        ((fix all (l : list Node) : Forall P l :=
            match l with
            | [] => @List.Forall_nil _ P
            | c :: rest => @List.Forall_cons _ P c rest (Node_ind c) (all rest)
            end) children)
  | Other kind data => P_other kind data
  end.
End NodeInduction.

(** *** Element references

    A node list such as the one [querySelectorAll] returns holds references
    to elements.  Below a parent, an element is referred to by its path: the
    child index at each level, the last one being the element's own. *)
Abbreviation Path := (list nat).

(** The element a path refers to below [nodes]. *)
Fixpoint element_at (nodes : list Node) (p : Path) : option Node :=
  match p with
  | [] => None
  | i :: p' =>
      match nodes !! i with
      | Some (Element tag attrs value children) =>
          match p' with
          | [] => Some (Element tag attrs value children)
          | _ :: _ => element_at children p'
          end
      | _ => None
      end
  end.

(** [el.getAttribute(name)] through a reference. *)
Definition getAttributeAt (nodes : list Node) (p : Path) (name : string)
  : option string :=
  match element_at nodes p with
  | Some (Element _ attrs _ _) => getAttribute attrs name
  | _ => None
  end.

(** [el.removeAttribute(name)] through a reference: the tree afterwards. *)
Fixpoint removeAttributeAt (nodes : list Node) (p : Path) (name : string)
  : list Node :=
  match p with
  | [] => nodes
  | i :: p' =>
      alter (fun n =>
               match n with
               | Element tag attrs value children =>
                   match p' with
                   | [] => Element tag (removeAttribute attrs name) value children
                   | _ :: _ => Element tag attrs value (removeAttributeAt children p' name)
                   end
               | _ => n
               end) i nodes
  end.

(** Paths of the matching elements among [nodes] and below, in document
    order; [sel] gives the matches inside one node, relative to it. *)
Section SelectChildren.
Variable sel : Node -> list Path.

Fixpoint select_children (i : nat) (nodes : list Node) : list Path :=
  match nodes with
  | [] => []
  | c :: rest => (cons i <$> sel c) ++ select_children (S i) rest
  end.
End SelectChildren.

(** The elements with attribute [name] at or below node [n], by paths
    from [n]'s parent that start at index [0] for [n] itself. *)
Fixpoint select_attr (name : string) (n : Node) : list Path :=
  match n with
  | Element _ attrs _ children =>
      (if hasAttribute attrs name then [[]] else [])
      ++ select_children (select_attr name) 0 children
  | _ => []
  end.

(** [root.querySelectorAll("[name]")] on the children of [root]. *)
Definition querySelectorAll_attr (name : string) (nodes : list Node) : list Path :=
  select_children (select_attr name) 0 nodes.

(** A tree with attribute [name] taken off every element. *)
Fixpoint without_attr (name : string) (n : Node) : Node :=
  match n with
  | Element tag attrs value children =>
      Element tag (removeAttribute attrs name) value (without_attr name <$> children)
  | _ => n
  end.

End Dom.
(** ** The host's JSON.parse and Object.entries

    Strings are sequences of bytes: the UTF-8 text of the host's string,
    in which a surrogate code unit that has no partner stands as the three
    bytes of its own number.  Two strings of the host are equal when their
    bytes are.  *)

Module Json.

Local Unset Elimination Schemes.
Inductive JSON :=
| JNull
| JBool (b : bool)
| JNumber (lexeme : string)
| JString (s : string)
| JArray (items : list JSON)
| JObject (members : list (string * JSON)).
Local Set Elimination Schemes.

Definition code (c : ascii) : nat := nat_of_ascii c.

Definition is_ws (c : ascii) : bool :=
  match code c with 9 | 10 | 13 | 32 => true | _ => false end.

Fixpoint skip_ws (s : list ascii) : list ascii :=
  match s with
  | c :: rest => if is_ws c then skip_ws rest else s
  | [] => []
  end.

Definition is_digit (c : ascii) : bool :=
  Nat.leb 48 (code c) && Nat.leb (code c) 57.

Definition hex_digit (c : ascii) : option nat :=
  let n := code c in
  if Nat.leb 48 n && Nat.leb n 57 then Some (n - 48)
  else if Nat.leb 65 n && Nat.leb n 70 then Some (n - 55)
  else if Nat.leb 97 n && Nat.leb n 102 then Some (n - 87)
  else None.

Definition hex4 (a b c d : ascii) : option nat :=
  match hex_digit a, hex_digit b, hex_digit c, hex_digit d with
  | Some x, Some y, Some z, Some w => Some (((x * 16 + y) * 16 + z) * 16 + w)
  | _, _, _, _ => None
  end.

(** The UTF-8 bytes of a code unit written [\uXXXX], or of a code point
    beyond them. *)
Definition utf8_N (n : N) : list ascii :=
  if (n <? 128)%N then [ascii_of_N n]
  else if (n <? 2048)%N then
    [ascii_of_N (192 + n / 64); ascii_of_N (128 + n mod 64)]
  else if (n <? 65536)%N then
    [ascii_of_N (224 + n / 4096); ascii_of_N (128 + (n / 64) mod 64);
     ascii_of_N (128 + n mod 64)]
  else
    [ascii_of_N (240 + n / 262144); ascii_of_N (128 + (n / 4096) mod 64);
     ascii_of_N (128 + (n / 64) mod 64); ascii_of_N (128 + n mod 64)].

Definition utf8 (n : nat) : list ascii := utf8_N (N.of_nat n).

(** The six payload bits of a continuation byte. *)
Definition payload (c : ascii) : N := (N_of_ascii c mod 64)%N.

(** A high surrogate followed by a low one is one code point: its four
    bytes take the place of their six. *)
Fixpoint merge_surrogates (s : list ascii) : list ascii :=
  match s with
  | [] => []
  | a :: rest =>
      match rest with
      | b :: c :: d :: e :: f :: rest' =>
          if Nat.eqb (code a) 237 && Nat.leb 160 (code b) && Nat.leb (code b) 175
             && Nat.eqb (code d) 237 && Nat.leb 176 (code e) && Nat.leb (code e) 191
          then
            utf8_N (65536 + ((payload b - 32) * 64 + payload c) * 1024
                    + ((payload e - 48) * 64 + payload f))
            ++ merge_surrogates rest'
          else a :: merge_surrogates rest
      | _ => a :: merge_surrogates rest
      end
  end.

(** The string a string literal denotes, from the characters of its
    body. *)
Definition string_of_body (body : list ascii) : string :=
  string_of_list_ascii (merge_surrogates body).

(** The UTF-16 code units of a string, each as a string of its own: a code
    point beyond [U+FFFF] is two surrogates. *)
Fixpoint code_units (s : list ascii) : list (list ascii) :=
  match s with
  | [] => []
  | a :: rest =>
      if Nat.ltb (code a) 192 then [a] :: code_units rest
      else if Nat.ltb (code a) 224 then
        match rest with
        | b :: rest' => [a; b] :: code_units rest'
        | [] => [[a]]
        end
      else if Nat.ltb (code a) 240 then
        match rest with
        | b :: c :: rest' => [a; b; c] :: code_units rest'
        | _ => [a] :: code_units rest
        end
      else
        match rest with
        | b :: c :: d :: rest' =>
            let point :=
              ((N_of_ascii a mod 8) * 262144 + payload b * 4096 + payload c * 64
               + payload d - 65536)%N in
            utf8_N (55296 + point / 1024) :: utf8_N (56320 + point mod 1024)
            :: code_units rest'
        | _ => [a] :: code_units rest
        end
  end.

(** The character a two-character escape stands for. *)
Definition simple_escape (e : ascii) : option ascii :=
  match code e with
  | 34 => Some (ascii_of_nat 34)
  | 92 => Some (ascii_of_nat 92)
  | 47 => Some (ascii_of_nat 47)
  | 98 => Some (ascii_of_nat 8)
  | 102 => Some (ascii_of_nat 12)
  | 110 => Some (ascii_of_nat 10)
  | 114 => Some (ascii_of_nat 13)
  | 116 => Some (ascii_of_nat 9)
  | _ => None
  end.

(** A string literal after its opening quote: the characters it denotes
    and the input behind the closing quote. *)
Fixpoint parse_string_body (s : list ascii) : option (list ascii * list ascii) :=
  match s with
  | [] => None
  | c :: rest =>
      if Nat.eqb (code c) 34 then Some ([], rest)
      else if Nat.eqb (code c) 92 then
        match rest with
        | [] => None
        | e :: rest' =>
            match simple_escape e with
            | Some ch =>
                match parse_string_body rest' with
                | Some (body, r) => Some (ch :: body, r)
                | None => None
                end
            | None =>
                if Nat.eqb (code e) 117 then
                  match rest' with
                  | h1 :: h2 :: h3 :: h4 :: rest'' =>
                      match hex4 h1 h2 h3 h4, parse_string_body rest'' with
                      | Some n, Some (body, r) => Some (utf8 n ++ body, r)
                      | _, _ => None
                      end
                  | _ => None
                  end
                else None
            end
        end
      else if Nat.ltb (code c) 32 then None
      else
        match parse_string_body rest with
        | Some (body, r) => Some (c :: body, r)
        | None => None
        end
  end.

Fixpoint scan_digits (s : list ascii) : list ascii * list ascii :=
  match s with
  | c :: rest =>
      if is_digit c then let '(ds, r) := scan_digits rest in (c :: ds, r) else ([], s)
  | [] => ([], [])
  end.

(** A number token: its lexeme and the input behind it. *)
Definition parse_number (s : list ascii) : option (list ascii * list ascii) :=
  let '(sign, s) :=
    match s with
    | c :: rest => if Nat.eqb (code c) 45 then ([c], rest) else ([], s)
    | [] => ([], s)
    end in
  match s with
  | [] => None
  | c :: rest =>
      let int :=
        if Nat.eqb (code c) 48 then Some ([c], rest)
        else if is_digit c then let '(ds, r) := scan_digits rest in Some (c :: ds, r)
        else None in
      match int with
      | None => None
      | Some (int, s) =>
          let frac :=
            match s with
            | c :: rest =>
                if Nat.eqb (code c) 46 then
                  match scan_digits rest with
                  | ([], _) => None
                  | (ds, r) => Some (c :: ds, r)
                  end
                else Some ([], s)
            | [] => Some ([], s)
            end in
          match frac with
          | None => None
          | Some (frac, s) =>
              let exp :=
                match s with
                | c :: rest =>
                    if Nat.eqb (code c) 69 || Nat.eqb (code c) 101 then
                      let '(esign, rest) :=
                        match rest with
                        | d :: rest' =>
                            if Nat.eqb (code d) 43 || Nat.eqb (code d) 45
                            then ([d], rest') else ([], rest)
                        | [] => ([], rest)
                        end in
                      match scan_digits rest with
                      | ([], _) => None
                      | (ds, r) => Some (c :: esign ++ ds, r)
                      end
                    else Some ([], s)
                | [] => Some ([], s)
                end in
              match exp with
              | None => None
              | Some (exp, s) => Some (sign ++ int ++ frac ++ exp, s)
              end
          end
      end
  end.

(** [s] starts with the characters of [word]: the input behind them. *)
Fixpoint parse_keyword (word s : list ascii) : option (list ascii) :=
  match word with
  | [] => Some s
  | w :: word' =>
      match s with
      | c :: rest => if Ascii.eqb c w then parse_keyword word' rest else None
      | [] => None
      end
  end.

(** The JSON grammar's [value], [elements] and [members], by recursive
    descent.  [fuel] bounds the depth of the calls. *)
Fixpoint parse_value (fuel : nat) (s : list ascii) : option (JSON * list ascii) :=
  match fuel with
  | 0 => None
  | S fuel =>
      match skip_ws s with
      | [] => None
      | c :: rest =>
          match code c with
          | 123 =>
              match skip_ws rest with
              | d :: rest' =>
                  if Nat.eqb (code d) 125 then Some (JObject [], rest')
                  else
                    match parse_members fuel (d :: rest') with
                    | Some (ms, r) => Some (JObject ms, r)
                    | None => None
                    end
              | [] => None
              end
          | 91 =>
              match skip_ws rest with
              | d :: rest' =>
                  if Nat.eqb (code d) 93 then Some (JArray [], rest')
                  else
                    match parse_elements fuel (d :: rest') with
                    | Some (vs, r) => Some (JArray vs, r)
                    | None => None
                    end
              | [] => None
              end
          | 34 =>
              match parse_string_body rest with
              | Some (body, r) => Some (JString (string_of_body body), r)
              | None => None
              end
          | 116 =>
              match parse_keyword (list_ascii_of_string "true") (c :: rest) with
              | Some r => Some (JBool true, r)
              | None => None
              end
          | 102 =>
              match parse_keyword (list_ascii_of_string "false") (c :: rest) with
              | Some r => Some (JBool false, r)
              | None => None
              end
          | 110 =>
              match parse_keyword (list_ascii_of_string "null") (c :: rest) with
              | Some r => Some (JNull, r)
              | None => None
              end
          | _ =>
              match parse_number (c :: rest) with
              | Some (lexeme, r) => Some (JNumber (string_of_list_ascii lexeme), r)
              | None => None
              end
          end
      end
  end
with parse_elements (fuel : nat) (s : list ascii) : option (list JSON * list ascii) :=
  match fuel with
  | 0 => None
  | S fuel =>
      match parse_value fuel s with
      | None => None
      | Some (v, r) =>
          match skip_ws r with
          | c :: rest =>
              if Nat.eqb (code c) 93 then Some ([v], rest)
              else if Nat.eqb (code c) 44 then
                match parse_elements fuel rest with
                | Some (vs, r') => Some (v :: vs, r')
                | None => None
                end
              else None
          | [] => None
          end
      end
  end
with parse_members (fuel : nat) (s : list ascii) : option (list (string * JSON) * list ascii) :=
  match fuel with
  | 0 => None
  | S fuel =>
      match skip_ws s with
      | q :: rest =>
          if Nat.eqb (code q) 34 then
            match parse_string_body rest with
            | None => None
            | Some (key, r) =>
                match skip_ws r with
                | colon :: r' =>
                    if Nat.eqb (code colon) 58 then
                      match parse_value fuel r' with
                      | None => None
                      | Some (v, r'') =>
                          match skip_ws r'' with
                          | c :: rest' =>
                              if Nat.eqb (code c) 125
                              then Some ([(string_of_body key, v)], rest')
                              else if Nat.eqb (code c) 44 then
                                match parse_members fuel rest' with
                                | Some (ms, r3) =>
                                    Some ((string_of_body key, v) :: ms, r3)
                                | None => None
                                end
                              else None
                          | [] => None
                          end
                      end
                    else None
                | [] => None
                end
            end
          else None
      | [] => None
      end
  end.

(** [JSON.parse(text)]; [None] stands for the [SyntaxError] it throws. *)
Definition JSON_parse (text : string) : option JSON :=
  let s := list_ascii_of_string text in
  match parse_value (2 * length s + 2) s with
  | Some (v, rest) =>
      match skip_ws rest with
      | [] => Some v
      | _ :: _ => None
      end
  | None => None
  end.

(** The same text with a double quote for every apostrophe; the examples
    write attribute values with it. *)
Definition dq (s : string) : string :=
  string_of_list_ascii
    (map (fun c => if Nat.eqb (code c) 39 then ascii_of_nat 34 else c)
       (list_ascii_of_string s)).


(** *** Own properties and their order *)

(** The index a property key denotes when it is an array index: a
    canonical decimal numeral below [2^32 - 1]. *)
Definition array_index (key : string) : option N :=
  match list_ascii_of_string key with
  | [] => None
  | c :: rest =>
      if forallb is_digit (c :: rest)
         && (negb (Nat.eqb (code c) 48) || Nat.eqb (length rest) 0)
         && Nat.leb (length rest) 9
      then
        let n := fold_left (fun acc d => (acc * 10 + (N.of_nat (code d) - 48))%N)
                   (c :: rest) 0%N in
        if (n <? 4294967295)%N then Some n else None
      else None
  end.

(** Defining property [key]: an existing property keeps its place. *)
Fixpoint define_property (props : list (string * JSON)) (key : string) (v : JSON)
  : list (string * JSON) :=
  match props with
  | [] => [(key, v)]
  | (k, w) :: rest =>
      if String.eqb k key then (k, v) :: rest
      else (k, w) :: define_property rest key v
  end.

Fixpoint insert_index (i : N) (p : string * JSON) (sorted : list (N * (string * JSON)))
  : list (N * (string * JSON)) :=
  match sorted with
  | [] => [(i, p)]
  | (j, q) :: rest =>
      if (i <? j)%N then (i, p) :: (j, q) :: rest
      else (j, q) :: insert_index i p rest
  end.

(** The own properties of the object a JSON object text denotes, in
    property order: array indices ascending, then the other keys as first
    written. *)
Definition own_properties (members : list (string * JSON)) : list (string * JSON) :=
  let props := fold_left (fun ps m => define_property ps (fst m) (snd m)) members [] in
  let indexed :=
    fold_left (fun acc p =>
                 match array_index (fst p) with
                 | Some i => insert_index i p acc
                 | None => acc
                 end) props [] in
  (snd <$> indexed)
  ++ List.filter (fun p => match array_index (fst p) with Some _ => false | None => true end)
       props.

Definition decimal (n : nat) : string := NilEmpty.string_of_uint (Nat.to_uint n).

(** [Object.entries(v)]; [None] stands for the [TypeError] it throws on
    [null]. *)
Definition Object_entries (v : JSON) : option (list (string * JSON)) :=
  match v with
  | JNull => None
  | JBool _ | JNumber _ => Some []
  | JString s =>
      Some (imap (fun i unit => (decimal i, JString (string_of_list_ascii unit)))
              (code_units (list_ascii_of_string s)))
  | JArray items => Some (imap (fun i item => (decimal i, item)) items)
  | JObject members => Some (own_properties members)
  end.

(** *** Numbers

    [JSON.parse] turns a number token into the nearest double, and
    [String] writes a double with the fewest digits that read back as
    it. *)

Definition digits_value (ds : list ascii) : Z :=
  fold_left (fun acc d => (acc * 10 + (Z.of_nat (code d) - 48))%Z) ds 0%Z.

(** A number token as [mantissa * 10 ^ exponent], with its sign. *)
Definition number_parts (lexeme : list ascii) : bool * Z * Z :=
  let '(negative, s) :=
    match lexeme with
    | c :: rest => if Nat.eqb (code c) 45 then (true, rest) else (false, lexeme)
    | [] => (false, lexeme)
    end in
  let '(int, s) := scan_digits s in
  let '(frac, s) :=
    match s with
    | c :: rest => if Nat.eqb (code c) 46 then scan_digits rest else ([], s)
    | [] => ([], s)
    end in
  let exp :=
    match s with
    | _ :: d :: rest =>
        if Nat.eqb (code d) 45 then (- digits_value rest)%Z
        else if Nat.eqb (code d) 43 then digits_value rest
        else digits_value (d :: rest)
    | _ => 0%Z
    end in
  (negative, digits_value (int ++ frac), (exp - Z.of_nat (length frac))%Z).

(** A double that is not NaN, without its sign: zero, infinity, or
    [q * 2 ^ e] with [0 < q < 2 ^ 53] and [-1074 <= e <= 971]. *)
Inductive Double :=
| DZero
| DInfinity
| DFinite (q e : Z).

(** [num / den >= 2 ^ k]. *)
Definition ge_pow2 (num den k : Z) : bool :=
  if (0 <=? k)%Z then (den * 2 ^ k <=? num)%Z else (den <=? num * 2 ^ (- k))%Z.

(** The double nearest to [num / den], ties to even; both are positive. *)
Definition round_ratio (num den : Z) : Double :=
  let l := (Z.log2 num - Z.log2 den)%Z in
  let l := if ge_pow2 num den l then l else (l - 1)%Z in
  let e := Z.max (l - 52) (-1074) in
  let '(n, d) :=
    if (0 <=? e)%Z then (num, (den * 2 ^ e)%Z) else ((num * 2 ^ (- e))%Z, den) in
  let q := (n / d)%Z in
  let r := (n mod d)%Z in
  let q := if (d <? 2 * r)%Z || ((2 * r =? d)%Z && Z.odd q) then (q + 1)%Z else q in
  let '(q, e) := if (q =? 2 ^ 53)%Z then ((2 ^ 52)%Z, (e + 1)%Z) else (q, e) in
  if (q =? 0)%Z then DZero
  else if (971 <? e)%Z then DInfinity
  else DFinite q e.

(** The double nearest to [m * 10 ^ e10], for [m >= 0].  Far outside the
    range of the doubles the answer is known without the division. *)
Definition to_double (m e10 : Z) : Double :=
  if (m =? 0)%Z then DZero
  else if (400 <? e10)%Z then DInfinity
  else if (e10 + Z.log2 m / 3 + 1 <? -330)%Z then DZero
  else if (0 <=? e10)%Z then round_ratio (m * 10 ^ e10) 1
  else round_ratio m (10 ^ (- e10)).

Definition Double_eqb (a b : Double) : bool :=
  match a, b with
  | DZero, DZero | DInfinity, DInfinity => true
  | DFinite q e, DFinite q' e' => (q =? q')%Z && (e =? e')%Z
  | _, _ => false
  end.

(** [xn / xd >= 10 ^ k]. *)
Definition ge_pow10 (xn xd k : Z) : bool :=
  if (0 <=? k)%Z then (xd * 10 ^ k <=? xn)%Z else (xd <=? xn * 10 ^ (- k))%Z.

(** [floor (xn / xd / 10 ^ k)]. *)
Definition div_pow10 (xn xd k : Z) : Z :=
  if (0 <=? k)%Z then (xn / (xd * 10 ^ k))%Z else (xn * 10 ^ (- k) / xd)%Z.

(** The sign of [2 * xn / xd - c * 10 ^ k]. *)
Definition compare_twice (xn xd c k : Z) : comparison :=
  if (0 <=? k)%Z then (2 * xn ?= c * 10 ^ k * xd)%Z
  else (2 * xn * 10 ^ (- k) ?= c * xd)%Z.

(** The digits [s] and the exponent [n] of [String(x)] for the double
    [x = q * 2 ^ e]: the fewest digits [k] such that [s * 10 ^ (n - k)]
    reads back as [x]; of two such [s], the one nearer to [x], the even one
    when they are as near. *)
Definition shortest (q e : Z) : Z * Z :=
  let '(xn, xd) := if (0 <=? e)%Z then ((q * 2 ^ e)%Z, 1%Z) else (q, (2 ^ (- e))%Z) in
  let est := ((Z.log2 q + e) * 30103 / 100000 - 2)%Z in
  let n := (est + 1
            + Z.of_nat (length (List.filter (fun j => ge_pow10 xn xd (est + Z.of_nat j))
                                  (seq 1 4))))%Z in
  let x := DFinite q e in
  let fix search (ks : list nat) : Z * Z :=
    match ks with
    | [] => (0%Z, n)
    | k :: rest =>
        let p := (n - Z.of_nat k)%Z in
        let lo := div_pow10 xn xd p in
        let hi := (lo + 1)%Z in
        let lo_ok := Double_eqb (to_double lo p) x in
        let hi_ok := Double_eqb (to_double hi p) x in
        let s :=
          if lo_ok && hi_ok then
            match compare_twice xn xd (lo + hi) p with
            | Lt => Some lo
            | Gt => Some hi
            | Eq => Some (if Z.even lo then lo else hi)
            end
          else if lo_ok then Some lo
          else if hi_ok then Some hi
          else None in
        match s with
        | Some s => if (s =? 10 ^ Z.of_nat k)%Z then ((s / 10)%Z, (n + 1)%Z) else (s, n)
        | None => search rest
        end
    end in
  search (seq 1 17).

Definition decimal_Z (n : Z) : string := NilEmpty.string_of_uint (N.to_uint (Z.to_N n)).

Definition zeros (n : Z) : string := string_of_list_ascii (repeat "0"%char (Z.to_nat n)).

(** [Number::toString] on the digits [s] and the exponent [n]. *)
Definition write_digits (s n : Z) : string :=
  let digits := decimal_Z s in
  let k := Z.of_nat (String.length digits) in
  if (k <=? n)%Z && (n <=? 21)%Z then digits +:+ zeros (n - k)
  else if (0 <? n)%Z && (n <=? 21)%Z then
    substring 0 (Z.to_nat n) digits +:+ "." +:+ substring (Z.to_nat n) (Z.to_nat (k - n)) digits
  else if (-6 <? n)%Z && (n <=? 0)%Z then "0." +:+ zeros (- n) +:+ digits
  else
    let exponent :=
      (if (n - 1 <? 0)%Z then "-" else "+") +:+ decimal_Z (Z.abs (n - 1)) in
    if (k =? 1)%Z then digits +:+ "e" +:+ exponent
    else substring 0 1 digits +:+ "." +:+ substring 1 (Z.to_nat (k - 1)) digits
         +:+ "e" +:+ exponent.

(** [String(JSON.parse(lexeme))] for a number token. *)
Definition Number_toString (lexeme : string) : string :=
  let '(negative, m, e10) := number_parts (list_ascii_of_string lexeme) in
  match to_double m e10 with
  | DZero => "0"
  | DInfinity => if negative then "-Infinity" else "Infinity"
  | DFinite q e =>
      let '(s, n) := shortest q e in
      (if negative then "-" else "") +:+ write_digits s n
  end.

(** The property key a value turns into when it indexes an object
    ([handlers[handlerName]]): [String(v)]. *)
Fixpoint to_property_key (v : JSON) : string :=
  match v with
  | JNull => "null"
  | JBool true => "true"
  | JBool false => "false"
  | JNumber lexeme => Number_toString lexeme
  | JString s => s
  | JArray items =>
      (fix join (l : list JSON) : string :=
         match l with
         | [] => ""
         | x :: rest =>
             let item := match x with JNull => "" | _ => to_property_key x end in
             match rest with
             | [] => item
             | _ :: _ => item +:+ "," +:+ join rest
             end
         end) items
  | JObject _ => "[object Object]"
  end.

End Json.
(** ** The host's strings and numbers

    What the two source files use of the language itself:
    [String.prototype.trim], of which lib/act.js makes use, and the
    conversion of a string to a number and on to a 32-bit integer, which
    an assignment to a numeric property of an element goes through.
    Strings are the UTF-8 bytes of the text. *)

Module Js.
Import Json.

(** *** [String.prototype.trim] *)

(** The host's white space and line terminators of one, two and three
    bytes: U+0009 to U+000D and U+0020; U+00A0; U+1680, U+2000 to U+200A,
    U+2028, U+2029, U+202F, U+205F, U+3000 and U+FEFF. *)
Definition ws1 (a : nat) : bool :=
  (Nat.leb 9 a && Nat.leb a 13) || Nat.eqb a 32.

Definition ws2 (a b : nat) : bool := Nat.eqb a 194 && Nat.eqb b 160.

Definition ws3 (a b c : nat) : bool :=
  (Nat.eqb a 225 && Nat.eqb b 154 && Nat.eqb c 128)
  || (Nat.eqb a 226 && Nat.eqb b 128
      && ((Nat.leb 128 c && Nat.leb c 138) || Nat.eqb c 168 || Nat.eqb c 169
          || Nat.eqb c 175))
  || (Nat.eqb a 226 && Nat.eqb b 129 && Nat.eqb c 159)
  || (Nat.eqb a 227 && Nat.eqb b 128 && Nat.eqb c 128)
  || (Nat.eqb a 239 && Nat.eqb b 187 && Nat.eqb c 191).

(** Dropping the white space at the front of a list of bytes; [w2] and
    [w3] recognise the two-byte and three-byte sequences. *)
Section Strip.
Variable w2 : nat -> nat -> bool.
Variable w3 : nat -> nat -> nat -> bool.

Fixpoint strip (s : list nat) : list nat :=
  match s with
  | [] => []
  | a :: rest =>
      if ws1 a then strip rest
      else
        match rest with
        | [] => s
        | b :: rest2 =>
            if w2 a b then strip rest2
            else
              match rest2 with
              | [] => s
              | c :: rest3 => if w3 a b c then strip rest3 else s
              end
        end
  end.
End Strip.

Definition bytes (s : string) : list nat := nat_of_ascii <$> list_ascii_of_string s.

Definition of_bytes (l : list nat) : string := string_of_list_ascii (ascii_of_nat <$> l).

(** [s.trim()]: white space goes from the front, then from the back, where
    the sequences are read backwards. *)
Definition trim (s : string) : string :=
  let front := strip ws2 ws3 (bytes s) in
  let back := strip (fun b a => ws2 a b) (fun c b a => ws3 a b c) (rev front) in
  of_bytes (rev back).

(** *** [ToNumber] on a string *)

(** A number that is not NaN: its sign and its absolute value. *)
Abbreviation Signed := (bool * Double)%type.

Definition digit_below (radix : nat) (c : ascii) : option Z :=
  match hex_digit c with
  | Some d => if Nat.ltb d radix then Some (Z.of_nat d) else None
  | None => None
  end.

(** The value of the digits of [s] in [radix]; [None] when [s] is empty or
    holds another character. *)
Definition radix_value (radix : nat) (s : list ascii) : option Z :=
  match s with
  | [] => None
  | _ :: _ =>
      fold_left (fun acc c =>
                   match acc, digit_below radix c with
                   | Some n, Some d => Some (n * Z.of_nat radix + d)%Z
                   | _, _ => None
                   end) s (Some 0%Z)
  end.

(** An [ExponentPart], or nothing, up to the end of the input. *)
Definition exponent_part (s : list ascii) : option Z :=
  match s with
  | [] => Some 0%Z
  | e :: rest =>
      if Nat.eqb (code e) 69 || Nat.eqb (code e) 101 then
        let '(negative, rest) :=
          match rest with
          | c :: rest' =>
              if Nat.eqb (code c) 45 then (true, rest')
              else if Nat.eqb (code c) 43 then (false, rest')
              else (false, rest)
          | [] => (false, rest)
          end in
        match scan_digits rest with
        | ([], _) => None
        | (ds, []) => Some (if negative then - digits_value ds else digits_value ds)%Z
        | (_, _ :: _) => None
        end
      else None
  end.

(** A [StrUnsignedDecimalLiteral] other than [Infinity]. *)
Definition unsigned_decimal (s : list ascii) : option Double :=
  let '(int, s) := scan_digits s in
  let '(point, frac, s) :=
    match s with
    | c :: rest =>
        if Nat.eqb (code c) 46 then let '(ds, r) := scan_digits rest in (true, ds, r)
        else (false, [], s)
    | [] => (false, [], s)
    end in
  match int, frac with
  | [], [] => None
  | _, _ =>
      match exponent_part s with
      | Some e => Some (to_double (digits_value (int ++ frac)) (e - Z.of_nat (length frac)))
      | None => None
      end
  end.

(** [StringToNumber] on a string without white space around it; [None] is
    NaN. *)
Definition string_numeric (s : list ascii) : option Signed :=
  let infinity := list_ascii_of_string "Infinity" in
  let unsigned (negative : bool) (s : list ascii) : option Signed :=
    if bool_decide (s = infinity) then Some (negative, DInfinity)
    else match unsigned_decimal s with
         | Some d => Some (negative, d)
         | None => None
         end in
  let radix (r : nat) (digits : list ascii) : option Signed :=
    match radix_value r digits with
    | Some 0%Z => Some (false, DZero)
    | Some n => Some (false, round_ratio n 1)
    | None => None
    end in
  match s with
  | [] => Some (false, DZero)
  | c :: rest =>
      if Nat.eqb (code c) 43 then unsigned false rest
      else if Nat.eqb (code c) 45 then unsigned true rest
      else
        match rest with
        | x :: digits =>
            if Nat.eqb (code c) 48 && (Nat.eqb (code x) 120 || Nat.eqb (code x) 88)
            then radix 16 digits
            else if Nat.eqb (code c) 48 && (Nat.eqb (code x) 111 || Nat.eqb (code x) 79)
            then radix 8 digits
            else if Nat.eqb (code c) 48 && (Nat.eqb (code x) 98 || Nat.eqb (code x) 66)
            then radix 2 digits
            else unsigned false s
        | [] => unsigned false s
        end
  end.

(** [ToNumber(s)] for a string. *)
Definition ToNumber (s : string) : option Signed :=
  string_numeric (list_ascii_of_string (trim s)).

(** [ToInt32]: NaN, the zeros and the infinities give [0]; every other
    number is cut to an integer and wrapped into [-2^31 .. 2^31 - 1]. *)
Definition ToInt32 (x : option Signed) : Z :=
  match x with
  | Some (negative, DFinite q e) =>
      let int := if (0 <=? e)%Z then (q * 2 ^ e)%Z else (q / 2 ^ (- e))%Z in
      let int := if negative then (- int)%Z else int in
      let wrapped := (int mod 2 ^ 32)%Z in
      if (2 ^ 31 <=? wrapped)%Z then (wrapped - 2 ^ 32)%Z else wrapped
  | _ => 0%Z
  end.

(** An integer as the host writes it. *)
Definition integer_string (n : Z) : string :=
  if (n <? 0)%Z then "-" +:+ decimal_Z (- n) else decimal_Z n.

End Js.
(** ** lib/diff.js *)

Module Diff.
Import Dom Json Js.

(** The part of an element that [syncAttrs] acts on, with the tag, which
    tells what interface of the host the element has. *)
Record ElState := { el_tag : string; el_attrs : Attrs; el_value : ValueProp }.

(** *** The host's [value] property

    The elements are those of an HTML document, where [nodeName] is the tag
    in upper case.  Two of the host's interfaces are modelled: that of
    [INPUT], for the types named below, and that of [LI], whose [value] is a
    number.  On every other tag [el_value] tells whether the element object
    has a property [value] of its own, [Dirty v] after somebody assigned
    [el.value = v] to it.  The other elements whose interface has a [value]
    ([BUTTON], [DATA], [METER], [OPTION], [OUTPUT], [PARAM], [PROGRESS],
    [SELECT], [TEXTAREA] and custom elements) are not modelled; [value_free]
    below excludes them. *)

Definition is_input (el : ElState) : bool := String.eqb (el_tag el) "INPUT".

Definition is_li (el : ElState) : bool := String.eqb (el_tag el) "LI".

Definition ascii_lower (c : ascii) : ascii :=
  if Nat.leb 65 (code c) && Nat.leb (code c) 90 then ascii_of_nat (code c + 32) else c.


Fixpoint map_ascii (f : ascii -> ascii) (s : string) : string :=
  match s with
  | EmptyString => EmptyString
  | String c rest => String (f c) (map_ascii f rest)
  end.

(** The keywords of the [type] attribute of an [input]. *)
Definition input_types : list string :=
  [ "hidden"; "text"; "search"; "tel"; "url"; "email"; "password"; "date"; "month";
    "week"; "time"; "datetime-local"; "number"; "range"; "color"; "checkbox"; "radio";
    "file"; "submit"; "image"; "reset"; "button" ].

(** The state of the [type] attribute: its keyword, whatever the case of
    the letters; [text] when the attribute is missing or holds no keyword. *)
Definition input_type (attrs : Attrs) : string :=
  match getAttribute attrs "type" with
  | Some type =>
      let type := map_ascii ascii_lower type in
      if existsb (String.eqb type) input_types then type else "text"
  | None => "text"
  end.

(** The four ways in which an [input] treats its [value] property. *)
Inductive ValueMode :=
| ModeValue
| ModeDefault
| ModeDefaultOn
| ModeFilename.

Definition value_mode (type : string) : ValueMode :=
  if existsb (String.eqb type) ["hidden"; "submit"; "image"; "reset"; "button"]
  then ModeDefault
  else if existsb (String.eqb type) ["checkbox"; "radio"] then ModeDefaultOn
  else if String.eqb type "file" then ModeFilename
  else ModeValue.

(** The one-line text fields. *)
Definition text_type (type : string) : bool :=
  existsb (String.eqb type) ["text"; "search"; "tel"; "password"].

(** Line feeds and carriage returns taken out. *)
Fixpoint strip_newlines (s : string) : string :=
  match s with
  | EmptyString => EmptyString
  | String c rest =>
      if Nat.eqb (code c) 10 || Nat.eqb (code c) 13 then strip_newlines rest
      else String c (strip_newlines rest)
  end.

(** The host's value sanitization for an [input] of the given type.  It is
    modelled for the one-line text fields; what the host does to the value
    of a field of type [url], [email], [number], [range], [color] or of a
    date or time is not. *)
Definition sanitize (type : string) (v : string) : string :=
  if text_type type then strip_newlines v else v.

(** ASCII white space at the front dropped. *)
Fixpoint skip_spaces (s : list ascii) : list ascii :=
  match s with
  | c :: rest =>
      if existsb (Nat.eqb (code c)) [9; 10; 12; 13; 32] then skip_spaces rest else s
  | [] => []
  end.

(** The host's rules for parsing integers, by which [li.value] reads the
    attribute. *)
Definition parse_integer (s : string) : option Z :=
  let s := skip_spaces (list_ascii_of_string s) in
  let '(negative, s) :=
    match s with
    | c :: rest =>
        if Nat.eqb (code c) 45 then (true, rest)
        else if Nat.eqb (code c) 43 then (false, rest)
        else (false, s)
    | [] => (false, s)
    end in
  match scan_digits s with
  | ([], _) => None
  | (ds, _) => Some (if negative then - digits_value ds else digits_value ds)%Z
  end.

(** What reading a property gives. *)
Inductive PropertyValue :=
| Undefined
| Str (s : string)
| Num (n : Z).

(** [x !== value] for a string [value]. *)
Definition differs (x : PropertyValue) (value : string) : bool :=
  match x with
  | Str s => negb (String.eqb s value)
  | _ => true
  end.

(** ['value' in el]. *)
Definition has_value (el : ElState) : bool :=
  is_input el || is_li el || match el_value el with Dirty _ => true | _ => false end.

(** [el.value].  An [input] in value mode gives the value the user or a
    script last put in, or the sanitized [value] attribute while nobody
    did; in the other modes it gives the attribute, or no file name (the
    user chose no file).  A list item gives the attribute as a 32-bit
    integer, [0] when it holds none. *)
Definition get_value (el : ElState) : PropertyValue :=
  let attr := getAttribute (el_attrs el) "value" in
  if is_input el then
    let type := input_type (el_attrs el) in
    match value_mode type with
    | ModeValue =>
        match el_value el with
        | Dirty v => Str v
        | _ => Str (sanitize type (default "" attr))
        end
    | ModeDefault => Str (default "" attr)
    | ModeDefaultOn => Str (default "on" attr)
    | ModeFilename => Str ""
    end
  else if is_li el then
    match attr with
    | Some s =>
        match parse_integer s with
        | Some n => Num (if (- 2 ^ 31 <=? n)%Z && (n <? 2 ^ 31)%Z then n else 0)
        | None => Num 0
        end
    | None => Num 0
    end
  else
    match el_value el with
    | Dirty v => Str v
    | _ => Undefined
    end.

Definition with_attrs (el : ElState) (attrs : Attrs) : ElState :=
  {| el_tag := el_tag el; el_attrs := attrs; el_value := el_value el |}.

Definition with_value (el : ElState) (value : ValueProp) : ElState :=
  {| el_tag := el_tag el; el_attrs := el_attrs el; el_value := value |}.

(** [el.value = v] for a string [v].  An [input] in value mode keeps the
    sanitized [v] and leaves every attribute alone; in the default modes it
    writes the attribute.  A file field throws unless [v] is empty, which
    is not modelled: the element stays as it is.  A list item turns [v]
    into a 32-bit integer and writes that as the attribute.  On any other
    element the assignment creates or changes the object's own property. *)
Definition set_value (el : ElState) (v : string) : ElState :=
  if is_input el then
    let type := input_type (el_attrs el) in
    match value_mode type with
    | ModeValue => with_value el (Dirty (sanitize type v))
    | ModeDefault | ModeDefaultOn => with_attrs el (setAttribute (el_attrs el) "value" v)
    | ModeFilename => el
    end
  else if is_li el then
    with_attrs el (setAttribute (el_attrs el) "value" (integer_string (ToInt32 (ToNumber v))))
  else with_value el (Dirty v).

(** What the host does to an [input] when its [type] attribute was written
    or removed: [old] is the element before, [attrs] the attributes after.
    Nothing happens while the state of the attribute is the same.  When the
    element leaves value mode for one of the default modes with a value
    that is not empty, the host writes that value to the [value] attribute;
    when it enters value mode, the value is the attribute's again, as if
    nobody had put one in; when it stays in value mode, the value is
    sanitized for the new type. *)
Definition retype (old : ElState) (attrs : Attrs) : ElState :=
  let before := input_type (el_attrs old) in
  let after := input_type attrs in
  if String.eqb before after then with_attrs old attrs
  else
    match value_mode before, value_mode after with
    | ModeValue, (ModeDefault | ModeDefaultOn) =>
        match get_value old with
        | Str v => with_attrs old (if String.eqb v "" then attrs else setAttribute attrs "value" v)
        | _ => with_attrs old attrs
        end
    | ModeValue, ModeValue =>
        match el_value old with
        | Dirty v => {| el_tag := el_tag old; el_attrs := attrs;
                        el_value := Dirty (sanitize after v) |}
        | _ => with_attrs old attrs
        end
    | ModeValue, ModeFilename => with_attrs old attrs
    | _, ModeValue => {| el_tag := el_tag old; el_attrs := attrs; el_value := Pristine |}
    | _, _ => with_attrs old attrs
    end.

(** [el.setAttribute(name, value)], with the host's reaction to a new
    [type] of an [input].  The reaction to [min], [max] and [step] on a
    range, to [multiple] on an e-mail field and to [alpha] and [colorspace]
    on a colour well, which sanitizes the value anew, is not modelled. *)
Definition el_setAttribute (el : ElState) (name value : string) : ElState :=
  let attrs := setAttribute (el_attrs el) name value in
  if is_input el && String.eqb name "type" then retype el attrs else with_attrs el attrs.

(** [el.removeAttribute(name)], likewise. *)
Definition el_removeAttribute (el : ElState) (name : string) : ElState :=
  let attrs := removeAttribute (el_attrs el) name in
  if is_input el && String.eqb name "type" then retype el attrs else with_attrs el attrs.

(** *** The functions of the file *)

(** First loop of [syncAttrs], one attribute of the snapshot
    [[...oldEl.attributes]]. *)
Definition remove_stale (newAttrs : Attrs) (oldEl : ElState) (a : string * string) : ElState :=
  let name := fst a in
  if negb (hasAttribute newAttrs name) then el_removeAttribute oldEl name else oldEl.

(** Second loop of [syncAttrs], one attribute of [newEl.attributes]. *)
Definition update_changed (oldEl : ElState) (a : string * string) : ElState :=
  let '(name, value) := a in
  if negb (opt_string_eqb (getAttribute (el_attrs oldEl) name) (Some value)) then
    let oldEl := el_setAttribute oldEl name value in
    if String.eqb name "value" && has_value oldEl && differs (get_value oldEl) value
    then set_value oldEl value
    else oldEl
  else oldEl.

(** [syncAttrs(oldEl, newEl)]. *)
Definition syncAttrs (oldEl : ElState) (newAttrs : Attrs) : ElState :=
  let oldEl := fold_left (remove_stale newAttrs) (el_attrs oldEl) oldEl in
  fold_left update_changed newAttrs oldEl.

(** The walk of [reconcileChildren] over two child lists position by
    position, for a given [patch]. *)
Section Align.
Variable patch : Node -> Node -> Node.

Fixpoint align (oldCh newCh : list Node) {struct newCh} : list Node :=
  match newCh with
  | [] => []
  | n :: newRest =>
      match oldCh with
      | [] => cloneNode true n :: align [] newRest
      | o :: oldRest => patch o n :: align oldRest newRest
      end
  end.
End Align.

(** [patch(oldParent, oldNode, newNode)]: the node that stands in
    [oldParent] where [oldNode] stood.  [replaceChild] puts the clone at that
    place; every other branch keeps [oldNode], mutated.  The call of
    [reconcileChildren] on the two elements is written as the walk [align],
    on which the recursion is structural; [reconcileChildren] below is the
    loop of the source, and [DiffProofs.patch_same_tag] states this branch
    with it. *)
Fixpoint patch (oldNode newNode : Node) {struct newNode} : Node :=
  if negb (Nat.eqb (nodeType oldNode) (nodeType newNode)) then cloneNode true newNode
  else if Nat.eqb (nodeType newNode) TEXT_NODE then
    if negb (String.eqb (textContent oldNode) (textContent newNode))
    then set_textContent oldNode (textContent newNode)
    else oldNode
  else if negb (Nat.eqb (nodeType newNode) ELEMENT_NODE) then oldNode
  else if negb (String.eqb (nodeName oldNode) (nodeName newNode))
  then cloneNode true newNode
  else
    match oldNode, newNode with
    | Element tag attrs value oldCh, Element _ newAttrs _ newCh =>
        let el := syncAttrs {| el_tag := tag; el_attrs := attrs; el_value := value |}
                    newAttrs in
        Element tag (el_attrs el) (el_value el) (align patch oldCh newCh)
    | _, _ => oldNode
    end.

(** The live child list during the loop of [reconcileChildren].  Slot [i]
    is the place of [oldCh[i]] in the parent: [Some n] when node [n] stands
    there now, [None] once [removeChild] took it out.  [appended] are the
    nodes [appendChild] added behind them. *)
Record LiveChildren := { slots : list (option Node); appended : list Node }.

Definition childNodes (lc : LiveChildren) : list Node :=
  omap id (slots lc) ++ appended lc.

(** One iteration of the [for] loop. *)
Definition reconcile_step (oldCh newCh : list Node) (lc : LiveChildren) (i : nat)
  : LiveChildren :=
  if Nat.leb (length oldCh) i then
    match newCh !! i with
    | Some n => {| slots := slots lc; appended := appended lc ++ [cloneNode true n] |}
    | None => lc
    end
  else if Nat.leb (length newCh) i then
    {| slots := <[i := None]> (slots lc); appended := appended lc |}
  else
    match oldCh !! i, newCh !! i with
    | Some o, Some n =>
        {| slots := <[i := Some (patch o n)]> (slots lc); appended := appended lc |}
    | _, _ => lc
    end.

(** [reconcileChildren(oldEl, newEl)], on the child lists: the children of
    [oldEl] afterwards. *)
Definition reconcileChildren (oldCh newCh : list Node) : list Node :=
  let len := Nat.max (length oldCh) (length newCh) in
  childNodes
    (fold_left (reconcile_step oldCh newCh) (seq 0 len)
       {| slots := Some <$> oldCh; appended := [] |}).

(** What the claims call structural and attribute-wise equality: same node
    kinds, same text, same tags, the same value for every attribute name,
    and the same for the children in order. *)
Local Unset Elimination Schemes.
Inductive node_equiv : Node -> Node -> Prop :=
| equiv_text data : node_equiv (Text data) (Text data)
| equiv_element tag attrs1 value1 ch1 attrs2 value2 ch2 :
    (forall name, getAttribute attrs1 name = getAttribute attrs2 name) ->
    Forall2 node_equiv ch1 ch2 ->
    node_equiv (Element tag attrs1 value1 ch1) (Element tag attrs2 value2 ch2)
| equiv_other kind data : node_equiv (Other kind data) (Other kind data).
Local Set Elimination Schemes.

(** An attribute name that [setAttribute] takes as it is in every host:
    lower-case letters, digits and hyphens after a first letter.  On other
    names it may throw, or turn upper case into lower case. *)
Definition simple_name (name : string) : bool :=
  let lower c := Nat.leb 97 (nat_of_ascii c) && Nat.leb (nat_of_ascii c) 122 in
  let digit c := Nat.leb 48 (nat_of_ascii c) && Nat.leb (nat_of_ascii c) 57 in
  match list_ascii_of_string name with
  | [] => false
  | c :: rest =>
      lower c && forallb (fun d => lower d || digit d || Nat.eqb (nat_of_ascii d) 45) rest
  end.

Definition simple_attrs (attrs : Attrs) : bool :=
  forallb (fun a => simple_name (fst a)) attrs.





(** The attributes of an [input] of the given type other than [type] on
    whose change the host sets the element's value anew: [min], [max] and
    [step] on a range, [multiple] on an e-mail field, [alpha] and
    [colorspace] on a colour well. *)
Definition sanitizing (type : string) : list string :=
  if String.eqb type "range" then ["min"; "max"; "step"]
  else if String.eqb type "email" then ["multiple"]
  else if String.eqb type "color" then ["alpha"; "colorspace"]
  else [].

(** The desired attributes leave the [input] in the state of [type] it is
    in, and have the attributes above as the live element has them, so that
    [syncAttrs] writes none of them. *)
Definition keeps_sanitizing (attrs newAttrs : Attrs) : bool :=
  String.eqb (input_type attrs) (input_type newAttrs)
  && forallb (fun name => opt_string_eqb (getAttribute attrs name) (getAttribute newAttrs name))
       (sanitizing (input_type attrs)).

(** The attributes of an [input] that is a one-line text field. *)
Definition text_field (attrs : Attrs) : bool := text_type (input_type attrs).

(** A value such a field keeps as it is: the host takes line feeds and
    carriage returns out of what is assigned. *)
Fixpoint one_line (v : string) : bool :=
  match v with
  | EmptyString => true
  | String c rest =>
      negb (Nat.eqb (nat_of_ascii c) 10) && negb (Nat.eqb (nat_of_ascii c) 13)
      && one_line rest
  end.

(** An element on which the writes of [syncAttrs] are writes to the
    attribute list and nothing more: it is no list item, and when it is an
    input, it is in the state [T] of its [type], which the writes keep. *)
Definition calm (T : string) (el : ElState) : Prop :=
  is_li el = false /\ (is_input el = true -> input_type (el_attrs el) = T).

(** The attributes [l], which are still to be written, leave an input in
    the state [T]. *)
Definition typed (T : string) (el : ElState) (l : Attrs) : Prop :=
  is_input el = true -> forall v, In ("type", v) l -> input_type [("type", v)] = T.


(** *** Example trees *)

Definition live_example : list Node :=
  [ Element "P" [("class", "a"); ("id", "x")] NoValue [Text "hi"];
    Text "t";
    Other CommentNode "note";
    Element "UL" [] NoValue [Element "LI" [] NoValue [Text "1"]] ].

(** Shorter than [live_example], with another tag and a text node where it
    has an element. *)
Definition shorter_example : list Node :=
  [ Element "P" [("id", "y"); ("title", "t")] NoValue
      [Text "ho"; Element "B" [] NoValue [Text "!"]];
    Element "DIV" [] NoValue [];
    Text "z" ].

(** Longer than [live_example]. *)
Definition longer_example : list Node :=
  [ Text "hi";
    Text "t";
    Element "A" [("href", "#")] NoValue [];
    Element "UL" [("class", "l")] NoValue
      [Element "LI" [] NoValue [Text "1"]; Element "LI" [] NoValue [Text "2"]];
    Element "P" [] NoValue [];
    Text "end" ].

(** An input the user typed into: the attribute says [abc], the property
    holds [abcd]. *)
Definition typed_input : Node :=
  Element "INPUT" [("type", "text"); ("value", "abc")] (Dirty "abcd") [].

Definition desired_input : Node :=
  Element "INPUT" [("value", "abc"); ("class", "wide"); ("type", "text")] Pristine [].

(** The same element declared hidden. *)
Definition hidden_input : Node :=
  Element "INPUT" [("type", "hidden"); ("value", "abc")] Pristine [].

(** A list item, and the same item with a [value] attribute that holds no
    number. *)
Definition list_item : Node := Element "LI" [] NoValue [Text "first"].

Definition valued_list_item : Node :=
  Element "LI" [("value", "abc")] NoValue [Text "first"].

End Diff.
(** ** lib/act.js

    The state is the set of variables that [createApp] closes over, with
    the parts of the host they act on: the children of the mount container,
    the listeners the host has attached, its timers and its microtask
    queue.  The plain objects the source uses as maps ([globalState],
    [scopes], [handlers] and each [localState]) are finite maps from
    property names to values: the properties of the object itself.  What a
    lookup finds under a name that every object inherits ([constructor],
    [toString], [__proto__], ...) is not in them; [ActAux.inherited] lists
    these names, and a statement that depends on a lookup or an assignment
    under one of them says so.  Callbacks are user code: a handler or a
    timer function is known by its identity, and what it does when called
    is further calls in a run. *)

Module Act.
Import Dom Json.

(** A callback function, by identity. *)
Abbreviation Handler := nat.

(** State values. *)
Inductive Value :=
| VUndefined
| VNull
| VBool (b : bool)
| VNumber (n : Z)
| VString (s : string).

(** A scope object: the [name] and the [localState] its methods close
    over. *)
Record Scope := { sc_name : string; localState : gmap string Value }.

(** An element of the page: the render that created it and its path below
    the mount container.  Every render creates its nodes anew. *)
Abbreviation ElRef := (nat * Path)%type.

(** [{ el, event, handler }]. *)
Record Listener := { el : ElRef; event : string; handler : Handler }.

#[global] Instance Listener_eq_dec : EqDecision Listener.
Proof. solve_decision. Defined.

(** The function given to [mount]: it reads the global state and, through
    the scope objects it closes over, their local state, and returns the
    nodes of a fresh fragment. *)
Abbreviation RenderFn := (gmap string Value -> gmap nat Scope -> list Node).

Inductive Exn := SyntaxError | TypeError.

Inductive LogEntry :=
| Warn (msg : string)
| Log (msg : string)
| Uncaught (e : Exn).

(** The closure [scheduleRerender] hands to [queueMicrotask]. *)
Inductive Microtask := RerenderTask.

Inductive TimerKind := Interval | Timeout.

(** A timer of the host; [via_helper] tells that [safeSetInterval] or
    [safeSetTimeout] created it. *)
Record Timer := { kind : TimerKind; via_helper : bool }.

(** The variables [createApp] closes over, then the host state they act
    on.  [locals] holds every scope object created so far, by identity;
    [scopes] is the registry from names to them.  [renders] counts the calls
    of the render function. *)
Record App := {
  container : list Node;
  globalState : gmap string Value;
  scopes : gmap string nat;
  locals : gmap nat Scope;
  handlers : gmap string Handler;
  renderFn : option RenderFn;
  mounted : bool;
  activeListeners : list Listener;
  intervals : gset nat;
  timeouts : gset nat;
  rerenderScheduled : bool;
  microtasks : list Microtask;
  attached : list Listener;
  timers : gmap nat Timer;
  next_id : nat;
  console : list LogEntry;
  renders : nat
}.

Definition set_container (v : list Node) (st : App) : App :=
  {| container := v; globalState := globalState st; scopes := scopes st;
     locals := locals st; handlers := handlers st; renderFn := renderFn st;
     mounted := mounted st; activeListeners := activeListeners st;
     intervals := intervals st; timeouts := timeouts st;
     rerenderScheduled := rerenderScheduled st; microtasks := microtasks st;
     attached := attached st; timers := timers st; next_id := next_id st;
     console := console st; renders := renders st |}.

Definition set_globalState (v : gmap string Value) (st : App) : App :=
  {| container := container st; globalState := v; scopes := scopes st;
     locals := locals st; handlers := handlers st; renderFn := renderFn st;
     mounted := mounted st; activeListeners := activeListeners st;
     intervals := intervals st; timeouts := timeouts st;
     rerenderScheduled := rerenderScheduled st; microtasks := microtasks st;
     attached := attached st; timers := timers st; next_id := next_id st;
     console := console st; renders := renders st |}.

Definition set_scopes (v : gmap string nat) (st : App) : App :=
  {| container := container st; globalState := globalState st; scopes := v;
     locals := locals st; handlers := handlers st; renderFn := renderFn st;
     mounted := mounted st; activeListeners := activeListeners st;
     intervals := intervals st; timeouts := timeouts st;
     rerenderScheduled := rerenderScheduled st; microtasks := microtasks st;
     attached := attached st; timers := timers st; next_id := next_id st;
     console := console st; renders := renders st |}.

Definition set_locals (v : gmap nat Scope) (st : App) : App :=
  {| container := container st; globalState := globalState st; scopes := scopes st;
     locals := v; handlers := handlers st; renderFn := renderFn st;
     mounted := mounted st; activeListeners := activeListeners st;
     intervals := intervals st; timeouts := timeouts st;
     rerenderScheduled := rerenderScheduled st; microtasks := microtasks st;
     attached := attached st; timers := timers st; next_id := next_id st;
     console := console st; renders := renders st |}.

Definition set_handlers (v : gmap string Handler) (st : App) : App :=
  {| container := container st; globalState := globalState st; scopes := scopes st;
     locals := locals st; handlers := v; renderFn := renderFn st;
     mounted := mounted st; activeListeners := activeListeners st;
     intervals := intervals st; timeouts := timeouts st;
     rerenderScheduled := rerenderScheduled st; microtasks := microtasks st;
     attached := attached st; timers := timers st; next_id := next_id st;
     console := console st; renders := renders st |}.

Definition set_renderFn (v : option RenderFn) (st : App) : App :=
  {| container := container st; globalState := globalState st; scopes := scopes st;
     locals := locals st; handlers := handlers st; renderFn := v;
     mounted := mounted st; activeListeners := activeListeners st;
     intervals := intervals st; timeouts := timeouts st;
     rerenderScheduled := rerenderScheduled st; microtasks := microtasks st;
     attached := attached st; timers := timers st; next_id := next_id st;
     console := console st; renders := renders st |}.

Definition set_mounted (v : bool) (st : App) : App :=
  {| container := container st; globalState := globalState st; scopes := scopes st;
     locals := locals st; handlers := handlers st; renderFn := renderFn st;
     mounted := v; activeListeners := activeListeners st; intervals := intervals st;
     timeouts := timeouts st; rerenderScheduled := rerenderScheduled st;
     microtasks := microtasks st; attached := attached st; timers := timers st;
     next_id := next_id st; console := console st; renders := renders st |}.

Definition set_activeListeners (v : list Listener) (st : App) : App :=
  {| container := container st; globalState := globalState st; scopes := scopes st;
     locals := locals st; handlers := handlers st; renderFn := renderFn st;
     mounted := mounted st; activeListeners := v; intervals := intervals st;
     timeouts := timeouts st; rerenderScheduled := rerenderScheduled st;
     microtasks := microtasks st; attached := attached st; timers := timers st;
     next_id := next_id st; console := console st; renders := renders st |}.

Definition set_intervals (v : gset nat) (st : App) : App :=
  {| container := container st; globalState := globalState st; scopes := scopes st;
     locals := locals st; handlers := handlers st; renderFn := renderFn st;
     mounted := mounted st; activeListeners := activeListeners st; intervals := v;
     timeouts := timeouts st; rerenderScheduled := rerenderScheduled st;
     microtasks := microtasks st; attached := attached st; timers := timers st;
     next_id := next_id st; console := console st; renders := renders st |}.

Definition set_timeouts (v : gset nat) (st : App) : App :=
  {| container := container st; globalState := globalState st; scopes := scopes st;
     locals := locals st; handlers := handlers st; renderFn := renderFn st;
     mounted := mounted st; activeListeners := activeListeners st;
     intervals := intervals st; timeouts := v;
     rerenderScheduled := rerenderScheduled st; microtasks := microtasks st;
     attached := attached st; timers := timers st; next_id := next_id st;
     console := console st; renders := renders st |}.

Definition set_rerenderScheduled (v : bool) (st : App) : App :=
  {| container := container st; globalState := globalState st; scopes := scopes st;
     locals := locals st; handlers := handlers st; renderFn := renderFn st;
     mounted := mounted st; activeListeners := activeListeners st;
     intervals := intervals st; timeouts := timeouts st; rerenderScheduled := v;
     microtasks := microtasks st; attached := attached st; timers := timers st;
     next_id := next_id st; console := console st; renders := renders st |}.

Definition set_microtasks (v : list Microtask) (st : App) : App :=
  {| container := container st; globalState := globalState st; scopes := scopes st;
     locals := locals st; handlers := handlers st; renderFn := renderFn st;
     mounted := mounted st; activeListeners := activeListeners st;
     intervals := intervals st; timeouts := timeouts st;
     rerenderScheduled := rerenderScheduled st; microtasks := v;
     attached := attached st; timers := timers st; next_id := next_id st;
     console := console st; renders := renders st |}.

Definition set_attached (v : list Listener) (st : App) : App :=
  {| container := container st; globalState := globalState st; scopes := scopes st;
     locals := locals st; handlers := handlers st; renderFn := renderFn st;
     mounted := mounted st; activeListeners := activeListeners st;
     intervals := intervals st; timeouts := timeouts st;
     rerenderScheduled := rerenderScheduled st; microtasks := microtasks st;
     attached := v; timers := timers st; next_id := next_id st; console := console st;
     renders := renders st |}.

Definition set_timers (v : gmap nat Timer) (st : App) : App :=
  {| container := container st; globalState := globalState st; scopes := scopes st;
     locals := locals st; handlers := handlers st; renderFn := renderFn st;
     mounted := mounted st; activeListeners := activeListeners st;
     intervals := intervals st; timeouts := timeouts st;
     rerenderScheduled := rerenderScheduled st; microtasks := microtasks st;
     attached := attached st; timers := v; next_id := next_id st;
     console := console st; renders := renders st |}.

Definition set_next_id (v : nat) (st : App) : App :=
  {| container := container st; globalState := globalState st; scopes := scopes st;
     locals := locals st; handlers := handlers st; renderFn := renderFn st;
     mounted := mounted st; activeListeners := activeListeners st;
     intervals := intervals st; timeouts := timeouts st;
     rerenderScheduled := rerenderScheduled st; microtasks := microtasks st;
     attached := attached st; timers := timers st; next_id := v; console := console st;
     renders := renders st |}.

Definition set_console (v : list LogEntry) (st : App) : App :=
  {| container := container st; globalState := globalState st; scopes := scopes st;
     locals := locals st; handlers := handlers st; renderFn := renderFn st;
     mounted := mounted st; activeListeners := activeListeners st;
     intervals := intervals st; timeouts := timeouts st;
     rerenderScheduled := rerenderScheduled st; microtasks := microtasks st;
     attached := attached st; timers := timers st; next_id := next_id st; console := v;
     renders := renders st |}.

Definition set_renders (v : nat) (st : App) : App :=
  {| container := container st; globalState := globalState st; scopes := scopes st;
     locals := locals st; handlers := handlers st; renderFn := renderFn st;
     mounted := mounted st; activeListeners := activeListeners st;
     intervals := intervals st; timeouts := timeouts st;
     rerenderScheduled := rerenderScheduled st; microtasks := microtasks st;
     attached := attached st; timers := timers st; next_id := next_id st;
     console := console st; renders := v |}.

(** [createApp(container)]. *)
Definition createApp (content : list Node) : App :=
  {| container := content; globalState := ∅; scopes := ∅; locals := ∅;
     handlers := ∅; renderFn := None; mounted := false; activeListeners := [];
     intervals := ∅; timeouts := ∅; rerenderScheduled := false; microtasks := [];
     attached := []; timers := ∅; next_id := 0; console := []; renders := 0 |}.

(** *** Calls that may throw *)

Inductive Outcome (A : Type) :=
| Returned (a : A)
| Threw (e : Exn).
Arguments Returned {A} a.
Arguments Threw {A} e.

(** A call that runs on the state and returns or throws. *)
Definition M (A : Type) : Type := App -> App * Outcome A.

Definition ret {A} (a : A) : M A := fun st => (st, Returned a).

Definition throw {A} (e : Exn) : M A := fun st => (st, Threw e).

Definition bind {A B} (m : M A) (k : A -> M B) : M B :=
  fun st =>
    match m st with
    | (st', Returned a) => k a st'
    | (st', Threw e) => (st', Threw e)
    end.

Definition modify (f : App -> App) : M unit := fun st => (f st, Returned tt).

Definition gets {A} (f : App -> A) : M A := fun st => (st, Returned (f st)).

Declare Scope act_scope.
Delimit Scope act_scope with act.
Notation "x <- m ;; k" := (bind m (fun x => k))
  (at level 100, m at next level, right associativity) : act_scope.
Notation "m ;; k" := (bind m (fun _ => k))
  (at level 100, right associativity) : act_scope.

(** [for (const x of l) f(x)]. *)
Fixpoint for_each {A} (f : A -> M unit) (l : list A) : M unit :=
  match l with
  | [] => ret tt
  | x :: rest => (f x ;; for_each f rest)%act
  end.

Definition quoted (s : string) : string :=
  String (ascii_of_nat 34) (s +:+ String (ascii_of_nat 34) "").

Definition console_warn (msg : string) (st : App) : App :=
  set_console (console st ++ [Warn msg]) st.

Definition console_log (msg : string) (st : App) : App :=
  set_console (console st ++ [Log msg]) st.

(** *** Scheduling *)

Definition queueMicrotask (t : Microtask) (st : App) : App :=
  set_microtasks (microtasks st ++ [t]) st.

Definition scheduleRerender (st : App) : App :=
  if negb (rerenderScheduled st)
  then queueMicrotask RerenderTask (set_rerenderScheduled true st)
  else st.

(** *** Global state *)

Definition setState (key : string) (value : Value) (st : App) : App :=
  let st := set_globalState (<[key := value]> (globalState st)) st in
  if mounted st then scheduleRerender st else st.

Definition getState (key : string) (st : App) : Value :=
  default VUndefined (globalState st !! key).

Definition deleteState (key : string) (st : App) : App :=
  set_globalState (delete key (globalState st)) st.

(** *** Scopes *)

(** [scope.handler(handlerName)]. *)
Definition handler_key (name handlerName : string) : string :=
  name +:+ ":" +:+ handlerName.

Definition scope_exists_warning (name : string) : string :=
  "[act.js] Scope " +:+ quoted name +:+ " already exists. Use app.getScope("
  +:+ quoted name +:+ ") to access it.".

Definition scope_missing_warning (name : string) : string :=
  "[act.js] Scope " +:+ quoted name +:+ " not found. Make sure it's created first.".

Definition destroyed_message : string := "[act.js] App destroyed and cleaned up.".

(** [createScope(name)]: the scope object and the state afterwards. *)
Definition createScope (name : string) (st : App) : nat * App :=
  match scopes st !! name with
  | Some sid => (sid, console_warn (scope_exists_warning name) st)
  | None =>
      let sid := next_id st in
      let st := set_next_id (S sid) st in
      let st := set_locals (<[sid := {| sc_name := name; localState := ∅ |}]> (locals st)) st in
      (sid, set_scopes (<[name := sid]> (scopes st)) st)
  end.

(** [getScope(name)]; [None] is [null]. *)
Definition getScope (name : string) (st : App) : option nat * App :=
  match scopes st !! name with
  | None => (None, console_warn (scope_missing_warning name) st)
  | Some sid => (Some sid, st)
  end.

(** The methods of the scope object [sid].  A call through a reference
    that names no object does not occur and is modelled as doing nothing. *)
Definition scope_setState (sid : nat) (key : string) (value : Value) (st : App) : App :=
  match locals st !! sid with
  | Some sc =>
      let sc := {| sc_name := sc_name sc; localState := <[key := value]> (localState sc) |} in
      let st := set_locals (<[sid := sc]> (locals st)) st in
      if mounted st then scheduleRerender st else st
  | None => st
  end.

Definition scope_getState (sid : nat) (key : string) (st : App) : Value :=
  match locals st !! sid with
  | Some sc => default VUndefined (localState sc !! key)
  | None => VUndefined
  end.

Definition scope_deleteState (sid : nat) (key : string) (st : App) : App :=
  match locals st !! sid with
  | Some sc =>
      let sc := {| sc_name := sc_name sc; localState := delete key (localState sc) |} in
      set_locals (<[sid := sc]> (locals st)) st
  | None => st
  end.

Definition scope_getGlobal (sid : nat) (key : string) (st : App) : Value :=
  default VUndefined (globalState st !! key).

Definition scope_on (sid : nat) (handlerName : string) (fn : Handler) (st : App) : App :=
  match locals st !! sid with
  | Some sc =>
      set_handlers (<[handler_key (sc_name sc) handlerName := fn]> (handlers st)) st
  | None => st
  end.

Definition scope_off (sid : nat) (handlerName : string) (st : App) : App :=
  match locals st !! sid with
  | Some sc => set_handlers (delete (handler_key (sc_name sc) handlerName) (handlers st)) st
  | None => st
  end.

Definition scope_handler (sid : nat) (handlerName : string) (st : App) : string :=
  match locals st !! sid with
  | Some sc => handler_key (sc_name sc) handlerName
  | None => ""
  end.

(** [scope.all()]: a copy of the local state. *)
Definition scope_all (sid : nat) (st : App) : gmap string Value :=
  match locals st !! sid with
  | Some sc => localState sc
  | None => ∅
  end.

Definition scope_destroy (sid : nat) (st : App) : App :=
  match locals st !! sid with
  | Some sc =>
      let name := sc_name sc in
      let st :=
        set_handlers
          (filter (fun kv => negb (String.prefix (name +:+ ":") (fst kv)) = true)
             (handlers st)) st in
      let st := set_locals (<[sid := {| sc_name := name; localState := ∅ |}]> (locals st)) st in
      set_scopes (delete name (scopes st)) st
  | None => st
  end.

(** *** Global handlers *)

Definition on (name : string) (fn : Handler) (st : App) : App :=
  set_handlers (<[name := fn]> (handlers st)) st.

Definition off (name : string) (st : App) : App :=
  set_handlers (delete name (handlers st)) st.

(** *** Timers *)

(** The host's [setInterval] and [setTimeout]: a timer with a fresh id. *)
Definition host_setTimer (k : TimerKind) (helper : bool) (st : App) : nat * App :=
  let id := next_id st in
  (id, set_timers (<[id := {| kind := k; via_helper := helper |}]> (timers st))
         (set_next_id (S id) st)).

(** The host's [clearInterval] and [clearTimeout]. *)
Definition host_clearTimer (id : nat) (st : App) : App :=
  set_timers (delete id (timers st)) st.

Definition safeSetInterval (st : App) : nat * App :=
  let '(id, st) := host_setTimer Interval true st in
  (id, set_intervals ({[id]} ∪ intervals st) st).

Definition safeClearInterval (id : nat) (st : App) : App :=
  let st := host_clearTimer id st in
  set_intervals (intervals st ∖ {[id]}) st.

Definition safeSetTimeout (st : App) : nat * App :=
  let '(id, st) := host_setTimer Timeout true st in
  (id, set_timeouts ({[id]} ∪ timeouts st) st).

Definition safeClearTimeout (id : nat) (st : App) : App :=
  let st := host_clearTimer id st in
  set_timeouts (timeouts st ∖ {[id]}) st.

(** The host fires timer [id]: a timeout is over, and the wrapper that
    [safeSetTimeout] installed takes its id out of [timeouts] before it
    calls the user's function. *)
Definition timer_fires (id : nat) (st : App) : App :=
  match timers st !! id with
  | Some {| kind := Timeout; via_helper := helper |} =>
      let st := set_timers (delete id (timers st)) st in
      if helper then set_timeouts (timeouts st ∖ {[id]}) st else st
  | _ => st
  end.

(** *** Rendering *)

(** The host's [el.addEventListener(event, handler)]: a listener that is
    there already is not added again. *)
Definition addEventListener (l : Listener) (st : App) : App :=
  if bool_decide (l ∈ attached st) then st
  else set_attached (attached st ++ [l]) st.

(** The host's [el.removeEventListener(event, handler)]. *)
Definition removeEventListener (l : Listener) (st : App) : App :=
  set_attached (List.filter (fun l' => negb (bool_decide (l' = l))) (attached st)) st.

Definition cleanupListeners (st : App) : App :=
  let st := fold_left (fun st l => removeEventListener l st) (activeListeners st) st in
  set_activeListeners [] st.

(** One entry of the event map of the element at [p].  A registered
    handler is a function, so [if (handler)] asks whether there is one. *)
Definition bind_entry (p : Path) (entry : string * JSON) (st : App) : App :=
  let '(event, handlerName) := entry in
  match handlers st !! to_property_key handlerName with
  | Some handler =>
      let l := {| el := (renders st, p); event := event; handler := handler |} in
      let st := addEventListener l st in
      set_activeListeners (activeListeners st ++ [l]) st
  | None =>
      console_warn ("[act.js] No handler registered for "
                    +:+ quoted (to_property_key handlerName)) st
  end.

(** The host's [JSON.parse] on the result of [getAttribute], which is
    [null] for a missing attribute. *)
Definition parse_attribute (attr : option string) : M JSON :=
  match JSON_parse (default "null" attr) with
  | Some v => ret v
  | None => throw SyntaxError
  end.

Definition entries_of (v : JSON) : M (list (string * JSON)) :=
  match Object_entries v with
  | Some entries => ret entries
  | None => throw TypeError
  end.

(** The body of the [forEach] in [bindEvents], for the element at [p]. *)
Definition bind_element (p : Path) : M unit :=
  (attr <- gets (fun st => getAttributeAt (container st) p "data-on") ;;
   eventMap <- parse_attribute attr ;;
   entries <- entries_of eventMap ;;
   modify (fun st => fold_left (fun st entry => bind_entry p entry st) entries st) ;;
   modify (fun st => set_container (removeAttributeAt (container st) p "data-on") st))%act.

(** [bindEvents(container)]. *)
Definition bindEvents : M unit :=
  (els <- gets (fun st => querySelectorAll_attr "data-on" (container st)) ;;
   for_each bind_element els)%act.

(** [rerender()], up to the end of [bindEvents].  Saving and restoring
    the focus acts on the document's focus only, which the state does not
    hold; the restoring comes last and may throw (a [data-id] that makes no
    selector, an element without a selection), which leaves the state as
    given here. *)
Definition rerender : M unit :=
  fun st =>
    match renderFn st with
    | None => (st, Returned tt)
    | Some fn =>
        (modify cleanupListeners ;;
         content <- (fun st => (set_renders (S (renders st)) st,
                                Returned (fn (globalState st) (locals st)))) ;;
         modify (set_container []) ;;
         modify (fun st => set_container (container st ++ content) st) ;;
         bindEvents)%act st
    end.

(** [mount(fn)].  The style sheets it adopts are not part of the state. *)
Definition mount (fn : RenderFn) : M unit :=
  (modify (set_renderFn (Some fn)) ;;
   modify (set_mounted true) ;;
   rerender)%act.

(** [scopes[name].destroy()] inside [destroy]: a [TypeError] when the
    registry has nothing under [name]. *)
Definition destroy_scope_named (name : string) : M unit :=
  fun st =>
    match scopes st !! name with
    | Some sid => (scope_destroy sid st, Returned tt)
    | None => (st, Threw TypeError)
    end.

(** [destroy()].  The sets and the registry are walked in the order the
    maps list their keys; the calls on distinct ids and names do not depend
    on one another.  The style sheets are not part of the state. *)
Definition destroy : M unit :=
  (modify (set_mounted false) ;;
   modify (set_renderFn None) ;;
   modify cleanupListeners ;;
   modify (fun st => fold_left (fun st id => host_clearTimer id st) (elements (intervals st)) st) ;;
   modify (set_intervals ∅) ;;
   modify (fun st => fold_left (fun st id => host_clearTimer id st) (elements (timeouts st)) st) ;;
   modify (set_timeouts ∅) ;;
   names <- gets (fun st => fst <$> map_to_list (scopes st)) ;;
   for_each destroy_scope_named names ;;
   modify (set_container []) ;;
   modify (set_globalState ∅) ;;
   modify (set_handlers ∅) ;;
   modify (console_log destroyed_message))%act.

(** *** The host's event loop *)

(** One queued closure: [rerenderScheduled = false; rerender()].  What it
    throws goes to the host, which reports it. *)
Definition run_microtask (t : Microtask) (st : App) : App :=
  let st := set_rerenderScheduled false st in
  match rerender st with
  | (st, Returned _) => st
  | (st, Threw e) => set_console (console st ++ [Uncaught e]) st
  end.

(** The microtask checkpoint that follows a synchronous block. *)
Definition checkpoint (st : App) : App :=
  fold_left (fun st t => run_microtask t st) (microtasks st) (set_microtasks [] st).

(** *** Runs

    What component code and the host can do to an application, one call
    at a time.  A call that throws leaves the state as it was at the
    throw. *)
Inductive Op :=
| OSetState (key : string) (value : Value)
| ODeleteState (key : string)
| OCreateScope (name : string)
| OGetScope (name : string)
| OScopeSetState (sid : nat) (key : string) (value : Value)
| OScopeDeleteState (sid : nat) (key : string)
| OScopeOn (sid : nat) (handlerName : string) (fn : Handler)
| OScopeOff (sid : nat) (handlerName : string)
| OScopeDestroy (sid : nat)
| OOn (name : string) (fn : Handler)
| OOff (name : string)
| OMount (fn : RenderFn)
| ODestroy
| OSafeSetInterval
| OSafeClearInterval (id : nat)
| OSafeSetTimeout
| OSafeClearTimeout (id : nat)
| OSetTimer (k : TimerKind)
| OClearTimer (id : nat)
| OTimerFires (id : nat)
| OCheckpoint.

Definition step (st : App) (op : Op) : App :=
  match op with
  | OSetState key value => setState key value st
  | ODeleteState key => deleteState key st
  | OCreateScope name => snd (createScope name st)
  | OGetScope name => snd (getScope name st)
  | OScopeSetState sid key value => scope_setState sid key value st
  | OScopeDeleteState sid key => scope_deleteState sid key st
  | OScopeOn sid handlerName fn => scope_on sid handlerName fn st
  | OScopeOff sid handlerName => scope_off sid handlerName st
  | OScopeDestroy sid => scope_destroy sid st
  | OOn name fn => on name fn st
  | OOff name => off name st
  | OMount fn => fst (mount fn st)
  | ODestroy => fst (destroy st)
  | OSafeSetInterval => snd (safeSetInterval st)
  | OSafeClearInterval id => safeClearInterval id st
  | OSafeSetTimeout => snd (safeSetTimeout st)
  | OSafeClearTimeout id => safeClearTimeout id st
  | OSetTimer k => snd (host_setTimer k false st)
  | OClearTimer id => host_clearTimer id st
  | OTimerFires id => timer_fires id st
  | OCheckpoint => checkpoint st
  end.

Definition run (ops : list Op) (st : App) : App := fold_left step ops st.

(** The state in which [rerender] calls [bindEvents]: listeners cleaned
    up, the render function called, the container emptied and the fragment
    appended. *)
Definition staged (fn : RenderFn) (st : App) : App :=
  let st := cleanupListeners st in
  let content := fn (globalState st) (locals st) in
  let st := set_renders (S (renders st)) st in
  let st := set_container [] st in
  set_container (container st ++ content) st.

(** The state in which [destroy] starts on the scopes: unmounted,
    listeners detached, tracked timers cleared. *)
Definition torn (st : App) : App :=
  let st := set_mounted false st in
  let st := set_renderFn None st in
  let st := cleanupListeners st in
  let st := fold_left (fun st id => host_clearTimer id st) (elements (intervals st)) st in
  let st := set_intervals ∅ st in
  let st := fold_left (fun st id => host_clearTimer id st) (elements (timeouts st)) st in
  set_timeouts ∅ st.

(** The end of [destroy], after the scopes. *)
Definition wiped (st : App) : App :=
  let st := set_container [] st in
  let st := set_globalState ∅ st in
  let st := set_handlers ∅ st in
  console_log destroyed_message st.

(** A [setState] call, global or on an existing scope object. *)
Definition is_setState (st : App) (op : Op) : bool :=
  match op with
  | OSetState _ _ => true
  | OScopeSetState sid _ _ => bool_decide (sid ∈ dom (locals st))
  | _ => false
  end.

(** A name without the separator that [handler_key] puts in. *)
Fixpoint no_colon (s : string) : bool :=
  match s with
  | EmptyString => true
  | String c rest => negb (Ascii.eqb c ":") && no_colon rest
  end.

(** Calls that take no scope out of the registry. *)
Definition keeps_scopes (op : Op) : bool :=
  match op with
  | OScopeDestroy _ | ODestroy => false
  | _ => true
  end.

(** *** What a tree declares

    The bindings that the [data-on] attributes of a tree declare, read off
    the tree as the render function returned it. *)

(** The event map of the element at [p]; [None] when [JSON.parse] or
    [Object.entries] would throw on its attribute. *)
Definition event_map (nodes : list Node) (p : Path) : option (list (string * JSON)) :=
  match JSON_parse (default "null" (getAttributeAt nodes p "data-on")) with
  | Some v => Object_entries v
  | None => None
  end.

(** The entries whose handler name is registered, as listeners of the
    element [ref]. *)
Definition resolve (hs : gmap string Handler) (ref : ElRef)
    (entries : list (string * JSON)) : list Listener :=
  omap (fun entry =>
          match hs !! to_property_key (snd entry) with
          | Some h => Some {| el := ref; event := fst entry; handler := h |}
          | None => None
          end) entries.

Definition declared_at (hs : gmap string Handler) (gen : nat) (nodes : list Node)
    (p : Path) : list Listener :=
  match event_map nodes p with
  | Some entries => resolve hs (gen, p) entries
  | None => []
  end.

(** All bindings of the tree [nodes] created by render [gen], in document
    order. *)
Definition declared (hs : gmap string Handler) (gen : nat) (nodes : list Node)
  : list Listener :=
  flat_map (declared_at hs gen nodes) (querySelectorAll_attr "data-on" nodes).


(** *** Invariants of a run *)

(** What rendering leaves alone: everything but the page, the listeners,
    the console and the render count. *)
Record same_core (st st' : App) : Prop := {
  core_globalState : globalState st' = globalState st;
  core_scopes : scopes st' = scopes st;
  core_locals : locals st' = locals st;
  core_handlers : handlers st' = handlers st;
  core_renderFn : renderFn st' = renderFn st;
  core_mounted : mounted st' = mounted st;
  core_intervals : intervals st' = intervals st;
  core_timeouts : timeouts st' = timeouts st;
  core_rerenderScheduled : rerenderScheduled st' = rerenderScheduled st;
  core_microtasks : microtasks st' = microtasks st;
  core_timers : timers st' = timers st;
  core_next_id : next_id st' = next_id st
}.

(** From [st] to [st'] the listeners [ls] were attached and recorded, and
    nothing else about listeners changed. *)
Record bound (st st' : App) (ls : list Listener) : Prop := {
  bound_core : same_core st st';
  bound_renders : renders st' = renders st;
  bound_active : activeListeners st' = activeListeners st ++ ls;
  bound_attached : forall l, l ∈ attached st' <-> l ∈ attached st \/ l ∈ ls
}.

Record Inv (st : App) : Prop := {
  (** the registry names each scope by the name the scope carries *)
  inv_registry : forall name sid,
      scopes st !! name = Some sid ->
      exists sc, locals st !! sid = Some sc /\ sc_name sc = name;
  (** ids handed out are below [next_id] *)
  inv_fresh : forall sid sc, locals st !! sid = Some sc -> sid < next_id st;
  (** a helper's timer that is still running is tracked *)
  inv_timers : forall id t,
      timers st !! id = Some t -> via_helper t = true ->
      id ∈ intervals st \/ id ∈ timeouts st;
  (** every attached listener is recorded *)
  inv_listeners : forall l, l ∈ attached st -> l ∈ activeListeners st;
  (** recorded listeners sit on elements of the renders so far *)
  inv_generation : forall l, l ∈ activeListeners st -> fst (el l) <= renders st
}.

(** *** Example applications *)

Definition button (dataOn label : string) : Node :=
  Element "BUTTON" [("data-on", dataOn)] NoValue [Text label].

(** Two buttons bound to registered handlers and one to a handler nobody
    registered. *)
Definition counter_view : RenderFn :=
  fun _ _ =>
    [ Element "DIV" [("class", "app")] NoValue
        [ button (dq "{'click':'increment'}") "+";
          Text " ";
          button (dq "{'click':'decrement','keydown':'nobody'}") "-" ] ].


Definition counter_setup : list Op :=
  [ OOn "increment" 1; OOn "decrement" 2; OCreateScope "timer";
    OScopeSetState 0 "seconds" (VNumber 0); OSafeSetInterval; OSafeSetTimeout ].

(** A mounted counter with nothing scheduled. *)
Definition counter_app : App :=
  run (counter_setup ++ [OMount counter_view]) (createApp [Text "loading"]).

End Act.
(** ** lib/act.js: what its further properties speak of *)

Module ActAux.
Import Dom Json Act.

(** *** Inherited properties

    [globalState], [scopes], [handlers] and each [localState] are object
    literals, so a lookup [obj[key]] that finds no property of the object
    itself goes on to [Object.prototype].  The finite maps of [Act] hold the
    properties of the object itself; here are the names the prototype has,
    in a realm where nobody added to it. *)
Definition Object_prototype : list string :=
  [ "constructor"; "__defineGetter__"; "__defineSetter__"; "hasOwnProperty";
    "__lookupGetter__"; "__lookupSetter__"; "isPrototypeOf"; "propertyIsEnumerable";
    "toString"; "valueOf"; "__proto__"; "toLocaleString" ].

(** A lookup of [key] finds something in every object: a function, or for
    [__proto__] the prototype itself.  All of them are truthy. *)
Definition inherited (key : string) : bool :=
  existsb (String.eqb key) Object_prototype.

(** A call on which the maps do what the objects do.  An assignment to
    [__proto__] creates no property (it sets the prototype, or does
    nothing); under every other name it creates one, which hides the
    inherited one.  [createScope] and [getScope] test [scopes[name]], which
    is truthy for an inherited name though no scope was created. *)
Definition plain_op (op : Op) : bool :=
  match op with
  | OSetState key _ | OScopeSetState _ key _ => negb (String.eqb key "__proto__")
  | OOn name _ => negb (String.eqb name "__proto__")
  | OCreateScope name | OGetScope name => negb (inherited name)
  | _ => true
  end.


(** Any call but [mount]. *)
Definition not_mount (op : Op) : bool :=
  match op with
  | OMount _ => false
  | _ => true
  end.

(** Any call but [destroy]. *)
Definition not_destroy (op : Op) : bool :=
  match op with
  | ODestroy => false
  | _ => true
  end.

(** The calls other than [setState], [mount] and [destroy], and other than
    the host running the queued closures. *)
Definition quiet (op : Op) : bool :=
  match op with
  | OSetState _ _ | OScopeSetState _ _ _ | OMount _ | ODestroy | OCheckpoint => false
  | _ => true
  end.





(** The host hands out timer ids that are new, and the application tracks
    only ids its helpers were given. *)
Record timers_fresh (st : App) : Prop := {
  (** the ids of running timers have been handed out *)
  fresh_timers : forall id t, timers st !! id = Some t -> id < next_id st;
  fresh_intervals : forall id, id ∈ intervals st -> id < next_id st;
  fresh_timeouts : forall id, id ∈ timeouts st -> id < next_id st;
  (** a tracked id that is running is a helper's timer *)
  tracked_helper : forall id t,
      timers st !! id = Some t -> id ∈ intervals st \/ id ∈ timeouts st ->
      via_helper t = true
}.

(** Unmounted: no render function and no listener. *)
Record idle (st : App) : Prop := {
  idle_mounted : mounted st = false;
  idle_renderFn : renderFn st = None;
  idle_active : activeListeners st = [];
  idle_attached : attached st = []
}.

(** The flag [rerenderScheduled] tells whether the closure of
    [scheduleRerender] is in the host's queue, which holds it once at most;
    and the application is mounted when it has a render function. *)
Record scheduling (st : App) : Prop := {
  sched_queue : microtasks st = if rerenderScheduled st then [RerenderTask] else [];
  sched_mounted : mounted st = true <-> is_Some (renderFn st)
}.

End ActAux.
(** ** lib/act.js: the style sheets

    [createApp] also closes over three lists for critical CSS, which
    [mount] and [destroy] use on [document.adoptedStyleSheets].  These
    variables and the ones in [Act.App] are disjoint, and neither part of
    [mount] and [destroy] reads what the other writes; here is the
    style-sheet part. *)

Module ActCss.
Import Js.

(** *** The state *)

(** A [CSSStyleSheet] object, by identity. *)
Abbreviation Sheet := nat.

(** The three lists of [createApp], then the host: the style sheets the
    document has adopted, the rules each sheet object was given with
    [replaceSync], and the identity of the next object it creates. *)
Record Styles := {
  criticalCSSStrings : list string;
  criticalSheets : list Sheet;
  mountedStringSheets : list Sheet;
  adoptedStyleSheets : list Sheet;
  rules : gmap Sheet string;
  next_sheet : nat
}.

(** [criticalCSS(css)]. *)
Definition criticalCSS (css : string) (st : Styles) : Styles :=
  {| criticalCSSStrings := criticalCSSStrings st ++ [trim css];
     criticalSheets := criticalSheets st;
     mountedStringSheets := mountedStringSheets st;
     adoptedStyleSheets := adoptedStyleSheets st;
     rules := rules st; next_sheet := next_sheet st |}.

(** [criticalStylesheet(sheet)]; [None] is the [null] that the built
    output passes. *)
Definition criticalStylesheet (sheet : option Sheet) (st : Styles) : Styles :=
  match sheet with
  | Some s =>
      {| criticalCSSStrings := criticalCSSStrings st;
         criticalSheets := criticalSheets st ++ [s];
         mountedStringSheets := mountedStringSheets st;
         adoptedStyleSheets := adoptedStyleSheets st;
         rules := rules st; next_sheet := next_sheet st |}
  | None => st
  end.

(** The callback of [criticalCSSStrings.map]: [new CSSStyleSheet()], then
    [sheet.replaceSync(css)].  The sheets made so far are carried along
    with the host's state. *)
Definition new_sheet (acc : list Sheet * (gmap Sheet string * nat)) (css : string)
  : list Sheet * (gmap Sheet string * nat) :=
  let '(sheets, (rs, next)) := acc in
  (sheets ++ [next], (<[next := css]> rs, S next)).

(** The style-sheet part of [mount(fn)]. *)
Definition mount_styles (st : Styles) : Styles :=
  let '(sheets, (rs, next)) :=
    fold_left new_sheet (criticalCSSStrings st) ([], (rules st, next_sheet st)) in
  {| criticalCSSStrings := criticalCSSStrings st;
     criticalSheets := criticalSheets st;
     mountedStringSheets := sheets;
     adoptedStyleSheets :=
       if Nat.ltb 0 (length sheets) || Nat.ltb 0 (length (criticalSheets st))
       then adoptedStyleSheets st ++ sheets ++ criticalSheets st
       else adoptedStyleSheets st;
     rules := rs; next_sheet := next |}.

(** The style-sheet part of [destroy()]. *)
Definition destroy_styles (st : Styles) : Styles :=
  let allRegistered := mountedStringSheets st ++ criticalSheets st in
  {| criticalCSSStrings := [];
     criticalSheets := [];
     mountedStringSheets := [];
     adoptedStyleSheets :=
       List.filter (fun s => negb (bool_decide (s ∈ allRegistered)))
         (adoptedStyleSheets st);
     rules := rules st; next_sheet := next_sheet st |}.

(** The sheet objects the state refers to exist: the host has created
    them. *)
Definition known (st : Styles) : Prop :=
  forall s, s ∈ adoptedStyleSheets st ++ criticalSheets st ++ mountedStringSheets st ->
            s < next_sheet st.

(** An application that registered two texts and an imported sheet, on a
    page that has adopted a sheet of its own. *)
Definition styles_example : Styles :=
  criticalStylesheet (Some 1)
    (criticalCSS "  .a { color: red }  "
       (criticalStylesheet None
          (criticalCSS ".b{}"
             {| criticalCSSStrings := []; criticalSheets := [];
                mountedStringSheets := []; adoptedStyleSheets := [0];
                rules := ∅; next_sheet := 2 |}))).

End ActCss.
(** ** components/timer.js

    A caller of lib/act.js: a stopwatch that keeps its state in the scope
    ["timer"] and counts with [safeSetInterval].  The markup its render
    function returns is not modelled; the handlers are. *)

Module Components.
Import Act ActAux.

(** JavaScript's truthiness of a state value. *)
Definition truthy (v : Value) : bool :=
  match v with
  | VUndefined | VNull => false
  | VBool b => b
  | VNumber n => negb (Z.eqb n 0)
  | VString s => negb (String.eqb s "")
  end.

(** [v + 1] on a state value, when the result is a value of the model:
    the host adds integers exactly up to [2^53]; [undefined + 1] is [NaN]
    and a sum beyond [2^53] is rounded, which [Value] does not hold. *)
Definition plus_one (v : Value) : option Value :=
  match v with
  | VUndefined => None
  | VNull | VBool false => Some (VNumber 1)
  | VBool true => Some (VNumber 2)
  | VNumber n => if bool_decide (Z.abs n < 2 ^ 53)%Z then Some (VNumber (n + 1)) else None
  | VString s => Some (VString (s +:+ "1"))
  end.

(** What the closures of [TimerComponent] share: the application, the
    scope object and the variable [intervalId], [None] for [null].
    [ticking] is not a variable of the source: it holds the ids of the
    intervals that were given the counting closure, which the host calls
    when one of them fires. *)
Record TimerInstance := {
  app : App;
  scope : nat;
  intervalId : option nat;
  ticking : gset nat
}.

(** [TimerComponent(app)], with the identities of the three handler
    closures.  The style sheet it registers is in [ActCss]. *)
Definition TimerComponent (start stop reset : Handler) (st : App) : TimerInstance :=
  let '(scope, st) := createScope "timer" st in
  let st := scope_setState scope "seconds" (VNumber 0) st in
  let st := scope_setState scope "running" (VBool false) st in
  let st := scope_on scope "start" start st in
  let st := scope_on scope "stop" stop st in
  let st := scope_on scope "reset" reset st in
  {| app := st; scope := scope; intervalId := None; ticking := ∅ |}.

(** The handler [start]. *)
Definition timer_start (c : TimerInstance) : TimerInstance :=
  if truthy (scope_getState (scope c) "running" (app c)) then c
  else
    let st := scope_setState (scope c) "running" (VBool true) (app c) in
    let '(id, st) := safeSetInterval st in
    {| app := st; scope := scope c; intervalId := Some id;
       ticking := {[id]} ∪ ticking c |}.

(** [app.safeClearInterval(intervalId)]: for [null] the host's
    [clearInterval] finds no timer and [intervals.delete] no member. *)
Definition clear_interval (c : TimerInstance) : App :=
  match intervalId c with
  | Some id => safeClearInterval id (app c)
  | None => app c
  end.

(** The handler [stop]. *)
Definition timer_stop (c : TimerInstance) : TimerInstance :=
  let st := clear_interval c in
  let st := scope_setState (scope c) "running" (VBool false) st in
  {| app := st; scope := scope c; intervalId := None; ticking := ticking c |}.

(** The handler [reset]. *)
Definition timer_reset (c : TimerInstance) : TimerInstance :=
  let st := clear_interval c in
  let st := scope_setState (scope c) "running" (VBool false) st in
  let st := scope_setState (scope c) "seconds" (VNumber 0) st in
  {| app := st; scope := scope c; intervalId := None; ticking := ticking c |}.

(** The closure given to [safeSetInterval]; [None] when the sum is no
    value of the model. *)
Definition timer_tick (c : TimerInstance) : option TimerInstance :=
  match plus_one (scope_getState (scope c) "seconds" (app c)) with
  | Some v =>
      Some {| app := scope_setState (scope c) "seconds" v (app c); scope := scope c;
              intervalId := intervalId c; ticking := ticking c |}
  | None => None
  end.

(** What happens to the component: a click on one of its buttons, or the
    host firing a timer. *)
Inductive TimerEvent :=
| ClickStart
| ClickStop
| ClickReset
| Fires (id : nat).

Definition timer_event (c : TimerInstance) (e : TimerEvent) : option TimerInstance :=
  match e with
  | ClickStart => Some (timer_start c)
  | ClickStop => Some (timer_stop c)
  | ClickReset => Some (timer_reset c)
  | Fires id =>
      if bool_decide (id ∈ ticking c) then
        match timers (app c) !! id with
        | Some _ => timer_tick c
        | None => Some c
        end
      else
        Some {| app := timer_fires id (app c); scope := scope c;
                intervalId := intervalId c; ticking := ticking c |}
  end.

Fixpoint timer_events (events : list TimerEvent) (c : TimerInstance)
  : option TimerInstance :=
  match events with
  | [] => Some c
  | e :: rest =>
      match timer_event c e with
      | Some c => timer_events rest c
      | None => None
      end
  end.

(** The component after [n] events at most. *)
Record timer_ok (c : TimerInstance) (n : Z) : Prop := {
  ok_inv : Inv (app c);
  ok_fresh : timers_fresh (app c);
  ok_scope : is_Some (locals (app c) !! scope c);
  ok_ids : forall id, id ∈ ticking c -> id < next_id (app c);
  (** of the component's intervals, only [intervalId] can be running *)
  ok_one : forall id,
      id ∈ ticking c -> is_Some (timers (app c) !! id) -> intervalId c = Some id;
  ok_running :
    scope_getState (scope c) "running" (app c)
    = VBool (bool_decide (is_Some (intervalId c)));
  ok_interval : forall id,
      intervalId c = Some id ->
      id ∈ ticking c
      /\ timers (app c) !! id = Some {| kind := Interval; via_helper := true |}
      /\ id ∈ intervals (app c);
  ok_seconds : exists m,
      scope_getState (scope c) "seconds" (app c) = VNumber m /\ (0 <= m <= n)%Z
}.

End Components.
(** ** lib/build.js: the walk of the module graph

    [walk] reads a file with the host's [fs.readFileSync] and asks
    [parseImports] for the files it imports.  What these two return is
    given by the disk; [walk] uses nothing else of them, so they are taken
    as they come: any [readFileSync], which throws for a path it cannot
    read, and any [parseImports]. *)

Module Build.

Section Walk.
(** [fs.readFileSync(filePath, 'utf8')]; [None] when it throws. *)
Variable readFileSync : string -> option string.
(** [parseImports(code, fromFile)]: the resolved paths of the JavaScript
    imports. *)
Variable parseImports : string -> string -> list string.

(** The module-level variables [visited] and [orderedModules]; an entry
    of [orderedModules] is [{ filePath, code }]. *)
Record Bundler := {
  visited : gset string;
  orderedModules : list (string * string)
}.

Inductive Walked :=
| Finished (st : Bundler)
| Failed (st : Bundler).

(** [walk(filePath)].  [fuel] bounds the depth of the recursion; [None]
    when it does not suffice. *)
Fixpoint walk (fuel : nat) (filePath : string) (st : Bundler) : option Walked :=
  match fuel with
  | 0 => None
  | S fuel =>
      if bool_decide (filePath ∈ visited st) then Some (Finished st)
      else
        let st := {| visited := {[filePath]} ∪ visited st;
                     orderedModules := orderedModules st |} in
        match readFileSync filePath with
        | None => Some (Failed st)
        | Some code =>
            let deps := parseImports code filePath in
            match
              (fix each (deps : list string) (st : Bundler) : option Walked :=
                 match deps with
                 | [] => Some (Finished st)
                 | dep :: rest =>
                     match walk fuel dep st with
                     | Some (Finished st) => each rest st
                     | other => other
                     end
                 end) deps st
            with
            | Some (Finished st) =>
                Some (Finished
                        {| visited := visited st;
                           orderedModules := orderedModules st ++ [(filePath, code)] |})
            | other => other
            end
        end
  end.

(** The loop [for (const dep of deps) walk(dep)]. *)
Fixpoint walk_each (fuel : nat) (deps : list string) (st : Bundler) : option Walked :=
  match deps with
  | [] => Some (Finished st)
  | dep :: rest =>
      match walk fuel dep st with
      | Some (Finished st) => walk_each fuel rest st
      | other => other
      end
  end.

(** The state in which [bundle] calls [walk]. *)
Definition start : Bundler := {| visited := ∅; orderedModules := [] |}.

(** The paths of [orderedModules], in order. *)
Definition paths (st : Bundler) : list string := fst <$> orderedModules st.

(** [a] imports [b]. *)
Definition imports (a b : string) : Prop :=
  exists code, readFileSync a = Some code /\ b ∈ parseImports code a.

(** [a] stands before [b] in the list. *)
Definition before (a b : string) (l : list string) : Prop :=
  exists l1 l2 l3, l = l1 ++ a :: l2 ++ b :: l3.

(** What a finished walk has added to [orderedModules], when it was
    called on the files [roots]: modules that were not visited, each once,
    with the code read from them, each reached from a root, and each with
    its imports visited before, earlier in the list, or later in the list
    and importing it in turn. *)
Record added_by (roots : list string) (st st' : Bundler) (new : list (string * string))
  : Prop := {
  added_order : orderedModules st' = orderedModules st ++ new;
  added_visited : visited st' = visited st ∪ list_to_set (fst <$> new);
  added_nodup : NoDup (fst <$> new);
  added_new : forall n, n ∈ (fst <$> new) -> n ∉ visited st;
  added_code : forall n code, (n, code) ∈ new -> readFileSync n = Some code;
  added_reach : forall n, n ∈ (fst <$> new) -> exists r, r ∈ roots /\ rtc imports r n;
  added_deps : forall n d,
      n ∈ (fst <$> new) -> imports n d ->
      d ∈ visited st \/ before d n (fst <$> new)
      \/ (d ∈ (fst <$> new) /\ tc imports d n)
}.

End Walk.

(** A disk with four modules: [app.js] imports [a.js] and [b.js], both of
    which import [lib.js]. *)
Definition disk (filePath : string) : option string :=
  if String.eqb filePath "app.js" then Some "import a; import b"
  else if String.eqb filePath "a.js" then Some "import lib"
  else if String.eqb filePath "b.js" then Some "import lib (b)"
  else if String.eqb filePath "lib.js" then Some "export"
  else None.

Definition disk_imports (code fromFile : string) : list string :=
  if String.eqb fromFile "app.js" then ["a.js"; "b.js"]
  else if String.eqb fromFile "a.js" then ["lib.js"]
  else if String.eqb fromFile "b.js" then ["lib.js"]
  else [].

Definition disk_rank (filePath : string) : nat :=
  if String.eqb filePath "app.js" then 2
  else if String.eqb filePath "lib.js" then 0
  else 1.

End Build.
(** * Properties *)

(** ** Attribute lists *)

Module DomFacts.
Import Dom.

Lemma opt_string_eqb_eq a b : opt_string_eqb a b = true <-> a = b.
Proof.
  destruct a as [x|], b as [y|]; simpl; try (split; congruence).
  rewrite String.eqb_eq. split; congruence.
Qed.

Lemma get_set_same attrs name value :
  getAttribute (setAttribute attrs name value) name = Some value.
Proof.
  induction attrs as [|[n v] rest IH]; simpl.
  - by rewrite String.eqb_refl.
  - destruct (String.eqb n name) eqn:E; simpl; rewrite E; done.
Qed.

Lemma get_set_other attrs name value other :
  name <> other ->
  getAttribute (setAttribute attrs name value) other = getAttribute attrs other.
Proof.
  intros Hne. induction attrs as [|[n v] rest IH]; simpl.
  - destruct (String.eqb name other) eqn:E; [|done].
    apply String.eqb_eq in E. congruence.
  - destruct (String.eqb n name) eqn:E; simpl.
    + apply String.eqb_eq in E. subst n.
      destruct (String.eqb name other) eqn:E2; [|done].
      apply String.eqb_eq in E2. congruence.
    + by rewrite IH.
Qed.

Lemma get_remove_same attrs name :
  getAttribute (removeAttribute attrs name) name = None.
Proof.
  unfold removeAttribute.
  induction attrs as [|[n v] rest IH]; simpl; [done|].
  destruct (String.eqb n name) eqn:E; simpl; [done|]. by rewrite E.
Qed.

Lemma get_remove_other attrs name other :
  name <> other ->
  getAttribute (removeAttribute attrs name) other = getAttribute attrs other.
Proof.
  intros Hne. unfold removeAttribute.
  induction attrs as [|[n v] rest IH]; simpl; [done|].
  destruct (String.eqb n name) eqn:E; simpl.
  - apply String.eqb_eq in E. subst n.
    destruct (String.eqb name other) eqn:E2; [|done].
    apply String.eqb_eq in E2. congruence.
  - by rewrite IH.
Qed.

Lemma get_In attrs name value :
  getAttribute attrs name = Some value -> In (name, value) attrs.
Proof.
  induction attrs as [|[n v] rest IH]; simpl; [done|].
  destruct (String.eqb n name) eqn:E.
  - apply String.eqb_eq in E. intros [= ->]. left. congruence.
  - intros H. right. auto.
Qed.

Lemma In_get_unique attrs name value :
  unique_names attrs -> In (name, value) attrs ->
  getAttribute attrs name = Some value.
Proof.
  unfold unique_names.
  induction attrs as [|[n v] rest IH]; simpl; [done|].
  intros Hnd [Heq|Hin].
  - injection Heq as -> ->. by rewrite String.eqb_refl.
  - apply NoDup_cons in Hnd as [Hnotin Hnd].
    destruct (String.eqb n name) eqn:E.
    + apply String.eqb_eq in E. subst n. exfalso. apply Hnotin.
      apply list_elem_of_In. apply (in_map fst) in Hin. exact Hin.
    + auto.
Qed.

Lemma get_None_not_In (attrs : Attrs) name :
  getAttribute attrs name = None <-> ~ In name (fst <$> attrs).
Proof.
  induction attrs as [|[n v] rest IH]; simpl; [tauto|].
  destruct (String.eqb n name) eqn:E.
  - apply String.eqb_eq in E. split; [done|]. intros H. exfalso. auto.
  - apply String.eqb_neq in E. rewrite IH. tauto.
Qed.

Lemma removeAttribute_absent attrs name :
  hasAttribute attrs name = false -> removeAttribute attrs name = attrs.
Proof.
  unfold hasAttribute, removeAttribute.
  induction attrs as [|[n v] rest IH]; simpl; [done|].
  destruct (String.eqb n name) eqn:E; simpl; [done|].
  intros H. by rewrite IH.
Qed.

Lemma removeAttribute_idem attrs name :
  removeAttribute (removeAttribute attrs name) name = removeAttribute attrs name.
Proof.
  apply removeAttribute_absent. unfold hasAttribute. by rewrite get_remove_same.
Qed.

(** ** Element references *)

Lemma select_children_head sel i nodes p :
  In p (select_children sel i nodes) -> exists j q, p = j :: q /\ i <= j.
Proof.
  revert i. induction nodes as [|c rest IH]; intros i; simpl; [done|].
  rewrite in_app_iff. intros [Hin|Hin].
  - apply list_elem_of_In, list_elem_of_fmap in Hin as (q & -> & _). eauto.
  - apply IH in Hin as (j & q & -> & Hle). exists j, q. split; [done|lia].
Qed.

(** A path reaches at most one element, so distinct paths are distinct
    elements and a node list holds no element twice. *)
Lemma select_children_NoDup sel i nodes :
  Forall (fun n => NoDup (sel n)) nodes -> NoDup (select_children sel i nodes).
Proof.
  intros Hall. revert i. induction Hall as [|c rest Hc Hrest IH]; intros i; simpl.
  - constructor.
  - apply NoDup_app. split; [|split].
    + apply NoDup_fmap; [|done]. intros ?? [=]. done.
    + intros p Hp Hp'. apply list_elem_of_fmap in Hp as (q & -> & _).
      apply list_elem_of_In, select_children_head in Hp' as (j & q' & [= <- _] & Hle).
      lia.
    + apply IH.
Qed.

Lemma select_attr_NoDup name n : NoDup (select_attr name n).
Proof.
  induction n as [data|tag attrs value children IH|kind data] using Node_ind; simpl.
  - constructor.
  - apply NoDup_app. split; [|split].
    + destruct (hasAttribute attrs name); [apply NoDup_singleton|constructor].
    + intros p Hp Hp'. destruct (hasAttribute attrs name).
      * apply list_elem_of_singleton in Hp. subst p.
        apply list_elem_of_In, select_children_head in Hp' as (j & q & [=] & _).
      * by apply not_elem_of_nil in Hp.
    + by apply select_children_NoDup.
  - constructor.
Qed.

Lemma querySelectorAll_NoDup name nodes : NoDup (querySelectorAll_attr name nodes).
Proof.
  apply select_children_NoDup. apply Forall_forall. intros n _.
  apply select_attr_NoDup.
Qed.

(** Taking an attribute off one element leaves what the other elements
    carry. *)
Lemma getAttributeAt_remove_other nodes p q name other :
  p <> q ->
  getAttributeAt (removeAttributeAt nodes p name) q other = getAttributeAt nodes q other.
Proof.
  unfold getAttributeAt.
  revert nodes q. induction p as [|i p IH]; intros nodes q Hne; [done|].
  destruct q as [|j q]; [done|]. simpl.
  destruct (decide (i = j)) as [->|Hij].
  - rewrite list_lookup_alter_eq.
    destruct (nodes !! j) as [[data|tag attrs value children|kind data]|]; simpl; try done.
    destruct p as [|i' p'].
    + destruct q as [|j' q']; [congruence|done].
    + destruct q as [|j' q']; [done|].
      apply IH. congruence.
  - by rewrite list_lookup_alter_ne.
Qed.

Lemma without_attr_removeAt name nodes p :
  without_attr name <$> removeAttributeAt nodes p name = without_attr name <$> nodes.
Proof.
  revert nodes. induction p as [|i p IH]; intros nodes; [done|]. simpl.
  rewrite (list_fmap_alter _ _ id).
  - by apply list_alter_id.
  - apply Forall_forall. intros [data|tag attrs value children|kind data] _; try done.
    unfold id. destruct p as [|j p']; cbn [without_attr].
    + by rewrite removeAttribute_idem.
    + by rewrite IH.
Qed.

(** Taking the attribute off every selected element, one reference after
    the other. *)
Definition remove_each (name : string) (ps : list Path) (nodes : list Node)
  : list Node :=
  fold_left (fun nodes p => removeAttributeAt nodes p name) ps nodes.

Lemma remove_each_below name tag attrs value pre post qs children :
  Forall (fun q => q <> []) qs ->
  remove_each name (cons (length pre) <$> qs)
    (pre ++ Element tag attrs value children :: post)
  = pre ++ Element tag attrs value (remove_each name qs children) :: post.
Proof.
  intros Hqs. revert children.
  induction Hqs as [|q qs Hq _ IH]; intros children; [done|].
  simpl. rewrite <- IH. f_equal.
  replace (length pre) with (length pre + 0) at 1 by lia.
  rewrite alter_app_r. simpl. by destruct q.
Qed.

Lemma remove_each_children name nodes :
  Forall (fun n => forall pre post,
              remove_each name (cons (length pre) <$> select_attr name n)
                (pre ++ n :: post)
              = pre ++ without_attr name n :: post) nodes ->
  forall pre,
    remove_each name (select_children (select_attr name) (length pre) nodes)
      (pre ++ nodes)
    = pre ++ (without_attr name <$> nodes).
Proof.
  induction 1 as [|c rest Hc _ IH]; intros pre; [done|].
  simpl. unfold remove_each. rewrite fold_left_app.
  fold (remove_each name (cons (length pre) <$> select_attr name c) (pre ++ c :: rest)).
  rewrite Hc.
  specialize (IH (pre ++ [without_attr name c])).
  rewrite length_app in IH. simpl in IH.
  replace (length pre + 1) with (S (length pre)) in IH by lia.
  rewrite <- !app_assoc in IH. exact IH.
Qed.

Lemma remove_each_node name n pre post :
  remove_each name (cons (length pre) <$> select_attr name n) (pre ++ n :: post)
  = pre ++ without_attr name n :: post.
Proof.
  revert pre post.
  induction n as [data|tag attrs value children IH|kind data] using Node_ind;
    intros pre post; [done| |done].
  simpl. rewrite fmap_app. unfold remove_each. rewrite fold_left_app.
  assert (Hself :
    fold_left (fun nodes p => removeAttributeAt nodes p name)
      (cons (length pre) <$> (if hasAttribute attrs name then [[]] else []))
      (pre ++ Element tag attrs value children :: post)
    = pre ++ Element tag (removeAttribute attrs name) value children :: post).
  { destruct (hasAttribute attrs name) eqn:Hhas; simpl.
    - replace (length pre) with (length pre + 0) at 1 by lia.
      by rewrite alter_app_r.
    - by rewrite removeAttribute_absent. }
  rewrite Hself.
  fold (remove_each name
          (cons (length pre) <$> select_children (select_attr name) 0 children)
          (pre ++ Element tag (removeAttribute attrs name) value children :: post)).
  rewrite remove_each_below.
  - f_equal. f_equal. f_equal. apply (remove_each_children name children IH []).
  - apply Forall_forall. intros q Hq.
    apply list_elem_of_In, select_children_head in Hq as (j & q' & -> & _). done.
Qed.

(** Once every selected element has lost the attribute, no element of the
    tree has it. *)
Lemma remove_each_selected name nodes :
  remove_each name (querySelectorAll_attr name nodes) nodes
  = without_attr name <$> nodes.
Proof.
  apply (remove_each_children name nodes) with (pre := []).
  apply Forall_forall. intros n _ pre post. apply remove_each_node.
Qed.

End DomFacts.
(** ** JSON.parse and Object.entries at work *)

Module JsonFacts.
Import Json.

Example parse_event_map :
  JSON_parse (dq "{'click':'counter:increment'}")
  = Some (JObject [("click", JString "counter:increment")]).
Proof. reflexivity. Qed.

Example parse_nested :
  JSON_parse (dq " { 'a' : [1, -2.5e+3, true, null, {}] , 'b':'x' } ")
  = Some (JObject
            [ ("a", JArray [JNumber "1"; JNumber "-2.5e+3"; JBool true; JNull; JObject []]);
              ("b", JString "x") ]).
Proof. reflexivity. Qed.

Example parse_rejects :
  JSON_parse "{click:increment}" = None
  /\ JSON_parse "{'click':'increment'}" = None
  /\ JSON_parse (dq "{'click':'increment',}") = None
  /\ JSON_parse "" = None
  /\ JSON_parse "01" = None
  /\ JSON_parse "[1,2] x" = None.
Proof. repeat split; reflexivity. Qed.

Example entries_order :
  (JSON_parse (dq "{'click':'a','10':'b','2':'c','click':'d'}") ≫= Object_entries)
  = Some [("2", JString "c"); ("10", JString "b"); ("click", JString "d")].
Proof. reflexivity. Qed.

Example entries_of_null : (JSON_parse "null" ≫= Object_entries) = None.
Proof. reflexivity. Qed.

(** A number names the property its value is written as, whatever the
    token looked like. *)
Example number_keys :
  to_property_key <$> [ JNumber "1.50"; JNumber "100e-2"; JNumber "-0"; JNumber "1e21";
                        JNumber "0.0000001"; JNumber "9007199254740993";
                        JNumber "1e400"; JNumber "5e-324";
                        JArray [JNumber "1.0"; JNull; JString "a"; JBool true] ]
  = [ "1.5"; "1"; "0"; "1e+21"; "1e-7"; "9007199254740992"; "Infinity"; "5e-324";
      "1,,a,true" ].
Proof. vm_compute. reflexivity. Qed.

(** The entries of a string are its code units: U+00E9 is one, U+1F600 is
    two; and the two surrogates written as escapes are that code point. *)
Example entries_of_string :
  let e_acute := string_of_list_ascii (ascii_of_nat <$> [195; 169]) in
  let face := string_of_list_ascii (ascii_of_nat <$> [240; 159; 152; 128]) in
  let high := string_of_list_ascii (ascii_of_nat <$> [237; 160; 189]) in
  let low := string_of_list_ascii (ascii_of_nat <$> [237; 184; 128]) in
  Object_entries (JString ("a" +:+ e_acute +:+ face))
  = Some [("0", JString "a"); ("1", JString e_acute); ("2", JString high);
          ("3", JString low)]
  /\ JSON_parse (dq "'\ud83d\ude00'") = Some (JString face)
  /\ JSON_parse (dq "'\ud83d'") = Some (JString high)
  /\ JSON_parse (dq "'\u00e9'") = Some (JString e_acute).
Proof. vm_compute. done. Qed.

End JsonFacts.
(** ** lib/diff.js *)

Module DiffProofs.
Import Dom DomFacts Diff.

(** *** The host's reactions *)

Lemma input_type_get attrs attrs' :
  getAttribute attrs "type" = getAttribute attrs' "type" ->
  input_type attrs = input_type attrs'.
Proof. unfold input_type. by intros ->. Qed.

Lemma retype_same old attrs :
  input_type (el_attrs old) = input_type attrs -> retype old attrs = with_attrs old attrs.
Proof. intros H. unfold retype. by rewrite H, String.eqb_refl. Qed.

Lemma setAttribute_same attrs n v :
  getAttribute attrs n = Some v -> setAttribute attrs n v = attrs.
Proof.
  induction attrs as [|[m w] attrs IH]; simpl; [done|].
  destruct (String.eqb m n) eqn:E.
  - intros [= ->]. done.
  - intros H. by rewrite IH.
Qed.


Lemma plain_typed T el l : is_input el = false -> typed T el l.
Proof. intros Hi H. by rewrite Hi in H. Qed.

Lemma typed_desired el newAttrs :
  unique_names newAttrs -> typed (input_type newAttrs) el newAttrs.
Proof.
  intros Hu _ v Hin. apply (In_get_unique _ _ _ Hu) in Hin.
  apply input_type_get. simpl. by rewrite Hin.
Qed.

Lemma typed_tail T el el' a l :
  el_tag el' = el_tag el -> typed T el (a :: l) -> typed T el' l.
Proof.
  intros Htag Ht Hi v Hin. apply Ht; [|by right].
  unfold is_input in *. by rewrite <- Htag.
Qed.

Lemma calm_with_attrs T el attrs :
  calm T el -> (is_input el = true -> input_type attrs = T) -> calm T (with_attrs el attrs).
Proof. intros [Hl _] Hi. by split. Qed.

Lemma el_removeAttribute_calm T el n :
  calm T el -> (is_input el = true -> n = "type" -> T = "text") ->
  el_removeAttribute el n = with_attrs el (removeAttribute (el_attrs el) n).
Proof.
  intros [_ Hin] Ht. unfold el_removeAttribute.
  destruct (is_input el) eqn:Ei; [|done]. simpl.
  destruct (String.eqb n "type") eqn:En; [|done].
  apply String.eqb_eq in En. subst n. apply retype_same.
  rewrite (Hin eq_refl), (Ht eq_refl eq_refl).
  unfold input_type. by rewrite get_remove_same.
Qed.

Lemma el_setAttribute_calm T el n v :
  calm T el -> (is_input el = true -> n = "type" -> input_type [("type", v)] = T) ->
  el_setAttribute el n v = with_attrs el (setAttribute (el_attrs el) n v).
Proof.
  intros [_ Hin] Ht. unfold el_setAttribute.
  destruct (is_input el) eqn:Ei; [|done]. simpl.
  destruct (String.eqb n "type") eqn:En; [|done].
  apply String.eqb_eq in En. subst n. apply retype_same.
  rewrite (Hin eq_refl), <- (Ht eq_refl eq_refl).
  apply input_type_get. by rewrite get_set_same.
Qed.

(** Assigning the value that the attribute has just been given leaves the
    attribute list of such an element as it is. *)
Lemma set_value_calm T el v :
  calm T el -> getAttribute (el_attrs el) "value" = Some v ->
  el_attrs (set_value el v) = el_attrs el
  /\ el_tag (set_value el v) = el_tag el.
Proof.
  intros [Hl _] Hget. unfold set_value. rewrite Hl.
  destruct (is_input el); [|done].
  destruct (value_mode _); simpl; try done; by rewrite setAttribute_same.
Qed.

(** *** The attribute loops *)

(** One step of the first loop on a calm element. *)
Lemma remove_stale_calm newAttrs el a :
  calm (input_type newAttrs) el ->
  remove_stale newAttrs el a
  = (if hasAttribute newAttrs (fst a) then el
     else with_attrs el (removeAttribute (el_attrs el) (fst a)))
  /\ calm (input_type newAttrs) (remove_stale newAttrs el a).
Proof.
  intros Hc. unfold remove_stale.
  destruct (hasAttribute newAttrs (fst a)) eqn:Hhas; simpl; [done|].
  assert (Htext : fst a = "type" -> input_type newAttrs = "text").
  { intros E. rewrite E in Hhas. unfold hasAttribute in Hhas. unfold input_type.
    by destruct (getAttribute newAttrs "type"). }
  rewrite (el_removeAttribute_calm (input_type newAttrs)) by auto.
  split; [done|]. apply calm_with_attrs; [done|]. intros Hi.
  destruct (decide (fst a = "type")) as [E|E].
  - rewrite (Htext E), E. unfold input_type. by rewrite get_remove_same.
  - destruct Hc as [_ Hc]. rewrite <- (Hc Hi). apply input_type_get.
    by apply get_remove_other.
Qed.

Lemma remove_stale_fold_calm newAttrs l el :
  calm (input_type newAttrs) el ->
  calm (input_type newAttrs) (fold_left (remove_stale newAttrs) l el).
Proof.
  revert el. induction l as [|a l IH]; intros el Hc; simpl; [done|].
  apply IH. by apply remove_stale_calm.
Qed.

Lemma remove_stale_tag newAttrs l el :
  calm (input_type newAttrs) el ->
  el_tag (fold_left (remove_stale newAttrs) l el) = el_tag el.
Proof.
  revert el. induction l as [|a l IH]; intros el Hc; simpl; [done|].
  destruct (remove_stale_calm newAttrs el a Hc) as [Heq Hc'].
  rewrite IH by done. rewrite Heq. by destruct (hasAttribute _ _).
Qed.

Lemma remove_stale_value newAttrs l el :
  calm (input_type newAttrs) el ->
  el_value (fold_left (remove_stale newAttrs) l el) = el_value el.
Proof.
  revert el. induction l as [|a l IH]; intros el Hc; simpl; [done|].
  destruct (remove_stale_calm newAttrs el a Hc) as [Heq Hc'].
  rewrite IH by done. rewrite Heq. by destruct (hasAttribute _ _).
Qed.

Lemma remove_stale_kept newAttrs l el name :
  calm (input_type newAttrs) el ->
  hasAttribute newAttrs name = true ->
  getAttribute (el_attrs (fold_left (remove_stale newAttrs) l el)) name
  = getAttribute (el_attrs el) name.
Proof.
  intros Hc Hhas. revert el Hc. induction l as [|[n v] l IH]; intros el Hc; simpl; [done|].
  destruct (remove_stale_calm newAttrs el (n, v) Hc) as [Heq Hc'].
  rewrite IH by done. rewrite Heq. simpl.
  destruct (hasAttribute newAttrs n) eqn:E; simpl; [done|].
  apply get_remove_other. intros ->. congruence.
Qed.

Lemma remove_stale_absent newAttrs l el name :
  calm (input_type newAttrs) el ->
  getAttribute (el_attrs el) name = None ->
  getAttribute (el_attrs (fold_left (remove_stale newAttrs) l el)) name = None.
Proof.
  revert el. induction l as [|[n v] l IH]; intros el Hc Hnone; simpl; [done|].
  destruct (remove_stale_calm newAttrs el (n, v) Hc) as [Heq Hc'].
  apply IH; [done|]. rewrite Heq. simpl.
  destruct (hasAttribute newAttrs n); simpl; [done|].
  destruct (decide (n = name)) as [->|Hne].
  - apply get_remove_same.
  - by rewrite get_remove_other.
Qed.

Lemma remove_stale_removed newAttrs l el name :
  calm (input_type newAttrs) el ->
  hasAttribute newAttrs name = false ->
  In name (fst <$> l) ->
  getAttribute (el_attrs (fold_left (remove_stale newAttrs) l el)) name = None.
Proof.
  intros Hc Hhas. revert el Hc. induction l as [|[n v] l IH]; intros el Hc; simpl; [done|].
  destruct (remove_stale_calm newAttrs el (n, v) Hc) as [Heq Hc'].
  intros [->|Hin]; [|by apply IH].
  apply remove_stale_absent; [done|]. rewrite Heq. simpl. rewrite Hhas.
  apply get_remove_same.
Qed.

(** One step of the second loop on a calm element. *)
Lemma update_changed_calm T el n v :
  calm T el -> (is_input el = true -> n = "type" -> input_type [("type", v)] = T) ->
  el_attrs (update_changed el (n, v))
  = (if opt_string_eqb (getAttribute (el_attrs el) n) (Some v) then el_attrs el
     else setAttribute (el_attrs el) n v)
  /\ el_tag (update_changed el (n, v)) = el_tag el
  /\ (n <> "value" -> el_value (update_changed el (n, v)) = el_value el)
  /\ calm T (update_changed el (n, v)).
Proof.
  intros Hc Ht. unfold update_changed.
  destruct (opt_string_eqb _ _) eqn:E; simpl; [done|].
  rewrite (el_setAttribute_calm T) by done.
  set (el' := with_attrs el (setAttribute (el_attrs el) n v)).
  assert (Hc' : calm T el').
  { apply calm_with_attrs; [done|]. intros Hi.
    destruct (decide (n = "type")) as [->|Hne].
    - rewrite <- (Ht Hi eq_refl). apply input_type_get. by rewrite get_set_same.
    - destruct Hc as [_ Hc]. rewrite <- (Hc Hi). apply input_type_get.
      by apply get_set_other. }
  destruct (String.eqb n "value") eqn:Ev; simpl; [|by apply String.eqb_neq in Ev].
  apply String.eqb_eq in Ev. subst n.
  destruct (has_value el' && differs (get_value el') v); [|done].
  destruct (set_value_calm T el' v Hc') as [Ha Htag]; [apply get_set_same|].
  rewrite Ha, Htag. repeat split; try done.
  - unfold is_li. rewrite Htag. apply Hc'.
  - intros Hi. destruct Hc' as [_ Hc']. rewrite Ha. apply Hc'.
    unfold is_input in *. by rewrite <- Htag.
Qed.

Lemma update_changed_fold_calm T l el :
  calm T el -> typed T el l -> calm T (fold_left update_changed l el).
Proof.
  revert el. induction l as [|[n v] l IH]; intros el Hc Ht; cbn [fold_left]; [done|].
  destruct (update_changed_calm T el n v Hc) as (_ & Htag & _ & Hc').
  { intros Hi ->. apply Ht; [done|by left]. }
  apply IH; [done|]. by apply (typed_tail _ el _ (n, v)).
Qed.

Lemma update_changed_tag T l el :
  calm T el -> typed T el l -> el_tag (fold_left update_changed l el) = el_tag el.
Proof.
  revert el. induction l as [|[n v] l IH]; intros el Hc Ht; cbn [fold_left]; [done|].
  destruct (update_changed_calm T el n v Hc) as (_ & Htag & _ & Hc').
  { intros Hi ->. apply Ht; [done|by left]. }
  rewrite IH; [done|done|]. by apply (typed_tail _ el _ (n, v)).
Qed.

Lemma update_changed_absent T l el name :
  calm T el -> typed T el l ->
  ~ In name (fst <$> l) ->
  getAttribute (el_attrs (fold_left update_changed l el)) name
  = getAttribute (el_attrs el) name.
Proof.
  revert el. induction l as [|[n v] l IH]; intros el Hc Ht Hnotin; cbn [fold_left]; [done|].
  destruct (update_changed_calm T el n v Hc) as (Ha & Htag & _ & Hc').
  { intros Hi ->. apply Ht; [done|by left]. }
  simpl in Hnotin. rewrite IH; [|done|by apply (typed_tail _ el _ (n, v))|tauto].
  rewrite Ha. destruct (opt_string_eqb _ _); [done|].
  apply get_set_other. tauto.
Qed.

Lemma update_changed_same T el n v :
  calm T el -> (is_input el = true -> n = "type" -> input_type [("type", v)] = T) ->
  getAttribute (el_attrs (update_changed el (n, v))) n = Some v.
Proof.
  intros Hc Ht. destruct (update_changed_calm T el n v Hc Ht) as (Ha & _).
  rewrite Ha. destruct (opt_string_eqb _ _) eqn:E.
  - by apply opt_string_eqb_eq in E.
  - apply get_set_same.
Qed.

Lemma update_changed_present T l el name value :
  calm T el -> typed T el l ->
  unique_names l -> In (name, value) l ->
  getAttribute (el_attrs (fold_left update_changed l el)) name = Some value.
Proof.
  unfold unique_names.
  revert el. induction l as [|[n v] l IH]; intros el Hc Ht Hnd; cbn [fold_left]; [done|].
  apply NoDup_cons in Hnd as [Hnotin Hnd].
  assert (Hstep : is_input el = true -> n = "type" -> input_type [("type", v)] = T).
  { intros Hi ->. apply Ht; [done|by left]. }
  destruct (update_changed_calm T el n v Hc Hstep) as (_ & Htag & _ & Hc').
  pose proof (typed_tail _ el _ (n, v) l Htag Ht) as Ht'.
  intros [Heq|Hin]; [|by apply IH].
  injection Heq as -> ->.
  rewrite (update_changed_absent T) by (try done; by rewrite <- list_elem_of_In).
  by apply (update_changed_same T).
Qed.

(** After [syncAttrs] a calm element has the desired attributes. *)
Lemma syncAttrs_attrs oldEl newAttrs name :
  calm (input_type newAttrs) oldEl ->
  unique_names newAttrs ->
  getAttribute (el_attrs (syncAttrs oldEl newAttrs)) name = getAttribute newAttrs name.
Proof.
  intros Hc Hu. unfold syncAttrs.
  pose proof (remove_stale_fold_calm newAttrs (el_attrs oldEl) oldEl Hc) as Hc0.
  set (el0 := fold_left (remove_stale newAttrs) (el_attrs oldEl) oldEl) in *.
  pose proof (typed_desired el0 newAttrs Hu) as Ht.
  destruct (getAttribute newAttrs name) as [v|] eqn:Hnew.
  - apply (update_changed_present (input_type newAttrs)); try done. by apply get_In.
  - rewrite (update_changed_absent (input_type newAttrs))
      by (try done; by apply get_None_not_In).
    destruct (getAttribute (el_attrs oldEl) name) as [w|] eqn:Hold.
    + apply remove_stale_removed; [done| |].
      * unfold hasAttribute. by rewrite Hnew.
      * apply get_In in Hold. by apply (in_map fst) in Hold.
    + by apply remove_stale_absent.
Qed.

Lemma syncAttrs_tag oldEl newAttrs :
  calm (input_type newAttrs) oldEl -> unique_names newAttrs ->
  el_tag (syncAttrs oldEl newAttrs) = el_tag oldEl.
Proof.
  intros Hc Hu. unfold syncAttrs.
  rewrite (update_changed_tag (input_type newAttrs)).
  - by apply remove_stale_tag.
  - by apply remove_stale_fold_calm.
  - by apply typed_desired.
Qed.

(** *** The index loop and the positional walk agree *)

(** The slots once the loop has run through the indices below [k]. *)
Definition slots_upto (oldCh newCh : list Node) (k : nat) : list (option Node) :=
  imap (fun i o =>
          if Nat.ltb i k then
            match newCh !! i with Some n => Some (patch o n) | None => None end
          else Some o) oldCh.

Lemma reconcile_loop_prefix oldCh newCh k :
  fold_left (reconcile_step oldCh newCh) (seq 0 k)
    {| slots := Some <$> oldCh; appended := [] |}
  = {| slots := slots_upto oldCh newCh k;
       appended := cloneNode true <$> take (k - length oldCh) (drop (length oldCh) newCh) |}.
Proof.
  induction k as [|k IH].
  - simpl. f_equal. unfold slots_upto. apply list_eq. intros i.
    rewrite list_lookup_imap, list_lookup_fmap. by destruct (oldCh !! i).
  - rewrite seq_S, fold_left_app, IH. simpl. unfold reconcile_step. simpl.
    destruct (Nat.leb (length oldCh) k) eqn:Hold.
    + apply Nat.leb_le in Hold.
      assert (Hslots : slots_upto oldCh newCh (S k) = slots_upto oldCh newCh k).
      { unfold slots_upto. apply imap_ext. intros i o Hi.
        apply lookup_lt_Some in Hi.
        replace (Nat.ltb i (S k)) with true by (symmetry; apply Nat.ltb_lt; lia).
        replace (Nat.ltb i k) with true by (symmetry; apply Nat.ltb_lt; lia).
        done. }
      replace (S k - length oldCh) with (S (k - length oldCh)) by lia.
      destruct (newCh !! k) as [n|] eqn:Hnew.
      * rewrite Hslots. f_equal.
        rewrite (take_S_r _ _ n), fmap_app; [done|].
        rewrite lookup_drop. rewrite <- Hnew. f_equal. lia.
      * rewrite Hslots. f_equal. f_equal.
        apply lookup_ge_None in Hnew.
        rewrite !take_ge; [done| |]; rewrite length_drop; lia.
    + apply Nat.leb_gt in Hold.
      replace (S k - length oldCh) with 0 by lia.
      replace (k - length oldCh) with 0 by lia.
      destruct (lookup_lt_is_Some_2 oldCh k Hold) as [o Ho].
      destruct (Nat.leb (length newCh) k) eqn:Hnew.
      * apply Nat.leb_le in Hnew. f_equal.
        unfold slots_upto. apply list_eq. intros i.
        destruct (decide (i = k)) as [->|Hne].
        -- rewrite list_lookup_insert_eq by (rewrite length_imap; lia).
           rewrite list_lookup_imap, Ho. simpl.
           replace (Nat.ltb k (S k)) with true by (symmetry; apply Nat.ltb_lt; lia).
           by rewrite (proj2 (lookup_ge_None newCh k) Hnew).
        -- rewrite list_lookup_insert_ne by done.
           rewrite !list_lookup_imap. destruct (oldCh !! i) as [oi|]; [|done]. simpl.
           destruct (Nat.ltb i k) eqn:Hik.
           ++ apply Nat.ltb_lt in Hik.
              by replace (Nat.ltb i (S k)) with true by (symmetry; apply Nat.ltb_lt; lia).
           ++ apply Nat.ltb_ge in Hik.
              by replace (Nat.ltb i (S k)) with false by (symmetry; apply Nat.ltb_ge; lia).
      * apply Nat.leb_gt in Hnew.
        destruct (lookup_lt_is_Some_2 newCh k Hnew) as [n Hn].
        rewrite Ho, Hn. f_equal.
        unfold slots_upto. apply list_eq. intros i.
        destruct (decide (i = k)) as [->|Hne].
        -- rewrite list_lookup_insert_eq by (rewrite length_imap; lia).
           rewrite list_lookup_imap, Ho. simpl.
           replace (Nat.ltb k (S k)) with true by (symmetry; apply Nat.ltb_lt; lia).
           by rewrite Hn.
        -- rewrite list_lookup_insert_ne by done.
           rewrite !list_lookup_imap. destruct (oldCh !! i) as [oi|]; [|done]. simpl.
           destruct (Nat.ltb i k) eqn:Hik.
           ++ apply Nat.ltb_lt in Hik.
              by replace (Nat.ltb i (S k)) with true by (symmetry; apply Nat.ltb_lt; lia).
           ++ apply Nat.ltb_ge in Hik.
              by replace (Nat.ltb i (S k)) with false by (symmetry; apply Nat.ltb_ge; lia).
Qed.

Lemma cloneNode_deep n : cloneNode true n = n.
Proof. by destruct n. Qed.

Lemma align_nil newCh : align patch [] newCh = cloneNode true <$> newCh.
Proof. induction newCh as [|n rest IH]; simpl; [done|]. by rewrite IH. Qed.

Lemma slots_done oldCh newCh :
  omap id (imap (fun i o =>
                   match newCh !! i with Some n => Some (patch o n) | None => None end)
             oldCh)
  ++ (cloneNode true <$> drop (length oldCh) newCh)
  = align patch oldCh newCh.
Proof.
  revert newCh. induction oldCh as [|o oldRest IH]; intros newCh.
  - simpl. by rewrite drop_0, align_nil.
  - rewrite imap_cons. destruct newCh as [|n newRest]; simpl.
    + specialize (IH []). simpl in IH. rewrite drop_nil in IH. exact IH.
    + f_equal. apply IH.
Qed.

(** [reconcileChildren], the loop over indices, computes the positional
    walk that [patch] recurses through. *)
Lemma reconcileChildren_align oldCh newCh :
  reconcileChildren oldCh newCh = align patch oldCh newCh.
Proof.
  unfold reconcileChildren. rewrite reconcile_loop_prefix. unfold childNodes. simpl.
  rewrite <- slots_done. f_equal.
  - f_equal. unfold slots_upto. apply imap_ext. intros i o Hi.
    apply lookup_lt_Some in Hi.
    by replace (Nat.ltb i _) with true by (symmetry; apply Nat.ltb_lt; lia).
  - f_equal. apply take_ge. rewrite length_drop. lia.
Qed.

(** The last branch of [patch] as the source writes it: [syncAttrs], then
    [reconcileChildren] on the two elements. *)
Lemma patch_same_tag tag attrs value oldCh newAttrs newValue newCh :
  patch (Element tag attrs value oldCh) (Element tag newAttrs newValue newCh)
  = let el := syncAttrs {| el_tag := tag; el_attrs := attrs; el_value := value |}
                newAttrs in
    Element tag (el_attrs el) (el_value el) (reconcileChildren oldCh newCh).
Proof.
  rewrite reconcileChildren_align. simpl. by rewrite String.eqb_refl.
Qed.

(** *** Convergence *)





(** The live children after reconciling towards the shorter list: the
    paragraph was patched in place and keeps the order of the attributes it
    had, the text node was replaced by the element, the comment by the
    text, and the list was removed. *)
Example reconcile_shorter :
  reconcileChildren live_example shorter_example
  = [ Element "P" [("id", "y"); ("title", "t")] NoValue
        [Text "ho"; Element "B" [] NoValue [Text "!"]];
      Element "DIV" [] NoValue [];
      Text "z" ].
Proof. reflexivity. Qed.

(** A comment in the desired tree is outside the claim: the live comment
    stays as it is. *)
Example reconcile_comment :
  reconcileChildren [Other CommentNode "old"] [Other CommentNode "new"]
  = [Other CommentNode "old"].
Proof. reflexivity. Qed.

(** Attribute order is the live element's. *)
Example reconcile_attribute_order :
  reconcileChildren [Element "A" [("x", "1"); ("y", "2")] NoValue []]
    [Element "A" [("y", "2"); ("x", "3")] NoValue []]
  = [Element "A" [("x", "3"); ("y", "2")] NoValue []].
Proof. reflexivity. Qed.

(** *** The value property *)

Lemma get_value_ext el el' :
  el_tag el = el_tag el' ->
  getAttribute (el_attrs el) "value" = getAttribute (el_attrs el') "value" ->
  input_type (el_attrs el) = input_type (el_attrs el') ->
  el_value el = el_value el' ->
  get_value el = get_value el'.
Proof.
  intros Htag Hattr Htype Hvalue. unfold get_value, is_input, is_li.
  by rewrite Htag, Hattr, Htype, Hvalue.
Qed.

Lemma update_changed_value T l el :
  calm T el -> typed T el l ->
  (forall v, In ("value", v) l -> getAttribute (el_attrs el) "value" = Some v) ->
  el_value (fold_left update_changed l el) = el_value el.
Proof.
  revert el. induction l as [|[n v] l IH]; intros el Hc Ht Hval; cbn [fold_left]; [done|].
  destruct (String.eqb n "value") eqn:E.
  - apply String.eqb_eq in E. subst n.
    assert (Hsame : update_changed el ("value", v) = el).
    { unfold update_changed. rewrite (Hval v) by (by left). simpl.
      by rewrite String.eqb_refl. }
    rewrite Hsame. apply IH; [done| |].
    + by apply (typed_tail _ el _ ("value", v)).
    + intros w Hw. apply Hval. by right.
  - apply String.eqb_neq in E.
    destruct (update_changed_calm T el n v Hc) as (Ha & Htag & Hv & Hc').
    { intros Hi ->. apply Ht; [done|by left]. }
    rewrite IH; [by apply Hv|done| |].
    + by apply (typed_tail _ el _ (n, v)).
    + intros w Hw. rewrite Ha. destruct (opt_string_eqb _ _).
      * apply Hval. by right.
      * rewrite get_set_other by done. apply Hval. by right.
Qed.

Lemma syncAttrs_value oldEl newAttrs :
  calm (input_type newAttrs) oldEl ->
  unique_names newAttrs ->
  getAttribute (el_attrs oldEl) "value" = getAttribute newAttrs "value" ->
  el_value (syncAttrs oldEl newAttrs) = el_value oldEl.
Proof.
  intros Hc Hu Hsame. unfold syncAttrs.
  rewrite (update_changed_value (input_type newAttrs)).
  - by apply remove_stale_value.
  - by apply remove_stale_fold_calm.
  - by apply typed_desired.
  - intros v Hin. apply (In_get_unique _ _ _ Hu) in Hin.
    rewrite remove_stale_kept; [congruence|done|].
    unfold hasAttribute. by rewrite Hin.
Qed.

Lemma keeps_sanitizing_type attrs newAttrs :
  keeps_sanitizing attrs newAttrs = true -> input_type attrs = input_type newAttrs.
Proof.
  unfold keeps_sanitizing. intros H. apply andb_true_iff in H as [H _].
  by apply String.eqb_eq.
Qed.

(** C8. Cursor-preserving value update: on a live [input] whose declared
    [value] attribute equals the desired one, [patch] never assigns the
    value property: what the element keeps for it is what it kept, whatever
    that is (a value the user typed, distinct from the attribute,
    survives), and reading [el.value] gives what it gave before.  This
    holds when the desired element leaves the input in the state of [type]
    it is in and, on a range, an e-mail field or a colour well, has the
    attributes by which the host sets the value of such an input anew as
    the live one has them; every other attribute may change. *)
Theorem patch_keeps_value_property
    (attrs : Attrs) (value : ValueProp) (oldCh : list Node)
    (newAttrs : Attrs) (newValue : ValueProp) (newCh : list Node) :
  unique_names newAttrs ->
  getAttribute attrs "value" = getAttribute newAttrs "value" ->
  keeps_sanitizing attrs newAttrs = true ->
  exists attrs' children',
    patch (Element "INPUT" attrs value oldCh) (Element "INPUT" newAttrs newValue newCh)
    = Element "INPUT" attrs' value children'
    /\ input_type attrs' = input_type attrs
    /\ get_value {| el_tag := "INPUT"; el_attrs := attrs'; el_value := value |}
       = get_value {| el_tag := "INPUT"; el_attrs := attrs; el_value := value |}.
Proof.
  intros Hu Hsame Hkeeps. apply keeps_sanitizing_type in Hkeeps.
  rewrite patch_same_tag. simpl.
  set (old := {| el_tag := "INPUT"; el_attrs := attrs; el_value := value |}).
  assert (Hc : calm (input_type newAttrs) old) by (by split).
  set (el := syncAttrs old newAttrs).
  assert (Htype : input_type (el_attrs el) = input_type attrs).
  { rewrite Hkeeps. apply input_type_get. by apply syncAttrs_attrs. }
  exists (el_attrs el), (reconcileChildren oldCh newCh). split; [|split; [done|]].
  - f_equal. by apply (syncAttrs_value old).
  - apply get_value_ext; try done. simpl.
    unfold el. by rewrite syncAttrs_attrs.
Qed.

Lemma patch_keeps_value_property_witness :
  exists attrs' children',
    patch typed_input desired_input = Element "INPUT" attrs' (Dirty "abcd") children'
    /\ input_type attrs' = input_type [("type", "text"); ("value", "abc")]
    /\ get_value {| el_tag := "INPUT"; el_attrs := attrs'; el_value := Dirty "abcd" |}
       = get_value {| el_tag := "INPUT"; el_attrs := [("type", "text"); ("value", "abc")];
                      el_value := Dirty "abcd" |}.
Proof.
  apply (patch_keeps_value_property [("type", "text"); ("value", "abc")]
           (Dirty "abcd") [] [("value", "abc"); ("class", "wide"); ("type", "text")]
           Pristine []).
  - apply (bool_decide_unpack _). vm_compute. exact I.
  - reflexivity.
  - reflexivity.
Defined.

(** C8 fails as stated: the live input declares the value [abc] and holds
    the typed value [abcd]; the desired input declares the same value and
    the type [hidden].  [patch] writes the type, on which the host copies
    the typed value to the attribute; [patch] then writes the declared
    value over it, and reading [el.value] gives [abc]. *)
Lemma patch_retyped_input_counterexample :
  getAttribute [("type", "text"); ("value", "abc")] "value"
  = getAttribute [("type", "hidden"); ("value", "abc")] "value"
  /\ get_value {| el_tag := "INPUT"; el_attrs := [("type", "text"); ("value", "abc")];
                  el_value := Dirty "abcd" |} = Str "abcd"
  /\ patch (Element "INPUT" [("type", "text"); ("value", "abc")] (Dirty "abcd") [])
       (Element "INPUT" [("type", "hidden"); ("value", "abc")] Pristine [])
     = Element "INPUT" [("type", "hidden"); ("value", "abc")] (Dirty "abcd") []
  /\ get_value {| el_tag := "INPUT"; el_attrs := [("type", "hidden"); ("value", "abc")];
                  el_value := Dirty "abcd" |} = Str "abc".
Proof. vm_compute. done. Qed.

Example patch_typed_input :
  patch typed_input desired_input
  = Element "INPUT" [("type", "text"); ("value", "abc"); ("class", "wide")]
      (Dirty "abcd") [].
Proof. reflexivity. Qed.

(** When the declared value changes, the property is written. *)
Example patch_changed_value :
  patch typed_input (Element "INPUT" [("type", "text"); ("value", "xyz")] Pristine [])
  = Element "INPUT" [("type", "text"); ("value", "xyz")] (Dirty "xyz") [].
Proof. reflexivity. Qed.

(** The host's reaction to a new type in both directions: leaving the
    text field, the typed value goes to the attribute, where the second
    loop meets it; entering it, the value is the attribute's again. *)
Example patch_to_hidden :
  patch typed_input (Element "INPUT" [("value", "abc"); ("type", "hidden")] Pristine [])
  = Element "INPUT" [("type", "hidden"); ("value", "abcd")] (Dirty "abcd") [].
Proof. reflexivity. Qed.

Example patch_from_hidden :
  patch hidden_input typed_input
  = Element "INPUT" [("type", "text"); ("value", "abc")] Pristine [].
Proof. reflexivity. Qed.

(** *** List items *)

(** C1. The code at an input on which the live tree does not become the
    desired one: the live list item has no [value] attribute and the
    desired one has the attribute [abc].  [syncAttrs] sets the attribute
    and then, since a list item has a [value] property, which is a number
    and so differs from every string, assigns [abc] to the property; the
    host turns that into the integer [0] and writes it to the attribute.
    The live item ends with the attribute [0]. *)
Theorem reconcileChildren_list_item_value :
  reconcileChildren [list_item] [valued_list_item]
  = [Element "LI" [("value", "0")] NoValue [Text "first"]]
  /\ getAttributeAt (reconcileChildren [list_item] [valued_list_item]) [0] "value"
     = Some "0"
  /\ getAttributeAt [valued_list_item] [0] "value" = Some "abc".
Proof. vm_compute. done. Qed.

(** A number that is not written as the host writes it is rewritten. *)
Example reconcile_list_item_number :
  reconcileChildren [list_item] [Element "LI" [("value", "07")] NoValue [Text "first"]]
  = [Element "LI" [("value", "7")] NoValue [Text "first"]].
Proof. reflexivity. Qed.

End DiffProofs.
(** ** lib/act.js *)

Module ActProofs.
Import Dom DomFacts Json Act ActAux.

#[local] Arguments cleanupListeners : simpl never.
#[local] Arguments rerender : simpl never.
#[local] Arguments bindEvents : simpl never.

(** *** Frames *)

Lemma same_core_refl st : same_core st st.
Proof. by constructor. Qed.

Lemma same_core_trans st1 st2 st3 :
  same_core st1 st2 -> same_core st2 st3 -> same_core st1 st3.
Proof. intros [] []. constructor; congruence. Qed.

Lemma bound_refl st : bound st st [].
Proof.
  constructor; [apply same_core_refl|done|by rewrite app_nil_r|].
  intros l. rewrite elem_of_nil. tauto.
Qed.

Lemma bound_trans st1 st2 st3 ls1 ls2 :
  bound st1 st2 ls1 -> bound st2 st3 ls2 -> bound st1 st3 (ls1 ++ ls2).
Proof.
  intros [C1 R1 A1 T1] [C2 R2 A2 T2]. constructor.
  - by apply same_core_trans with st2.
  - congruence.
  - by rewrite A2, A1, app_assoc.
  - intros l. rewrite T2, T1, elem_of_app. tauto.
Qed.

(** *** bindEvents *)

Lemma bind_entry_bound p entry st :
  bound st (bind_entry p entry st) (resolve (handlers st) (renders st, p) [entry])
  /\ container (bind_entry p entry st) = container st.
Proof.
  destruct entry as [ev target]. unfold bind_entry, resolve. simpl.
  destruct (handlers st !! to_property_key target) as [h|]; simpl.
  - split; [|unfold addEventListener; by case_bool_decide].
    constructor.
    + unfold addEventListener. by case_bool_decide.
    + unfold addEventListener. by case_bool_decide.
    + unfold addEventListener. by case_bool_decide.
    + intros l. unfold addEventListener. case_bool_decide as Hin; simpl.
      * rewrite list_elem_of_singleton. split; [tauto|]. intros [? | ->]; done.
      * rewrite elem_of_app, list_elem_of_singleton. tauto.
  - split; [|done]. constructor; try done.
    + by rewrite app_nil_r.
    + intros l. rewrite elem_of_nil. tauto.
Qed.

Lemma resolve_cons hs ref entry entries :
  resolve hs ref (entry :: entries) = resolve hs ref [entry] ++ resolve hs ref entries.
Proof. unfold resolve. simpl. by destruct (hs !! _). Qed.

Lemma bind_entries_bound p entries st :
  bound st (fold_left (fun st entry => bind_entry p entry st) entries st)
    (resolve (handlers st) (renders st, p) entries)
  /\ container (fold_left (fun st entry => bind_entry p entry st) entries st)
     = container st.
Proof.
  revert st. induction entries as [|entry entries IH]; intros st; cbn [fold_left].
  - split; [apply bound_refl|done].
  - destruct (bind_entry_bound p entry st) as [B1 C1].
    destruct (IH (bind_entry p entry st)) as [B2 C2].
    rewrite (core_handlers _ _ (bound_core _ _ _ B1)), (bound_renders _ _ _ B1) in B2.
    split; [|congruence].
    rewrite resolve_cons. by apply bound_trans with (bind_entry p entry st).
Qed.

Lemma bind_element_returned p st st' :
  bind_element p st = (st', Returned tt) ->
  exists entries,
    event_map (container st) p = Some entries
    /\ bound st st' (resolve (handlers st) (renders st, p) entries)
    /\ container st' = removeAttributeAt (container st) p "data-on".
Proof.
  unfold bind_element, event_map, bind, gets, parse_attribute, entries_of, modify.
  destruct (JSON_parse _) as [v|]; simpl; [|done].
  destruct (Object_entries v) as [entries|]; simpl; [|done].
  intros [= <-]. exists entries. split; [done|].
  destruct (bind_entries_bound p entries st) as [B C].
  split; [|simpl; by rewrite C].
  destruct B as [[] ? ? ?]. constructor; [constructor|..]; done.
Qed.

Lemma bind_element_threw p st st' e :
  bind_element p st = (st', Threw e) ->
  st' = st /\ event_map (container st) p = None.
Proof.
  unfold bind_element, event_map, bind, gets, parse_attribute, entries_of, modify.
  destruct (JSON_parse _) as [v|]; simpl; [|by intros [= <- _]].
  destruct (Object_entries v) as [entries|]; simpl; [done|by intros [= <- _]].
Qed.

Lemma bind_element_syntax_error p st :
  JSON_parse (default "null" (getAttributeAt (container st) p "data-on")) = None ->
  bind_element p st = (st, Threw SyntaxError).
Proof.
  intros H.
  unfold bind_element, bind, gets, parse_attribute. simpl. by rewrite H.
Qed.

Lemma bind_element_total p st entries :
  event_map (container st) p = Some entries ->
  exists st', bind_element p st = (st', Returned tt).
Proof.
  unfold bind_element, event_map, bind, gets, parse_attribute, entries_of, modify.
  destruct (JSON_parse _) as [v|]; simpl; [|done].
  destruct (Object_entries v); simpl; [eauto|done].
Qed.

Lemma event_map_ext nodes nodes' p :
  getAttributeAt nodes p "data-on" = getAttributeAt nodes' p "data-on" ->
  event_map nodes p = event_map nodes' p.
Proof. unfold event_map. by intros ->. Qed.

Lemma resolve_el hs ref entries l : l ∈ resolve hs ref entries -> el l = ref.
Proof.
  unfold resolve. rewrite list_elem_of_omap. intros (entry & _ & H).
  destruct (hs !! _); [|done]. by injection H as <-.
Qed.

Lemma for_each_app {A} (f : A -> M unit) (xs ys : list A) st :
  for_each f (xs ++ ys) st = bind (for_each f xs) (fun _ => for_each f ys) st.
Proof.
  revert st. induction xs as [|x xs IH]; intros st; [done|].
  simpl. unfold bind. destruct (f x st) as [st1 [[]|e]]; [|done].
  rewrite IH. done.
Qed.

(** Whatever the outcome, [bindEvents] only attaches listeners to elements
    of the current render and takes [data-on] attributes off. *)
Lemma for_each_bind_any ps st st' out :
  for_each bind_element ps st = (st', out) ->
  (exists ls, bound st st' ls /\ forall l, l ∈ ls -> fst (el l) = renders st)
  /\ without_attr "data-on" <$> container st' = without_attr "data-on" <$> container st.
Proof.
  revert st. induction ps as [|p ps IH]; intros st; simpl.
  - intros [= <- <-]. split; [|done]. exists []. split; [apply bound_refl|].
    intros l Hl. by apply elem_of_nil in Hl.
  - unfold bind. destruct (bind_element p st) as [st1 [[]|e]] eqn:E.
    + intros Hrest. apply bind_element_returned in E as (entries & _ & B1 & C1).
      apply IH in Hrest as [(ls & B2 & Hls) Hc]. split.
      * eexists. split; [by eapply bound_trans|].
        intros l [Hl|Hl]%elem_of_app.
        -- apply resolve_el in Hl. by rewrite Hl.
        -- rewrite (Hls l Hl). apply (bound_renders _ _ _ B1).
      * by rewrite Hc, C1, without_attr_removeAt.
    + intros [= <- <-]. apply bind_element_threw in E as [-> _]. split; [|done].
      exists []. split; [apply bound_refl|].
      intros l Hl. by apply elem_of_nil in Hl.
Qed.

(** When [bindEvents] returns, it has attached what the tree declared. *)
Lemma for_each_bind_returned frag ps st st' :
  NoDup ps ->
  (forall p, p ∈ ps ->
     getAttributeAt (container st) p "data-on" = getAttributeAt frag p "data-on") ->
  for_each bind_element ps st = (st', Returned tt) ->
  bound st st' (flat_map (declared_at (handlers st) (renders st) frag) ps)
  /\ container st' = remove_each "data-on" ps (container st).
Proof.
  intros Hnd. revert st.
  induction Hnd as [|p ps Hnotin Hnd IH]; intros st Hread; simpl.
  - intros [= <-]. split; [apply bound_refl|done].
  - unfold bind. destruct (bind_element p st) as [st1 [[]|e]] eqn:E; [|done].
    intros Hrest. apply bind_element_returned in E as (entries & Hev & B1 & C1).
    apply IH in Hrest as [B2 C2].
    + rewrite (core_handlers _ _ (bound_core _ _ _ B1)), (bound_renders _ _ _ B1) in B2.
      split; [|by rewrite C2, C1].
      unfold declared_at at 1.
      rewrite <- (event_map_ext (container st) frag p), Hev
        by (apply Hread; left).
      by apply bound_trans with st1.
    + intros q Hq. rewrite C1, getAttributeAt_remove_other.
      * apply Hread. by right.
      * intros ->. done.
Qed.

Lemma for_each_bind_total frag ps st :
  NoDup ps ->
  (forall p, p ∈ ps ->
     getAttributeAt (container st) p "data-on" = getAttributeAt frag p "data-on") ->
  (forall p, p ∈ ps -> is_Some (event_map frag p)) ->
  exists st', for_each bind_element ps st = (st', Returned tt).
Proof.
  intros Hnd. revert st.
  induction Hnd as [|p ps Hnotin Hnd IH]; intros st Hread Hok; simpl; [by eexists|].
  destruct (Hok p) as [entries Hev]; [by left|].
  rewrite <- (event_map_ext (container st) frag p) in Hev by (apply Hread; left).
  destruct (bind_element_total _ _ _ Hev) as [st1 E].
  unfold bind. rewrite E.
  apply bind_element_returned in E as (_ & _ & _ & C1).
  apply IH.
  - intros q Hq. rewrite C1, getAttributeAt_remove_other.
    + apply Hread. by right.
    + intros ->. done.
  - intros q Hq. apply Hok. by right.
Qed.

(** *** cleanupListeners *)

Lemma remove_listeners_spec ls st :
  let st' := fold_left (fun st l => removeEventListener l st) ls st in
  same_core st st' /\ renders st' = renders st /\ container st' = container st
  /\ console st' = console st /\ activeListeners st' = activeListeners st
  /\ forall l, l ∈ attached st' <-> l ∈ attached st /\ l ∉ ls.
Proof.
  revert st. induction ls as [|x ls IH]; intros st; simpl.
  - split_and!; try done.
    intros l. rewrite elem_of_nil. tauto.
  - destruct (IH (removeEventListener x st)) as (C & R & K & L & A & T).
    destruct C. split_and!; try done.
    intros l. rewrite T. unfold removeEventListener. simpl.
    rewrite list_elem_of_In, filter_In, <- list_elem_of_In, not_elem_of_cons.
    rewrite negb_true_iff, bool_decide_eq_false. tauto.
Qed.

Lemma cleanupListeners_core st : same_core st (cleanupListeners st).
Proof.
  unfold cleanupListeners.
  destruct (remove_listeners_spec (activeListeners st) st) as ([] & _).
  by constructor.
Qed.

Lemma cleanupListeners_active st : activeListeners (cleanupListeners st) = [].
Proof. done. Qed.

Lemma cleanupListeners_attached st :
  (forall l, l ∈ attached st -> l ∈ activeListeners st) ->
  attached (cleanupListeners st) = [].
Proof.
  intros Hinv. unfold cleanupListeners. simpl.
  destruct (remove_listeners_spec (activeListeners st) st) as (_ & _ & _ & _ & _ & T).
  apply elem_of_nil_inv. intros l Hl. apply T in Hl as [Hl Hnot]. auto.
Qed.

Lemma cleanupListeners_other st :
  renders (cleanupListeners st) = renders st
  /\ container (cleanupListeners st) = container st
  /\ console (cleanupListeners st) = console st.
Proof.
  unfold cleanupListeners. simpl.
  destruct (remove_listeners_spec (activeListeners st) st) as (_ & R & K & L & _).
  done.
Qed.

(** *** rerender *)

Lemma bindEvents_unfold st :
  bindEvents st
  = for_each bind_element (querySelectorAll_attr "data-on" (container st)) st.
Proof. done. Qed.

Lemma rerender_unfold st fn :
  renderFn st = Some fn -> rerender st = bindEvents (staged fn st).
Proof. intros H. unfold rerender. by rewrite H. Qed.

Lemma rerender_unmounted st : renderFn st = None -> rerender st = (st, Returned tt).
Proof. intros H. unfold rerender. by rewrite H. Qed.

Lemma staged_core fn st : same_core st (staged fn st).
Proof. destruct (cleanupListeners_core st). by constructor. Qed.

Lemma staged_container fn st :
  container (staged fn st) = fn (globalState st) (locals st).
Proof.
  destruct (cleanupListeners_core st) as [G _ L]. unfold staged. cbv zeta.
  by rewrite G, L.
Qed.

Lemma staged_renders fn st : renders (staged fn st) = S (renders st).
Proof.
  destruct (cleanupListeners_other st) as (R & _). unfold staged. cbv zeta.
  change (S (renders (cleanupListeners st)) = S (renders st)). by rewrite R.
Qed.


Lemma staged_active fn st : activeListeners (staged fn st) = [].
Proof. done. Qed.

Lemma staged_attached fn st :
  (forall l, l ∈ attached st -> l ∈ activeListeners st) ->
  attached (staged fn st) = [].
Proof. apply (cleanupListeners_attached st). Qed.

(** What holds after [rerender], whether it returned or threw. *)
Lemma rerender_any st fn st' out :
  renderFn st = Some fn ->
  rerender st = (st', out) ->
  same_core st st'
  /\ renders st' = S (renders st)
  /\ without_attr "data-on" <$> container st'
     = without_attr "data-on" <$> fn (globalState st) (locals st)
  /\ (forall l, l ∈ activeListeners st' -> fst (el l) = S (renders st))
  /\ ((forall l, l ∈ attached st -> l ∈ activeListeners st) ->
      forall l, l ∈ attached st' <-> l ∈ activeListeners st').
Proof.
  intros Hfn. rewrite (rerender_unfold _ _ Hfn), bindEvents_unfold. intros Hrun.
  apply for_each_bind_any in Hrun as [(ls & B & Hls) Hc].
  rewrite staged_renders in Hls. rewrite staged_container in Hc.
  destruct B as [C R A T]. split_and!.
  - apply same_core_trans with (staged fn st); [apply staged_core|done].
  - by rewrite R, staged_renders.
  - done.
  - intros l. rewrite A, staged_active. apply Hls.
  - intros Hinv l. rewrite T, A, staged_active, (staged_attached fn st Hinv).
    rewrite elem_of_nil. simpl. tauto.
Qed.

(** What holds after [rerender] returned. *)
Lemma rerender_returned st fn st' :
  renderFn st = Some fn ->
  rerender st = (st', Returned tt) ->
  container st' = without_attr "data-on" <$> fn (globalState st) (locals st)
  /\ activeListeners st'
     = declared (handlers st) (S (renders st)) (fn (globalState st) (locals st)).
Proof.
  intros Hfn. rewrite (rerender_unfold _ _ Hfn), bindEvents_unfold. intros Hrun.
  apply (for_each_bind_returned (container (staged fn st))) in Hrun as [B C];
    [|apply querySelectorAll_NoDup|done].
  rewrite C, remove_each_selected, staged_container. split; [done|].
  rewrite (bound_active _ _ _ B), staged_active. unfold declared.
  rewrite staged_renders, (core_handlers _ _ (staged_core fn st)), staged_container.
  done.
Qed.


(** C2. Every render cycle replaces the whole content of the container with
    the fragment that [renderFn] returned: for [rerender], which the
    scheduler runs, and for [mount], which runs it for the first paint, the
    children of the container afterwards are the nodes of that fragment,
    whatever the container held before.  The nodes are the fragment's own;
    [bindEvents] has taken the [data-on] attribute off those it has
    processed, and off all that carried one when it returned.
    [reconcileChildren] and [patch] take no part. *)
Theorem render_cycle_replaces_content (st : App) (fn : RenderFn) :
  let fragment := fn (globalState st) (locals st) in
  (renderFn st = Some fn ->
   without_attr "data-on" <$> container (fst (rerender st))
   = without_attr "data-on" <$> fragment
   /\ (snd (rerender st) = Returned tt ->
       container (fst (rerender st)) = without_attr "data-on" <$> fragment))
  /\ without_attr "data-on" <$> container (fst (mount fn st))
     = without_attr "data-on" <$> fragment
  /\ (snd (mount fn st) = Returned tt ->
      container (fst (mount fn st)) = without_attr "data-on" <$> fragment).
Proof.
  intros fragment.
  assert (Hre : forall s, renderFn s = Some fn ->
    without_attr "data-on" <$> container (fst (rerender s))
    = without_attr "data-on" <$> fn (globalState s) (locals s)
    /\ (snd (rerender s) = Returned tt ->
        container (fst (rerender s))
        = without_attr "data-on" <$> fn (globalState s) (locals s))).
  { intros s Hfn. destruct (rerender s) as [s' out] eqn:E. simpl. split.
    - by destruct (rerender_any _ _ _ _ Hfn E) as (_ & _ & H & _).
    - intros ->. by destruct (rerender_returned _ _ _ Hfn E). }
  split; [apply Hre|].
  apply (Hre (set_mounted true (set_renderFn (Some fn) st))). done.
Qed.


(** *** Scheduling *)

(** A [setState] call on a mounted application leaves one render
    scheduled, the one that was scheduled already if there was one. *)
Lemma setState_schedules st0 st op :
  is_setState st0 op = true ->
  dom (locals st) = dom (locals st0) ->
  mounted st = true ->
  let st' := step st op in
  dom (locals st') = dom (locals st0)
  /\ mounted st' = true /\ renderFn st' = renderFn st /\ renders st' = renders st
  /\ rerenderScheduled st' = true
  /\ microtasks st'
     = if rerenderScheduled st then microtasks st else microtasks st ++ [RerenderTask].
Proof.
  intros Hop Hdom Hm.
  destruct op; try discriminate; simpl in *.
  - unfold setState, scheduleRerender. simpl. rewrite Hm.
    destruct (rerenderScheduled st) eqn:Hs; simpl; by rewrite ?Hs.
  - apply bool_decide_eq_true in Hop. rewrite <- Hdom in Hop.
    apply elem_of_dom in Hop as [sc Hsc].
    unfold scope_setState, scheduleRerender. rewrite Hsc. simpl. rewrite Hm.
    assert (Hd : dom (<[sid := {| sc_name := sc_name sc;
                                  localState := <[key:=value]> (localState sc) |}]>
                        (locals st)) = dom (locals st0)).
    { rewrite dom_insert_L, <- Hdom. apply elem_of_dom_2 in Hsc.
      apply set_eq. intros x. rewrite elem_of_union, elem_of_singleton.
      split; [intros [->|]; done|tauto]. }
    destruct (rerenderScheduled st) eqn:Hs; simpl; by rewrite ?Hs.
Qed.

Lemma setState_run_scheduled st0 ops st :
  forallb (is_setState st0) ops = true ->
  dom (locals st) = dom (locals st0) ->
  mounted st = true ->
  rerenderScheduled st = true ->
  mounted (run ops st) = true /\ renderFn (run ops st) = renderFn st
  /\ renders (run ops st) = renders st
  /\ rerenderScheduled (run ops st) = true
  /\ microtasks (run ops st) = microtasks st.
Proof.
  revert st. induction ops as [|op ops IH]; intros st Hops Hdom Hm Hs; [done|].
  simpl in Hops. apply andb_true_iff in Hops as [Hop Hops].
  destruct (setState_schedules st0 st op Hop Hdom Hm) as (D & M' & F & R & S' & Q).
  rewrite Hs in Q.
  change (run (op :: ops) st) with (run ops (step st op)).
  destruct (IH (step st op) Hops D M' S') as (? & ? & ? & ? & ?).
  split_and!; congruence.
Qed.

Lemma run_microtask_renders st fn :
  renderFn st = Some fn ->
  let st' := run_microtask RerenderTask st in
  renders st' = S (renders st) /\ microtasks st' = microtasks st
  /\ rerenderScheduled st' = false.
Proof.
  intros Hfn. unfold run_microtask.
  destruct (rerender (set_rerenderScheduled false st)) as [s out] eqn:E.
  assert (Hfn' : renderFn (set_rerenderScheduled false st) = Some fn) by done.
  destruct (rerender_any _ _ _ _ Hfn' E) as ([] & R & _).
  destruct out; simpl; done.
Qed.

(** C3. Debounced scheduling: on a mounted application with no render
    pending, any number [N >= 1] of [setState] calls in a row, global or on
    scope objects and with any keys, runs no render while the calls are
    made and leaves exactly one closure in the microtask queue; the
    checkpoint that follows runs the render function exactly once and
    leaves nothing scheduled. *)
Theorem setState_calls_render_once (st : App) (fn : RenderFn) (ops : list Op) :
  mounted st = true ->
  renderFn st = Some fn ->
  rerenderScheduled st = false ->
  microtasks st = [] ->
  ops <> [] ->
  forallb (is_setState st) ops = true ->
  let st1 := run ops st in
  renders st1 = renders st
  /\ microtasks st1 = [RerenderTask]
  /\ renders (checkpoint st1) = S (renders st)
  /\ microtasks (checkpoint st1) = []
  /\ rerenderScheduled (checkpoint st1) = false.
Proof.
  intros Hm Hfn Hs Hq Hne Hops st1.
  destruct ops as [|op ops]; [done|].
  simpl in Hops. apply andb_true_iff in Hops as [Hop Hops].
  destruct (setState_schedules st st op Hop eq_refl Hm) as (D & M' & F & R & S' & Q).
  rewrite Hs, Hq in Q.
  destruct (setState_run_scheduled st ops (step st op) Hops D M' S')
    as (M2 & F2 & R2 & S2 & Q2).
  change (run (op :: ops) st) with (run ops (step st op)) in st1.
  assert (Hq1 : microtasks st1 = [RerenderTask]) by (unfold st1; by rewrite Q2, Q).
  assert (Hr1 : renders st1 = renders st) by (unfold st1; congruence).
  assert (Hf1 : renderFn st1 = Some fn) by (unfold st1; congruence).
  split; [done|]. split; [done|].
  unfold checkpoint. rewrite Hq1. cbn [fold_left].
  destruct (run_microtask_renders (set_microtasks [] st1) fn Hf1) as (R3 & Q3 & S3).
  split_and!; [by rewrite R3, <- Hr1|by rewrite Q3|done].
Qed.

(** *** Malformed data-on *)

Lemma getAttributeAt_remove_each name ps nodes p other :
  p ∉ ps ->
  getAttributeAt (remove_each name ps nodes) p other = getAttributeAt nodes p other.
Proof.
  revert nodes. induction ps as [|q ps IH]; intros nodes Hnotin; [done|].
  apply not_elem_of_cons in Hnotin as [Hne Hnotin].
  simpl. rewrite IH by done. by apply getAttributeAt_remove_other.
Qed.

Lemma bind_element_throws p st :
  event_map (container st) p = None ->
  exists e, bind_element p st = (st, Threw e).
Proof.
  unfold bind_element, event_map, bind, gets, parse_attribute, entries_of, modify.
  destruct (JSON_parse _) as [v|]; simpl; [|by eexists].
  destruct (Object_entries v); simpl; [done|by eexists].
Qed.

(** [bindEvents] stops at the first element whose attribute does not give
    an event map. *)
Lemma bindEvents_stops st before p after :
  querySelectorAll_attr "data-on" (container st) = before ++ p :: after ->
  (forall q, q ∈ before -> is_Some (event_map (container st) q)) ->
  event_map (container st) p = None ->
  exists st1 e,
    for_each bind_element before st = (st1, Returned tt)
    /\ bind_element p st1 = (st1, Threw e)
    /\ bindEvents st = (st1, Threw e)
    /\ getAttributeAt (container st1) p "data-on"
       = getAttributeAt (container st) p "data-on".
Proof.
  intros Hsel Hok Hbad.
  pose proof (querySelectorAll_NoDup "data-on" (container st)) as Hnd.
  rewrite Hsel in Hnd. apply NoDup_app in Hnd as (Hnd1 & Hdisj & Hnd2).
  destruct (for_each_bind_total (container st) before st Hnd1) as [st1 E1]; [done|done|].
  destruct (for_each_bind_returned (container st) before st st1 Hnd1) as [_ C1];
    [done|done|].
  assert (Hp : p ∉ before).
  { intros Hin. apply (Hdisj p Hin). by left. }
  assert (Hread : getAttributeAt (container st1) p "data-on"
                 = getAttributeAt (container st) p "data-on").
  { rewrite C1. by apply getAttributeAt_remove_each. }
  assert (Hbad1 : event_map (container st1) p = None).
  { rewrite <- Hbad. by apply event_map_ext. }
  destruct (bind_element_throws p st1 Hbad1) as [e E2].
  exists st1, e. split; [done|]. split; [done|]. split; [|done].
  rewrite bindEvents_unfold, Hsel, for_each_app. unfold bind at 1. rewrite E1.
  simpl. unfold bind. by rewrite E2.
Qed.

Lemma bindEvents_stops_syntax st before p after :
  querySelectorAll_attr "data-on" (container st) = before ++ p :: after ->
  (forall q, q ∈ before -> is_Some (event_map (container st) q)) ->
  JSON_parse (default "null" (getAttributeAt (container st) p "data-on")) = None ->
  snd (bindEvents st) = Threw SyntaxError.
Proof.
  intros Hsel Hok Hbad.
  assert (Hmap : event_map (container st) p = None).
  { unfold event_map. by rewrite Hbad. }
  destruct (bindEvents_stops st before p after Hsel Hok Hmap)
    as (st1 & e & _ & E2 & -> & Hread).
  rewrite <- Hread in Hbad.
  rewrite (bind_element_syntax_error p st1 Hbad) in E2. by injection E2 as <-.
Qed.


(** The exception leaves the render cycle as well: [rerender] ends with
    [bindEvents]. *)
Lemma rerender_throws_on_malformed st fn before p after :
  renderFn st = Some fn ->
  let fragment := fn (globalState st) (locals st) in
  querySelectorAll_attr "data-on" fragment = before ++ p :: after ->
  (forall q, q ∈ before -> is_Some (event_map fragment q)) ->
  JSON_parse (default "null" (getAttributeAt fragment p "data-on")) = None ->
  snd (rerender st) = Threw SyntaxError.
Proof.
  intros Hfn fragment Hsel Hok Hbad.
  rewrite (rerender_unfold _ _ Hfn).
  apply (bindEvents_stops_syntax (staged fn st) before p after);
    rewrite ?staged_container; done.
Qed.

(** A binding to a handler that is not registered is the one case that is
    warned about and skipped. *)
Lemma bind_entry_missing_handler p ev target st :
  handlers st !! to_property_key target = None ->
  bind_entry p (ev, target) st
  = console_warn ("[act.js] No handler registered for "
                  +:+ quoted (to_property_key target)) st.
Proof. intros H. unfold bind_entry. by rewrite H. Qed.

(** *** Handler keys *)

Lemma handler_key_inj name1 h1 name2 h2 :
  no_colon name1 = true -> no_colon name2 = true ->
  handler_key name1 h1 = handler_key name2 h2 ->
  name1 = name2 /\ h1 = h2.
Proof.
  unfold handler_key. revert name2.
  induction name1 as [|c name1 IH]; intros [|d name2]; simpl; intros Hc Hd Heq.
  - change (String ":" h1 = String ":" h2) in Heq. by injection Heq as ->.
  - change (String ":" h1 = String d (name2 +:+ ":" +:+ h2)) in Heq.
    injection Heq as <- _. done.
  - change (String c (name1 +:+ ":" +:+ h1) = String ":" h2) in Heq.
    injection Heq as -> _. done.
  - change (String c (name1 +:+ ":" +:+ h1) = String d (name2 +:+ ":" +:+ h2)) in Heq.
    injection Heq as -> Heq.
    apply andb_true_iff in Hc as [_ Hc]. apply andb_true_iff in Hd as [_ Hd].
    destruct (IH name2 Hc Hd Heq) as [-> ->]. done.
Qed.

(** *** The invariants hold along every run *)

Lemma Inv_createApp content : Inv (createApp content).
Proof.
  constructor; simpl.
  - intros name sid H. by rewrite lookup_empty in H.
  - intros sid sc H. by rewrite lookup_empty in H.
  - intros id t H. by rewrite lookup_empty in H.
  - done.
  - intros l H. by apply elem_of_nil in H.
Qed.

(** A call that touches none of the fields the invariants speak of. *)
Lemma Inv_transfer st st' :
  scopes st' = scopes st -> locals st' = locals st -> next_id st' = next_id st ->
  timers st' = timers st -> intervals st' = intervals st ->
  timeouts st' = timeouts st -> attached st' = attached st ->
  activeListeners st' = activeListeners st -> renders st' = renders st ->
  Inv st -> Inv st'.
Proof.
  intros E1 E2 E3 E4 E5 E6 E7 E8 E9 [].
  constructor; rewrite ?E1, ?E2, ?E3, ?E4, ?E5, ?E6, ?E7, ?E8, ?E9; done.
Qed.

Lemma Inv_same_core st st' :
  same_core st st' -> attached st' = attached st ->
  activeListeners st' = activeListeners st -> renders st' = renders st ->
  Inv st -> Inv st'.
Proof. intros []. by apply (Inv_transfer st). Qed.

Lemma scheduleRerender_Inv st : Inv st -> Inv (scheduleRerender st).
Proof.
  unfold scheduleRerender. destruct (negb (rerenderScheduled st)); [|done].
  by apply (Inv_transfer st).
Qed.

Lemma when_mounted_Inv st : Inv st -> Inv (if mounted st then scheduleRerender st else st).
Proof. destruct (mounted st); [apply scheduleRerender_Inv|done]. Qed.

(** A scope object changes its local state and keeps its name; the
    registry loses entries at most. *)
Lemma Inv_update_scope st st' sid sc sc' :
  Inv st ->
  locals st !! sid = Some sc -> sc_name sc' = sc_name sc ->
  locals st' = <[sid := sc']> (locals st) ->
  (forall n s, scopes st' !! n = Some s -> scopes st !! n = Some s) ->
  next_id st' = next_id st -> timers st' = timers st ->
  intervals st' = intervals st -> timeouts st' = timeouts st ->
  attached st' = attached st -> activeListeners st' = activeListeners st ->
  renders st' = renders st ->
  Inv st'.
Proof.
  intros [Hreg Hfresh Htim Hlis Hgen] Hsc Hname E2 Hsub E3 E4 E5 E6 E7 E8 E9.
  constructor; rewrite ?E2, ?E3, ?E4, ?E5, ?E6, ?E7, ?E8, ?E9; try done.
  - intros n s Hn. apply Hsub, Hreg in Hn as (sc0 & Hs & Hn).
    destruct (decide (s = sid)) as [->|Hne].
    + rewrite lookup_insert_eq. exists sc'. split; [done|]. congruence.
    + rewrite lookup_insert_ne by done. eauto.
  - intros s sc0. destruct (decide (s = sid)) as [->|Hne].
    + intros _. by eapply Hfresh.
    + rewrite lookup_insert_ne by done. apply Hfresh.
Qed.

Lemma createScope_Inv name st : Inv st -> Inv (snd (createScope name st)).
Proof.
  intros HI. unfold createScope.
  destruct (scopes st !! name) as [sid|] eqn:E; simpl;
    [by apply (Inv_transfer st)|].
  destruct HI as [Hreg Hfresh Htim Hlis Hgen]. constructor; simpl; try done.
  - intros n s. destruct (decide (n = name)) as [->|Hne].
    + rewrite lookup_insert_eq. intros [= <-]. rewrite lookup_insert_eq. eauto.
    + rewrite lookup_insert_ne by done. intros Hn.
      destruct (Hreg n s Hn) as (sc & Hs & Hname).
      rewrite lookup_insert_ne; [eauto|]. apply Hfresh in Hs. lia.
  - intros s sc. destruct (decide (s = next_id st)) as [->|Hne]; [lia|].
    rewrite lookup_insert_ne by done. intros Hs. apply Hfresh in Hs. lia.
Qed.

Lemma scope_setState_Inv sid key value st : Inv st -> Inv (scope_setState sid key value st).
Proof.
  intros HI. unfold scope_setState. destruct (locals st !! sid) as [sc|] eqn:E; [|done].
  apply (when_mounted_Inv
           (set_locals (<[sid := {| sc_name := sc_name sc;
                                    localState := <[key:=value]> (localState sc) |}]>
                          (locals st)) st)).
  eapply (Inv_update_scope st _ sid sc _ HI E); only 2: reflexivity; done.
Qed.

Lemma scope_deleteState_Inv sid key st : Inv st -> Inv (scope_deleteState sid key st).
Proof.
  intros HI. unfold scope_deleteState. destruct (locals st !! sid) as [sc|] eqn:E; [|done].
  eapply (Inv_update_scope st _ sid sc _ HI E); only 2: reflexivity; done.
Qed.

Lemma scope_destroy_Inv sid st : Inv st -> Inv (scope_destroy sid st).
Proof.
  intros HI. unfold scope_destroy. destruct (locals st !! sid) as [sc|] eqn:E; [|done].
  eapply (Inv_update_scope st _ sid sc _ HI E); only 2: reflexivity; try done.
  simpl. intros n s Hn. by apply lookup_delete_Some in Hn as [_ Hn].
Qed.

Lemma host_setTimer_Inv k st :
  Inv st -> Inv (snd (host_setTimer k false st)).
Proof.
  intros [Hreg Hfresh Htim Hlis Hgen]. constructor; simpl; try done.
  - intros s sc Hs. apply Hfresh in Hs. lia.
  - intros id t. destruct (decide (id = next_id st)) as [->|Hne].
    + rewrite lookup_insert_eq. by intros [= <-].
    + rewrite lookup_insert_ne by done. apply Htim.
Qed.

Lemma safeSetInterval_Inv st : Inv st -> Inv (snd (safeSetInterval st)).
Proof.
  intros [Hreg Hfresh Htim Hlis Hgen]. constructor; simpl; try done.
  - intros s sc Hs. apply Hfresh in Hs. lia.
  - intros id t. destruct (decide (id = next_id st)) as [->|Hne].
    + intros _ _. left. set_solver.
    + rewrite lookup_insert_ne by done. intros Ht Hh.
      destruct (Htim id t Ht Hh); [left; set_solver|by right].
Qed.

Lemma safeSetTimeout_Inv st : Inv st -> Inv (snd (safeSetTimeout st)).
Proof.
  intros [Hreg Hfresh Htim Hlis Hgen]. constructor; simpl; try done.
  - intros s sc Hs. apply Hfresh in Hs. lia.
  - intros id t. destruct (decide (id = next_id st)) as [->|Hne].
    + intros _ _. right. set_solver.
    + rewrite lookup_insert_ne by done. intros Ht Hh.
      destruct (Htim id t Ht Hh); [by left|right; set_solver].
Qed.

Lemma host_clearTimer_Inv id st : Inv st -> Inv (host_clearTimer id st).
Proof.
  intros [Hreg Hfresh Htim Hlis Hgen]. constructor; simpl; try done.
  intros i t Ht. apply lookup_delete_Some in Ht as [_ Ht]. by apply Htim.
Qed.

Lemma safeClearInterval_Inv id st : Inv st -> Inv (safeClearInterval id st).
Proof.
  intros [Hreg Hfresh Htim Hlis Hgen]. constructor; simpl; try done.
  intros i t Ht Hh. apply lookup_delete_Some in Ht as [Hne Ht].
  destruct (Htim i t Ht Hh); [left; set_solver|by right].
Qed.

Lemma safeClearTimeout_Inv id st : Inv st -> Inv (safeClearTimeout id st).
Proof.
  intros [Hreg Hfresh Htim Hlis Hgen]. constructor; simpl; try done.
  intros i t Ht Hh. apply lookup_delete_Some in Ht as [Hne Ht].
  destruct (Htim i t Ht Hh); [by left|right; set_solver].
Qed.

Lemma timer_fires_Inv id st : Inv st -> Inv (timer_fires id st).
Proof.
  intros HI. unfold timer_fires.
  destruct (timers st !! id) as [[[] helper]|] eqn:E; [done| |done].
  destruct HI as [Hreg Hfresh Htim Hlis Hgen].
  destruct helper; constructor; simpl; try done.
  - intros i t Ht Hh. apply lookup_delete_Some in Ht as [Hne Ht].
    destruct (Htim i t Ht Hh); [by left|right; set_solver].
  - intros i t Ht. apply lookup_delete_Some in Ht as [Hne Ht]. by apply Htim.
Qed.

Lemma rerender_core st st' out : rerender st = (st', out) -> same_core st st'.
Proof.
  destruct (renderFn st) as [fn|] eqn:Hfn.
  - intros E. by destruct (rerender_any _ _ _ _ Hfn E).
  - rewrite (rerender_unmounted _ Hfn). intros [= <- _]. apply same_core_refl.
Qed.

Lemma rerender_Inv st st' out : Inv st -> rerender st = (st', out) -> Inv st'.
Proof.
  intros HI. destruct (renderFn st) as [fn|] eqn:Hfn.
  - intros E.
    destruct (rerender_any _ _ _ _ Hfn E)
      as ([_ Es El _ _ _ Ei Et _ _ Etm En] & R & _ & G & A).
    destruct HI as [Hreg Hfresh Htim Hlis Hgen].
    constructor; rewrite ?Es, ?El, ?En, ?Etm, ?Ei, ?Et; try done.
    + intros l. by apply A.
    + intros l Hl. rewrite (G l Hl), R. done.
  - rewrite (rerender_unmounted _ Hfn). by intros [= <- _].
Qed.

Lemma mount_Inv fn st : Inv st -> Inv (fst (mount fn st)).
Proof.
  intros HI. destruct (mount fn st) as [st' out] eqn:E.
  apply (rerender_Inv (set_mounted true (set_renderFn (Some fn) st)) st' out);
    [by apply (Inv_transfer st)|done].
Qed.

Lemma run_microtask_Inv t st : Inv st -> Inv (run_microtask t st).
Proof.
  intros HI. unfold run_microtask.
  destruct (rerender (set_rerenderScheduled false st)) as [s out] eqn:E.
  apply rerender_Inv in E; [|by apply (Inv_transfer st)].
  destruct out; [done|]. by apply (Inv_transfer s).
Qed.

Lemma checkpoint_Inv st : Inv st -> Inv (checkpoint st).
Proof.
  intros HI. unfold checkpoint.
  assert (H0 : Inv (set_microtasks [] st)) by (by apply (Inv_transfer st)).
  revert H0. generalize (set_microtasks [] st).
  induction (microtasks st) as [|t ts IH]; intros s Hs; [done|].
  simpl. apply IH. by apply run_microtask_Inv.
Qed.

(** *** destroy *)

Lemma destroy_unfold st :
  destroy st
  = match for_each destroy_scope_named (fst <$> map_to_list (scopes (torn st))) (torn st) with
    | (st', Returned _) => (wiped st', Returned tt)
    | (st', Threw e) => (st', Threw e)
    end.
Proof. done. Qed.

Lemma clear_timers_eq ids st :
  fold_left (fun st id => host_clearTimer id st) ids st
  = set_timers (fold_left (fun m id => delete id m) ids (timers st)) st.
Proof.
  revert st. induction ids as [|id ids IH]; intros st; simpl.
  - by destruct st.
  - by rewrite IH.
Qed.

Lemma delete_all_lookup (ids : list nat) (m : gmap nat Timer) (id : nat) :
  fold_left (fun m id => delete id m) ids m !! id
  = if decide (id ∈ ids) then None else m !! id.
Proof.
  revert m. induction ids as [|i ids IH]; intros m; simpl; [done|].
  rewrite IH. destruct (decide (id ∈ ids)) as [Hin|Hnotin].
  - rewrite decide_True; [done|by right].
  - destruct (decide (id = i)) as [->|Hne].
    + rewrite lookup_delete_eq. rewrite decide_True; [done|by left].
    + rewrite lookup_delete_ne by done. rewrite decide_False; [done|].
      intros [?|?]%elem_of_cons; done.
Qed.

Lemma remove_listeners_eq ls st :
  exists A, fold_left (fun st l => removeEventListener l st) ls st = set_attached A st
            /\ forall l, l ∈ A <-> l ∈ attached st /\ l ∉ ls.
Proof.
  revert st. induction ls as [|x ls IH]; intros st; simpl.
  - exists (attached st). split; [by destruct st|].
    intros l. rewrite elem_of_nil. tauto.
  - destruct (IH (removeEventListener x st)) as (A & -> & HA).
    exists A. split; [done|].
    intros l. rewrite HA. unfold removeEventListener. simpl.
    rewrite list_elem_of_In, filter_In, <- list_elem_of_In, not_elem_of_cons.
    rewrite negb_true_iff, bool_decide_eq_false. tauto.
Qed.

(** The state before the scopes are destroyed, field by field. *)
Lemma torn_eq st :
  (forall l, l ∈ attached st -> l ∈ activeListeners st) ->
  exists T,
    torn st
    = set_timeouts ∅ (set_intervals ∅ (set_timers T
        (set_activeListeners [] (set_attached []
           (set_renderFn None (set_mounted false st))))))
    /\ forall id, T !! id
                  = if decide (id ∈ intervals st \/ id ∈ timeouts st) then None
                    else timers st !! id.
Proof.
  intros Hinv. unfold torn, cleanupListeners. cbv zeta.
  destruct (remove_listeners_eq
              (activeListeners (set_renderFn None (set_mounted false st)))
              (set_renderFn None (set_mounted false st))) as (A & -> & HA).
  assert (A = []) as ->.
  { apply elem_of_nil_inv. intros l Hl. apply HA in Hl as [Hl Hnot].
    apply Hnot. by apply Hinv. }
  rewrite !clear_timers_eq. simpl.
  eexists. split; [reflexivity|].
  intros id. rewrite !delete_all_lookup.
  destruct (decide (id ∈ elements (timeouts st))) as [Ht|Ht];
    destruct (decide (id ∈ elements (intervals st))) as [Hi|Hi];
    rewrite elem_of_elements in Ht, Hi.
  - rewrite decide_True; tauto.
  - rewrite decide_True; tauto.
  - rewrite decide_True; tauto.
  - rewrite decide_False; tauto.
Qed.

(** Destroying the scopes that the registry names, one name after the
    other: each call takes its own name out. *)
Lemma destroy_scopes_loop names st :
  NoDup names ->
  (forall n, n ∈ names ->
     exists sid sc, scopes st !! n = Some sid /\ locals st !! sid = Some sc
                    /\ sc_name sc = n) ->
  exists S L H,
    for_each destroy_scope_named names st
    = (set_scopes S (set_locals L (set_handlers H st)), Returned tt)
    /\ (forall n, S !! n = if decide (n ∈ names) then None else scopes st !! n)
    /\ (forall sid sc', L !! sid = Some sc' ->
          exists sc, locals st !! sid = Some sc /\ sc_name sc' = sc_name sc).
Proof.
  intros Hnd. revert st.
  induction Hnd as [|n names Hnotin Hnd IH]; intros st Hreg.
  - exists (scopes st), (locals st), (handlers st). split; [by destruct st|].
    split; [done|eauto].
  - destruct (Hreg n) as (sid & sc & Hn & Hsid & Hname); [by left|].
    simpl. unfold bind, destroy_scope_named at 1. rewrite Hn.
    unfold scope_destroy. rewrite Hsid, Hname.
    match goal with |- context [for_each _ _ ?s] => set (st1 := s) end.
    destruct (IH st1) as (S & L & H & E & HS & HL).
    { intros m Hm. destruct (Hreg m) as (sid' & sc' & Hm1 & Hm2 & Hm3); [by right|].
      assert (m <> n) by (intros ->; done).
      exists sid', sc'. unfold st1. simpl. rewrite lookup_delete_ne by done.
      split; [done|]. split; [|done].
      rewrite lookup_insert_ne; [done|]. intros <-. congruence. }
    exists S, L, H. rewrite E. split; [done|]. split.
    + intros m. rewrite HS. unfold st1. simpl.
      destruct (decide (m ∈ names)) as [Hin|Hnin].
      * rewrite decide_True; [done|by right].
      * destruct (decide (m = n)) as [->|Hne].
        -- rewrite lookup_delete_eq. rewrite decide_True; [done|by left].
        -- rewrite lookup_delete_ne by done. rewrite decide_False; [done|].
           intros [?|?]%elem_of_cons; done.
    + intros s sc' Hs. apply HL in Hs as (sc0 & Hs & Hnm). unfold st1 in Hs. simpl in Hs.
      destruct (decide (s = sid)) as [->|Hne].
      * rewrite lookup_insert_eq in Hs. injection Hs as <-.
        exists sc. split; [done|]. simpl in Hnm. congruence.
      * rewrite lookup_insert_ne in Hs by done. eauto.
Qed.

(** The state [destroy] leaves, field by field, and that it returns. *)
Lemma destroy_spec st :
  Inv st ->
  exists L H T,
    destroy st
    = (wiped (set_scopes ∅ (set_locals L (set_handlers H
         (set_timeouts ∅ (set_intervals ∅ (set_timers T
            (set_activeListeners [] (set_attached []
               (set_renderFn None (set_mounted false st)))))))))),
       Returned tt)
    /\ (forall sid sc', L !! sid = Some sc' -> exists sc, locals st !! sid = Some sc)
    /\ (forall id t, T !! id = Some t -> via_helper t = false)
    /\ (forall id, id ∈ intervals st \/ id ∈ timeouts st -> T !! id = None).
Proof.
  intros [Hreg Hfresh Htim Hlis Hgen].
  destruct (torn_eq st Hlis) as (T & Etorn & HT).
  rewrite destroy_unfold, Etorn.
  match goal with |- context [for_each _ _ ?s] => set (st1 := s) end.
  destruct (destroy_scopes_loop (fst <$> map_to_list (scopes st1)) st1)
    as (S & L & H & E & HS & HL).
  { apply NoDup_fst_map_to_list. }
  { intros n Hn. apply list_elem_of_fmap in Hn as ([n' sid] & -> & Hn).
    apply elem_of_map_to_list in Hn. simpl in *.
    destruct (Hreg n' sid Hn) as (sc & ? & ?). eauto. }
  assert (S = ∅) as ->.
  { apply map_eq. intros n. rewrite HS, lookup_empty.
    destruct (decide _) as [|Hnotin]; [done|].
    destruct (scopes st1 !! n) as [sid|] eqn:Hn; [|done].
    exfalso. apply Hnotin. apply list_elem_of_fmap. exists (n, sid).
    split; [done|]. by apply elem_of_map_to_list. }
  exists L, H, T. rewrite E. split; [done|]. split_and!.
  - intros sid sc' Hs. apply HL in Hs as (sc & Hs & _). eauto.
  - intros id t Ht. rewrite HT in Ht.
    destruct (decide _) as [|Hnot]; [done|].
    destruct (via_helper t) eqn:Hh; [|done].
    exfalso. apply Hnot. by apply (Htim id t).
  - intros id Hid. rewrite HT. by rewrite decide_True.
Qed.

Lemma destroy_Inv st : Inv st -> Inv (fst (destroy st)).
Proof.
  intros HI. destruct (destroy_spec st HI) as (L & H & T & -> & HL & HT & _).
  destruct HI as [Hreg Hfresh Htim Hlis Hgen]. constructor; simpl.
  - intros n sid Hn. by rewrite lookup_empty in Hn.
  - intros sid sc Hs. apply HL in Hs as [sc0 Hs]. by eapply Hfresh.
  - intros id t Ht Hh. apply HT in Ht. congruence.
  - done.
  - intros l Hl. by apply elem_of_nil in Hl.
Qed.

Lemma step_Inv st op : Inv st -> Inv (step st op).
Proof.
  intros HI. destruct op; simpl.
  - apply (when_mounted_Inv (set_globalState (<[key:=value]> (globalState st)) st)).
    by apply (Inv_transfer st).
  - by apply (Inv_transfer st).
  - by apply createScope_Inv.
  - unfold getScope. destruct (scopes st !! name); [done|]. by apply (Inv_transfer st).
  - by apply scope_setState_Inv.
  - by apply scope_deleteState_Inv.
  - unfold scope_on. destruct (locals st !! sid); [|done]. by apply (Inv_transfer st).
  - unfold scope_off. destruct (locals st !! sid); [|done]. by apply (Inv_transfer st).
  - by apply scope_destroy_Inv.
  - by apply (Inv_transfer st).
  - by apply (Inv_transfer st).
  - by apply mount_Inv.
  - by apply destroy_Inv.
  - by apply safeSetInterval_Inv.
  - by apply safeClearInterval_Inv.
  - by apply safeSetTimeout_Inv.
  - by apply safeClearTimeout_Inv.
  - by apply host_setTimer_Inv.
  - by apply host_clearTimer_Inv.
  - by apply timer_fires_Inv.
  - by apply checkpoint_Inv.
Qed.

Lemma run_Inv ops st : Inv st -> Inv (run ops st).
Proof.
  revert st. induction ops as [|op ops IH]; intros st HI; [done|].
  apply IH. by apply step_Inv.
Qed.

(** C9. Destroy cleanup: after any run of the application from
    [createApp], with [mount] in it or not, [destroy] returns and leaves the
    mount container without content, the registry without scopes, so that
    [getScope] gives [null] for every name a scope was created under (these
    are names that objects do not inherit: under an inherited name
    [createScope] returns what it finds there and creates nothing), no
    timer that [safeSetInterval] or [safeSetTimeout] created running and
    none tracked, so that firing a formerly tracked id finds no timer, and
    the global state and the handler registry without a property; no
    listener is attached or recorded and the application is unmounted. *)
Theorem destroy_cleans_up (content : list Node) (ops : list Op) :
  let st := run ops (createApp content) in
  exists st',
    destroy st = (st', Returned tt)
    /\ container st' = []
    /\ (forall name, inherited name = false -> fst (getScope name st') = None)
    /\ (forall id t, timers st' !! id = Some t -> via_helper t = false)
    /\ (forall id, id ∈ intervals st \/ id ∈ timeouts st ->
          timers st' !! id = None /\ timer_fires id st' = st')
    /\ intervals st' = ∅ /\ timeouts st' = ∅
    /\ globalState st' = ∅ /\ handlers st' = ∅
    /\ activeListeners st' = [] /\ attached st' = []
    /\ mounted st' = false /\ renderFn st' = None.
Proof.
  intros st.
  assert (HI : Inv st) by apply run_Inv, Inv_createApp.
  destruct (destroy_spec st HI) as (L & H & T & -> & HL & HT & HT').
  eexists. split; [reflexivity|]. simpl. split_and!; try done.
  intros id Hid. split; [by apply HT'|].
  unfold timer_fires. simpl. by rewrite (HT' id).
Qed.

Lemma destroy_again st :
  activeListeners st = [] -> intervals st = ∅ -> timeouts st = ∅ ->
  scopes st = ∅ -> container st = [] -> globalState st = ∅ -> handlers st = ∅ ->
  mounted st = false -> renderFn st = None ->
  destroy st = (console_log destroyed_message st, Returned tt).
Proof.
  destruct st. simpl. intros -> -> -> -> -> -> -> -> ->.
  rewrite destroy_unfold. unfold torn, cleanupListeners. simpl.
  repeat (rewrite elements_empty; simpl). rewrite map_to_list_empty. done.
Qed.

(** C10. [destroy] is idempotent: after any run, a second [destroy] right
    after the first returns as well, and all it does is log its message
    once more; the container, the global state, the scope registry, the
    handler registry, the timers, the listener records and the [mounted]
    flag stay as the first [destroy] left them. *)
Theorem destroy_twice (content : list Node) (ops : list Op) :
  let st := run ops (createApp content) in
  exists st1,
    destroy st = (st1, Returned tt)
    /\ destroy st1 = (console_log destroyed_message st1, Returned tt).
Proof.
  intros st.
  assert (HI : Inv st) by apply run_Inv, Inv_createApp.
  destruct (destroy_spec st HI) as (L & H & T & -> & _).
  eexists. split; [reflexivity|]. by apply destroy_again.
Qed.

(** *** Scopes *)

Lemma run_microtask_core t st :
  scopes (run_microtask t st) = scopes st.
Proof.
  unfold run_microtask.
  destruct (rerender (set_rerenderScheduled false st)) as [s out] eqn:E.
  apply rerender_core in E as []. by destruct out.
Qed.

Lemma checkpoint_scopes st : scopes (checkpoint st) = scopes st.
Proof.
  unfold checkpoint.
  change (scopes st) with (scopes (set_microtasks [] st)).
  generalize (set_microtasks [] st).
  induction (microtasks st) as [|t ts IH]; intros s; [done|].
  simpl. by rewrite IH, run_microtask_core.
Qed.

(** Only the two destroy calls take a name out of the registry. *)
Lemma step_keeps_scope st op name sid :
  keeps_scopes op = true ->
  scopes st !! name = Some sid ->
  scopes (step st op) !! name = Some sid.
Proof.
  intros Hop Hname. destruct op; try discriminate; simpl; try done.
  - unfold setState, scheduleRerender. simpl.
    destruct (mounted st); [|done]. by destruct (negb _).
  - unfold createScope. destruct (scopes st !! name0) as [s|] eqn:E; simpl; [done|].
    rewrite lookup_insert_ne; [done|]. intros ->. congruence.
  - unfold getScope. by destruct (scopes st !! name0).
  - unfold scope_setState, scheduleRerender. destruct (locals st !! sid0); [|done].
    simpl. destruct (mounted st); [|done]. by destruct (negb _).
  - unfold scope_deleteState. by destruct (locals st !! sid0).
  - unfold scope_on. by destruct (locals st !! sid0).
  - unfold scope_off. by destruct (locals st !! sid0).
  - destruct (mount fn st) as [s out] eqn:E.
    apply (rerender_core (set_mounted true (set_renderFn (Some fn) st))) in E
      as [_ Es].
    simpl in *. by rewrite Es.
  - unfold timer_fires. destruct (timers st !! id) as [[[] []]|]; done.
  - by rewrite checkpoint_scopes.
Qed.

Lemma run_keeps_scope ops st name sid :
  forallb keeps_scopes ops = true ->
  scopes st !! name = Some sid ->
  scopes (run ops st) !! name = Some sid.
Proof.
  revert st. induction ops as [|op ops IH]; intros st Hops Hname; [done|].
  simpl in Hops. apply andb_true_iff in Hops as [Hop Hops].
  apply IH; [done|]. by apply step_keeps_scope.
Qed.

Lemma createScope_registers name st :
  scopes (snd (createScope name st)) !! name = Some (fst (createScope name st)).
Proof.
  unfold createScope. destruct (scopes st !! name) as [sid|] eqn:E; simpl; [done|].
  apply lookup_insert_eq.
Qed.

(** C7. Idempotent scope creation: once [createScope(name)] has been
    called, and for as long as no scope is destroyed, the registry maps
    [name] to the scope object that call returned, and calling
    [createScope(name)] again returns that same object and changes nothing
    but the console, which gets the warning: the local state of the scope,
    as of every scope, is what it was, so what was set through the first
    reference is read through the second. *)
Theorem createScope_idempotent (st : App) (name : string) (ops : list Op) :
  forallb keeps_scopes ops = true ->
  let scope := fst (createScope name st) in
  let st2 := run ops (snd (createScope name st)) in
  scopes st2 !! name = Some scope
  /\ createScope name st2 = (scope, console_warn (scope_exists_warning name) st2)
  /\ (forall key, scope_getState (fst (createScope name st2)) key
                    (snd (createScope name st2))
                  = scope_getState scope key st2).
Proof.
  intros Hops scope st2.
  assert (Hreg : scopes st2 !! name = Some scope).
  { apply run_keeps_scope; [done|]. apply createScope_registers. }
  assert (Hagain :
    createScope name st2 = (scope, console_warn (scope_exists_warning name) st2)).
  { unfold createScope at 1. by rewrite Hreg. }
  split; [done|]. split; [done|]. intros key. by rewrite Hagain.
Qed.


(** *** The theorems at the example applications *)

Example counter_app_state :
  container counter_app
  = [ Element "DIV" [("class", "app")] NoValue
        [ Element "BUTTON" [] NoValue [Text "+"];
          Text " ";
          Element "BUTTON" [] NoValue [Text "-"] ] ]
  /\ activeListeners counter_app
     = [ {| el := (1, [0; 0]); event := "click"; handler := 1 |};
         {| el := (1, [0; 2]); event := "click"; handler := 2 |} ]
  /\ attached counter_app = activeListeners counter_app
  /\ console counter_app = [Warn ("[act.js] No handler registered for " +:+ quoted "nobody")]
  /\ renders counter_app = 1.
Proof. vm_compute. done. Qed.

Lemma render_cycle_replaces_content_witness :
  renderFn counter_app = Some counter_view
  /\ without_attr "data-on" <$> container (fst (rerender counter_app))
     = without_attr "data-on"
         <$> counter_view (globalState counter_app) (locals counter_app).
Proof.
  assert (H : renderFn counter_app = Some counter_view) by (vm_compute; reflexivity).
  split; [exact H|].
  exact (proj1 (proj1 (render_cycle_replaces_content counter_app counter_view) H)).
Defined.

Lemma setState_calls_render_once_witness :
  let ops := [ OSetState "count" (VNumber 1); OScopeSetState 0 "seconds" (VNumber 1);
               OSetState "count" (VNumber 2) ] in
  let st1 := run ops counter_app in
  renders st1 = renders counter_app
  /\ microtasks st1 = [RerenderTask]
  /\ renders (checkpoint st1) = S (renders counter_app)
  /\ microtasks (checkpoint st1) = []
  /\ rerenderScheduled (checkpoint st1) = false.
Proof.
  refine (setState_calls_render_once counter_app counter_view _ _ _ _ _ _ _);
    vm_compute; first [reflexivity | discriminate].
Defined.



(** C5. The code at an input on which two scopes share a key: scope [a]
    registers [b:c], and scope [a:b] has the same key, [a:b:c], for [c];
    when [a:b] registers it, the handler of [a] is gone from the registry
    and the key resolves to the handler of [a:b].  The key is the plain
    concatenation of scope name, colon and handler name, and nothing keeps
    a colon out of either. *)
Lemma scoped_keys_collide_counterexample :
  let st := run [OCreateScope "a"; OCreateScope "a:b"; OScopeOn 0 "b:c" 7]
              (createApp []) in
  (sc_name <$> locals st !! 0) = Some "a"
  /\ (sc_name <$> locals st !! 1) = Some "a:b"
  /\ scope_handler 0 "b:c" st = scope_handler 1 "c" st
  /\ handlers st !! scope_handler 0 "b:c" st = Some 7
  /\ handlers (scope_on 1 "c" 8 st) !! scope_handler 0 "b:c" st = Some 8.
Proof. vm_compute. done. Qed.



Lemma createScope_idempotent_witness :
  let ops := [ OScopeSetState 0 "seconds" (VNumber 5); OCreateScope "todo";
               OMount counter_view; OSetState "count" (VNumber 1); OCheckpoint ] in
  let scope := fst (createScope "timer" (createApp [])) in
  let st2 := run ops (snd (createScope "timer" (createApp []))) in
  scopes st2 !! "timer" = Some scope
  /\ createScope "timer" st2 = (scope, console_warn (scope_exists_warning "timer") st2)
  /\ (forall key, scope_getState (fst (createScope "timer" st2)) key
                    (snd (createScope "timer" st2))
                  = scope_getState scope key st2).
Proof.
  refine (createScope_idempotent (createApp []) "timer" _ _).
  vm_compute. reflexivity.
Defined.

(** The state set through the first reference is read through the second. *)
Example createScope_twice_state :
  let '(first, st) := createScope "timer" (createApp []) in
  let st := scope_setState first "seconds" (VNumber 5) st in
  let '(second, st) := createScope "timer" st in
  second = first
  /\ scope_getState second "seconds" st = VNumber 5
  /\ console st = [Warn (scope_exists_warning "timer")].
Proof. vm_compute. done. Qed.

Example destroy_counter_app :
  let st := fst (destroy counter_app) in
  container st = [] /\ fst (getScope "timer" st) = None
  /\ timers st = ∅ /\ globalState st = ∅ /\ handlers st = ∅.
Proof. vm_compute. done. Qed.

End ActProofs.
(** ** lib/diff.js, further properties *)

Module DiffExtra.
Import Dom DomFacts Diff DiffProofs.

(** *** The positional walk *)

Lemma clone_all (l : list Node) : cloneNode true <$> l = l.
Proof.
  induction l as [|n l IH]; [done|]. rewrite fmap_cons, cloneNode_deep. by f_equal.
Qed.


(** *** Nothing to do *)

Lemma In_get_some (attrs : Attrs) name value :
  In (name, value) attrs -> exists w, getAttribute attrs name = Some w.
Proof.
  induction attrs as [|[n v] attrs IH]; simpl; [done|].
  intros [Heq|Hin].
  - injection Heq as -> ->. rewrite String.eqb_refl. eauto.
  - destruct (String.eqb n name); eauto.
Qed.

Lemma remove_stale_noop newAttrs l el :
  (forall a, In a l -> hasAttribute newAttrs (fst a) = true) ->
  fold_left (remove_stale newAttrs) l el = el.
Proof.
  revert el. induction l as [|a l IH]; intros el Hall; simpl; [done|].
  unfold remove_stale at 2. rewrite (Hall a) by (by left). simpl.
  apply IH. intros b Hb. apply Hall. by right.
Qed.

Lemma update_changed_noop l el :
  (forall n v, In (n, v) l -> getAttribute (el_attrs el) n = Some v) ->
  fold_left update_changed l el = el.
Proof.
  revert el. induction l as [|[n v] l IH]; intros el Hall; cbn [fold_left]; [done|].
  assert (Hsame : update_changed el (n, v) = el).
  { unfold update_changed. rewrite (Hall n v) by (by left). simpl.
    by rewrite String.eqb_refl. }
  rewrite Hsame. apply IH. intros m w Hin. apply Hall. by right.
Qed.

(** [syncAttrs] leaves an element alone that has the desired attributes. *)
Lemma syncAttrs_noop oldEl newAttrs :
  unique_names newAttrs ->
  (forall name, getAttribute (el_attrs oldEl) name = getAttribute newAttrs name) ->
  syncAttrs oldEl newAttrs = oldEl.
Proof.
  intros Hu Hsame. unfold syncAttrs.
  rewrite remove_stale_noop.
  - apply update_changed_noop. intros n v Hin.
    rewrite Hsame. by apply In_get_unique.
  - intros [n v] Hin. simpl. unfold hasAttribute.
    apply In_get_some in Hin as [w Hw]. by rewrite <- Hsame, Hw.
Qed.

Lemma patch_fixpoint n :
  well_formed n = true -> forall o, node_equiv o n -> patch o n = o.
Proof.
  induction n as [data|tag attrs value children IH|kind data] using Node_ind;
    intros Hwf o Heq; inversion Heq; subst.
  - simpl. by rewrite String.eqb_refl.
  - simpl in Hwf. apply andb_true_iff in Hwf as [Hattrs Hwf].
    apply bool_decide_eq_true in Hattrs.
    simpl. rewrite String.eqb_refl. simpl.
    rewrite (syncAttrs_noop {| el_tag := tag; el_attrs := attrs1; el_value := value1 |})
      by done.
    simpl. f_equal.
    match goal with H : Forall2 node_equiv _ _ |- _ => rename H into Hch end.
    clear Heq. revert IH Hwf. induction Hch as [|c1 c2 r1 r2 Hc Hr IHr]; intros IH Hwf.
    + done.
    + simpl in Hwf. apply andb_true_iff in Hwf as [Hwfc Hwfr].
      apply Forall_cons in IH as [IHc IHrest].
      simpl. f_equal; [by apply IHc|by apply IHr].
  - by destruct kind.
Qed.

Lemma align_fixpoint live desired :
  forallb well_formed desired = true ->
  Forall2 node_equiv live desired ->
  align patch live desired = live.
Proof.
  intros Hwf Heq. induction Heq as [|o n os ns Hon Hrest IH]; [done|].
  simpl in Hwf. apply andb_true_iff in Hwf as [Hwfn Hwfr].
  simpl. f_equal; [by apply patch_fixpoint|by apply IH].
Qed.


(** X2. Empty sides: reconciling an empty parent towards [newCh] gives it
    copies of all of [newCh], and reconciling any children towards an empty
    list removes them all. *)
Theorem reconcileChildren_empty (oldCh newCh : list Node) :
  reconcileChildren [] newCh = newCh /\ reconcileChildren oldCh [] = [].
Proof.
  rewrite !reconcileChildren_align. split.
  - rewrite align_nil. apply clone_all.
  - done.
Qed.

(** X3. Children are aligned by position: when the live list and the
    desired list start with sections of the same length, the reconciled
    children are those sections reconciled with one another, followed by the
    rest reconciled with the rest.  A child is never matched with one at
    another index. *)
Theorem reconcileChildren_app (o1 o2 n1 n2 : list Node) :
  length o1 = length n1 ->
  reconcileChildren (o1 ++ o2) (n1 ++ n2)
  = reconcileChildren o1 n1 ++ reconcileChildren o2 n2.
Proof.
  rewrite !reconcileChildren_align.
  revert o1. induction n1 as [|n n1 IH]; intros o1 Hlen.
  - destruct o1; [done|discriminate].
  - destruct o1 as [|o o1]; [discriminate|]. simpl. f_equal. apply IH.
    simpl in Hlen. lia.
Qed.

Lemma reconcileChildren_app_witness :
  reconcileChildren ([Text "a"; Other CommentNode "c"] ++ live_example)
    ([Element "B" [] NoValue []; Text "b"] ++ shorter_example)
  = reconcileChildren [Text "a"; Other CommentNode "c"] [Element "B" [] NoValue []; Text "b"]
    ++ reconcileChildren live_example shorter_example.
Proof.
  apply (reconcileChildren_app [Text "a"; Other CommentNode "c"] live_example
           [Element "B" [] NoValue []; Text "b"] shorter_example).
  reflexivity.
Defined.

(** X4. Nothing to do, nothing done: when the live children are already
    structurally and attribute-wise equal to the desired ones (whose
    elements have unique attribute names), [reconcileChildren] leaves the
    live children exactly as they are: attribute order, value properties and
    all descendants included. *)
Theorem reconcileChildren_fixpoint (live desired : list Node) :
  forallb well_formed desired = true ->
  Forall2 node_equiv live desired ->
  reconcileChildren live desired = live.
Proof. intros Hwf Heq. rewrite reconcileChildren_align. by apply align_fixpoint. Qed.



Lemma reconcileChildren_fixpoint_witness :
  reconcileChildren [typed_input; Text "t"]
    [Element "INPUT" [("type", "text"); ("value", "abc")] Pristine []; Text "t"]
  = [typed_input; Text "t"].
Proof.
  apply (reconcileChildren_fixpoint [typed_input; Text "t"]
           [Element "INPUT" [("type", "text"); ("value", "abc")] Pristine []; Text "t"]).
  - reflexivity.
  - repeat constructor.
Defined.

(** *** A changed value attribute *)

Lemma text_type_mode type :
  text_type type = true -> value_mode type = ModeValue.
Proof.
  unfold text_type. simpl. intros H.
  repeat (apply orb_true_iff in H as [H|H]);
    try (apply String.eqb_eq in H; by subst); discriminate.
Qed.

Lemma one_line_strip v : one_line v = true -> strip_newlines v = v.
Proof.
  induction v as [|c v IH]; simpl; [done|]. unfold Json.code. intros H.
  apply andb_true_iff in H as [H Hv]. apply andb_true_iff in H as [Hlf Hcr].
  apply negb_true_iff in Hlf, Hcr. rewrite Hlf, Hcr. simpl. by rewrite IH.
Qed.

(** What a one-line text field gives for its value. *)
Lemma get_value_text el :
  is_input el = true -> text_type (input_type (el_attrs el)) = true ->
  get_value el
  = match el_value el with
    | Dirty w => Str w
    | _ => Str (strip_newlines (default "" (getAttribute (el_attrs el) "value")))
    end.
Proof.
  intros Hi Ht. unfold get_value, sanitize. by rewrite Hi, (text_type_mode _ Ht), Ht.
Qed.

Lemma syncAttrs_writes_value oldEl newAttrs v :
  is_input oldEl = true ->
  text_type (input_type newAttrs) = true ->
  input_type (el_attrs oldEl) = input_type newAttrs ->
  unique_names newAttrs ->
  one_line v = true ->
  getAttribute newAttrs "value" = Some v ->
  getAttribute (el_attrs oldEl) "value" <> Some v ->
  el_tag (syncAttrs oldEl newAttrs) = el_tag oldEl
  /\ get_value (syncAttrs oldEl newAttrs) = Str v.
Proof.
  intros Hi Htext Htype Hu Hline Hnew Hold.
  set (T := input_type newAttrs) in *.
  assert (Hc : calm T oldEl).
  { split; [|done]. unfold is_input in Hi. apply String.eqb_eq in Hi.
    unfold is_li. by rewrite Hi. }
  pose proof (typed_desired oldEl newAttrs Hu) as Ht. fold T in Ht.
  destruct (in_split _ _ (get_In _ _ _ Hnew)) as (l1 & l2 & Hsplit).
  pose proof Hu as Hu'. unfold unique_names in Hu'.
  rewrite Hsplit, fmap_app, fmap_cons in Hu'. simpl in Hu'.
  apply NoDup_app in Hu' as (_ & Hl1 & Hu'). apply NoDup_cons in Hu' as [Hl2 _].
  assert (Hn1 : ~ In "value" (fst <$> l1)).
  { intros Hin. apply list_elem_of_In in Hin. apply (Hl1 _ Hin). by left. }
  assert (Hn2 : ~ In "value" (fst <$> l2)) by (by rewrite <- list_elem_of_In).
  unfold syncAttrs.
  set (el0 := fold_left (remove_stale newAttrs) (el_attrs oldEl) oldEl).
  assert (H0c : calm T el0) by (by apply remove_stale_fold_calm).
  assert (H0t : el_tag el0 = el_tag oldEl) by (by apply remove_stale_tag).
  assert (H0a : getAttribute (el_attrs el0) "value" = getAttribute (el_attrs oldEl) "value").
  { apply remove_stale_kept; [done|]. unfold hasAttribute. by rewrite Hnew. }
  assert (Hty : forall el, el_tag el = el_tag oldEl -> typed T el newAttrs).
  { intros el Htag Hiel w Hw. by apply Ht. }
  rewrite Hsplit in Hty.
  assert (Hty1 : forall el, el_tag el = el_tag oldEl -> typed T el l1).
  { intros el Htag Hiel w Hw. apply (Hty el Htag Hiel). apply in_or_app. by left. }
  assert (Hty2 : forall el, el_tag el = el_tag oldEl -> typed T el (("value", v) :: l2)).
  { intros el Htag Hiel w Hw. apply (Hty el Htag Hiel). apply in_or_app. by right. }
  rewrite Hsplit, fold_left_app. cbn [fold_left].
  set (el1 := fold_left update_changed l1 el0).
  assert (H1c : calm T el1) by (apply update_changed_fold_calm; auto).
  assert (H1t : el_tag el1 = el_tag oldEl).
  { unfold el1. rewrite (update_changed_tag T); auto. }
  assert (H1a : getAttribute (el_attrs el1) "value" = getAttribute (el_attrs oldEl) "value").
  { unfold el1. rewrite (update_changed_absent T); auto. }
  set (el2 := update_changed el1 ("value", v)).
  destruct (update_changed_calm T el1 "value" v H1c) as (H2a & H2t & _ & H2c);
    [discriminate|]. fold el2 in H2a, H2t, H2c.
  assert (Hi_of : forall el, el_tag el = el_tag oldEl -> is_input el = true).
  { intros el Htag. unfold is_input in *. by rewrite Htag. }
  assert (H2g : get_value el2 = Str v).
  { assert (Hget : getAttribute (el_attrs el2) "value" = Some v).
    { rewrite H2a. destruct (opt_string_eqb _ _) eqn:E.
      - by apply opt_string_eqb_eq in E.
      - apply get_set_same. }
    assert (Hi2 : is_input el2 = true) by (apply Hi_of; congruence).
    assert (Ht2 : text_type (input_type (el_attrs el2)) = true).
    { destruct H2c as [_ H2c]. by rewrite (H2c Hi2). }
    rewrite (get_value_text el2 Hi2 Ht2), Hget. simpl.
    rewrite (one_line_strip v Hline).
    destruct (el_value el2) as [| |w] eqn:Ev2; try done.
    unfold el2, update_changed in Ev2.
    destruct (opt_string_eqb (getAttribute (el_attrs el1) "value") (Some v)) eqn:E.
    { apply opt_string_eqb_eq in E. congruence. }
    simpl in Ev2. rewrite (el_setAttribute_calm T) in Ev2 by (done || discriminate).
    set (el' := with_attrs el1 (setAttribute (el_attrs el1) "value" v)) in *.
    assert (Hi' : is_input el' = true) by (apply Hi_of; exact H1t).
    assert (Ht' : text_type (input_type (el_attrs el')) = true).
    { assert (Hc' : calm T el').
      { apply calm_with_attrs; [done|]. intros _. destruct H1c as [_ H1c].
        rewrite <- (H1c (Hi_of el1 H1t)). apply input_type_get.
        by apply get_set_other. }
      destruct Hc' as [_ Hc']. by rewrite (Hc' Hi'). }
    assert (Hh : has_value el' = true) by (unfold has_value; by rewrite Hi').
    rewrite Hh in Ev2. simpl in Ev2.
    rewrite (get_value_text el' Hi' Ht') in Ev2.
    destruct (el_value el') as [| |w'] eqn:Ev'.
    - simpl in Ev2. rewrite get_set_same in Ev2. simpl in Ev2.
      rewrite (one_line_strip v Hline), String.eqb_refl in Ev2. simpl in Ev2.
      unfold el' in Ev'. simpl in Ev'. congruence.
    - simpl in Ev2. rewrite get_set_same in Ev2. simpl in Ev2.
      rewrite (one_line_strip v Hline), String.eqb_refl in Ev2. simpl in Ev2.
      unfold el' in Ev'. simpl in Ev'. congruence.
    - simpl in Ev2. destruct (String.eqb w' v) eqn:Ew; simpl in Ev2.
      + apply String.eqb_eq in Ew. unfold el' in Ev'. simpl in Ev'. congruence.
      + unfold set_value, sanitize in Ev2.
        rewrite Hi', (text_type_mode _ Ht'), Ht' in Ev2. simpl in Ev2.
        rewrite (one_line_strip v Hline) in Ev2. congruence. }
  set (el3 := fold_left update_changed l2 el2).
  assert (H2t' : el_tag el2 = el_tag oldEl) by congruence.
  assert (Hty3 : typed T el2 l2).
  { intros Hiel w Hw. apply (Hty2 el2 H2t' Hiel). by right. }
  assert (H3t : el_tag el3 = el_tag el2) by (by apply (update_changed_tag T)).
  split; [congruence|]. rewrite <- H2g.
  apply get_value_ext; [done| | |].
  - by apply (update_changed_absent T).
  - pose proof (update_changed_fold_calm T l2 el2 H2c Hty3) as [_ H3c].
    destruct H2c as [_ H2c]. fold el3 in H3c.
    rewrite H3c, H2c; [done| |]; apply Hi_of; congruence.
  - apply (update_changed_value T); [done|done|].
    intros w Hw. exfalso. apply Hn2. by apply (in_map fst) in Hw.
Qed.

(** X6. A changed value reaches the text field: on a live [input] that is
    a one-line text field (the state of its [type] is [text], [search],
    [tel] or [password]) and that the desired element leaves in this state,
    when the desired element, whose attribute names are unique and such
    that [setAttribute] takes them as they are, declares a [value]
    attribute without line breaks that the live element does not have with
    that value, then after [patch] the element is such a text field still
    and reading [el.value] gives the declared value, whether or not the
    user had typed something else before. *)
Theorem patch_writes_changed_value
    (attrs : Attrs) (value : ValueProp) (oldCh : list Node)
    (newAttrs : Attrs) (newValue : ValueProp) (newCh : list Node) (v : string) :
  unique_names newAttrs ->
  simple_attrs newAttrs = true ->
  text_field attrs = true ->
  input_type newAttrs = input_type attrs ->
  one_line v = true ->
  getAttribute newAttrs "value" = Some v ->
  getAttribute attrs "value" <> Some v ->
  exists attrs' value' children',
    patch (Element "INPUT" attrs value oldCh) (Element "INPUT" newAttrs newValue newCh)
    = Element "INPUT" attrs' value' children'
    /\ text_field attrs' = true
    /\ get_value {| el_tag := "INPUT"; el_attrs := attrs'; el_value := value' |} = Str v.
Proof.
  intros Hu _ Hfield Htype Hline Hnew Hold. rewrite patch_same_tag. cbv zeta.
  set (old := {| el_tag := "INPUT"; el_attrs := attrs; el_value := value |}).
  set (el := syncAttrs old newAttrs).
  unfold text_field in Hfield. rewrite <- Htype in Hfield.
  destruct (syncAttrs_writes_value old newAttrs v) as [Ht Hg]; try done.
  fold el in Ht, Hg.
  exists (el_attrs el), (el_value el), (reconcileChildren oldCh newCh).
  split; [done|]. split.
  - unfold text_field, el.
    rewrite (input_type_get _ newAttrs); [done|].
    apply syncAttrs_attrs; [|done]. split; [done|]. intros _. by symmetry.
  - rewrite <- Hg. destruct el as [tag a w]. simpl in Ht. by subst tag.
Qed.

Lemma patch_writes_changed_value_witness :
  exists attrs' value' children',
    patch (Element "INPUT" [("type", "text"); ("value", "abc")] (Dirty "abcd") [])
      (Element "INPUT" [("value", "xyz"); ("type", "text")] Pristine [])
    = Element "INPUT" attrs' value' children'
    /\ text_field attrs' = true
    /\ get_value {| el_tag := "INPUT"; el_attrs := attrs'; el_value := value' |} = Str "xyz".
Proof.
  apply (patch_writes_changed_value [("type", "text"); ("value", "abc")]
           (Dirty "abcd") [] [("value", "xyz"); ("type", "text")] Pristine [] "xyz").
  - apply (bool_decide_unpack _). vm_compute. exact I.
  - reflexivity.
  - reflexivity.
  - reflexivity.
  - reflexivity.
  - reflexivity.
  - discriminate.
Defined.

(** *** The attribute list after [syncAttrs] *)




Lemma unique_filter (P : string * string -> bool) (attrs : Attrs) :
  unique_names attrs -> unique_names (List.filter P attrs).
Proof.
  unfold unique_names. induction attrs as [|a attrs IH]; simpl; [done|].
  intros Hnd. apply NoDup_cons in Hnd as [Hnotin Hnd].
  destruct (P a); [|by apply IH].
  rewrite fmap_cons. apply NoDup_cons. split; [|by apply IH].
  intros Hin. apply Hnotin.
  apply list_elem_of_fmap in Hin as (b & -> & Hb).
  apply list_elem_of_fmap. exists b. split; [done|].
  apply list_elem_of_In. apply list_elem_of_In in Hb.
  by apply filter_In in Hb as [Hb _].
Qed.


Lemma setAttribute_absent attrs n v :
  hasAttribute attrs n = false -> setAttribute attrs n v = attrs ++ [(n, v)].
Proof.
  unfold hasAttribute. induction attrs as [|[m w] attrs IH]; simpl; [done|].
  destruct (String.eqb m n); [done|]. intros H. by rewrite IH.
Qed.

Lemma setAttribute_present attrs n v :
  unique_names attrs -> hasAttribute attrs n = true ->
  setAttribute attrs n v
  = (fun a => if String.eqb (fst a) n then (n, v) else a) <$> attrs.
Proof.
  unfold unique_names, hasAttribute.
  induction attrs as [|[m w] attrs IH]; simpl; [done|].
  intros Hnd Hhas. apply NoDup_cons in Hnd as [Hnotin Hnd].
  destruct (String.eqb m n) eqn:E.
  - apply String.eqb_eq in E. subst m. f_equal.
    symmetry. etrans; [|apply list_fmap_id].
    apply list_fmap_ext. intros i [k x] Hk. simpl.
    destruct (String.eqb k n) eqn:Ek; [|done].
    apply String.eqb_eq in Ek. subst k. exfalso. apply Hnotin.
    apply list_elem_of_fmap. exists (n, x). split; [done|].
    by apply list_elem_of_lookup_2 in Hk.
  - f_equal. by apply IH.
Qed.



Lemma names_update (attrs : Attrs) n v :
  fst <$> ((fun a => if String.eqb (fst a) n then (n, v) else a) <$> attrs)
  = fst <$> attrs.
Proof.
  rewrite <- list_fmap_compose. apply list_fmap_ext. intros i [k x] _. simpl.
  destruct (String.eqb k n) eqn:E; [|done]. apply String.eqb_eq in E. by subst.
Qed.



Lemma has_In (attrs : Attrs) a : In a attrs -> hasAttribute attrs (fst a) = true.
Proof.
  destruct a as [n v]. intros Hin. apply In_get_some in Hin as [w Hw].
  unfold hasAttribute. simpl. by rewrite Hw.
Qed.

Lemma not_has_not_In (attrs : Attrs) name :
  hasAttribute attrs name = false -> name ∉ (fst <$> attrs).
Proof.
  intros Hhas Hin. apply list_elem_of_fmap in Hin as (a & -> & Ha).
  apply list_elem_of_In, has_In in Ha. congruence.
Qed.




(** *** Unique attribute names are kept *)

Lemma setAttribute_unique attrs n v :
  unique_names attrs -> unique_names (setAttribute attrs n v).
Proof.
  intros Hu. destruct (hasAttribute attrs n) eqn:Hhas.
  - rewrite setAttribute_present by done. unfold unique_names.
    by rewrite names_update.
  - rewrite setAttribute_absent by done. unfold unique_names.
    rewrite fmap_app. simpl. apply NoDup_app. split; [exact Hu|]. split.
    + intros k Hk Hk'. apply list_elem_of_singleton in Hk'. subst k.
      by apply (not_has_not_In _ _ Hhas).
    + apply NoDup_singleton.
Qed.

Lemma retype_unique old attrs :
  unique_names attrs -> unique_names (el_attrs (retype old attrs)).
Proof.
  intros Hu. unfold retype. repeat case_match; simpl; try done;
    by apply setAttribute_unique.
Qed.

Lemma el_setAttribute_unique el n v :
  unique_names (el_attrs el) -> unique_names (el_attrs (el_setAttribute el n v)).
Proof.
  intros Hu. unfold el_setAttribute.
  destruct (_ && _); [apply retype_unique|simpl]; by apply setAttribute_unique.
Qed.

Lemma el_removeAttribute_unique el n :
  unique_names (el_attrs el) -> unique_names (el_attrs (el_removeAttribute el n)).
Proof.
  intros Hu. unfold el_removeAttribute.
  destruct (_ && _); [apply retype_unique|simpl]; by apply unique_filter.
Qed.

Lemma set_value_unique el v :
  unique_names (el_attrs el) -> unique_names (el_attrs (set_value el v)).
Proof.
  intros Hu. unfold set_value. repeat case_match; simpl; try done;
    by apply setAttribute_unique.
Qed.

Lemma remove_stale_unique newAttrs l el :
  unique_names (el_attrs el) ->
  unique_names (el_attrs (fold_left (remove_stale newAttrs) l el)).
Proof.
  revert el. induction l as [|a l IH]; intros el Hu; simpl; [done|].
  apply IH. unfold remove_stale. destruct (negb _); [|done].
  by apply el_removeAttribute_unique.
Qed.

Lemma update_changed_unique l el :
  unique_names (el_attrs el) ->
  unique_names (el_attrs (fold_left update_changed l el)).
Proof.
  revert el. induction l as [|[n v] l IH]; intros el Hu; cbn [fold_left]; [done|].
  apply IH. unfold update_changed. destruct (negb _); [|done].
  destruct (_ && _).
  - by apply set_value_unique, el_setAttribute_unique.
  - by apply el_setAttribute_unique.
Qed.

(** Whatever the element is, and whatever the host does on the writes. *)
Lemma syncAttrs_unique oldEl newAttrs :
  unique_names (el_attrs oldEl) ->
  unique_names (el_attrs (syncAttrs oldEl newAttrs)).
Proof.
  intros Hu. unfold syncAttrs. by apply update_changed_unique, remove_stale_unique.
Qed.

Lemma patch_well_formed n :
  well_formed n = true -> forall o, well_formed o = true -> well_formed (patch o n) = true.
Proof.
  induction n as [data|tag attrs value children IH|kind data] using Node_ind;
    intros Hwf o Ho.
  - destruct o as [odata|otag oattrs ovalue och|okind odata]; simpl.
    + by destruct (String.eqb odata data).
    + done.
    + by destruct okind.
  - destruct o as [odata|otag oattrs ovalue och|okind odata]; try done.
    + simpl. destruct (String.eqb otag tag) eqn:E; simpl; [|done].
      simpl in Hwf, Ho.
      apply andb_true_iff in Hwf as [Hattrs Hwf].
      apply andb_true_iff in Ho as [Hoattrs Ho].
      apply bool_decide_eq_true in Hattrs. apply bool_decide_eq_true in Hoattrs.
      apply andb_true_iff. split.
      * apply bool_decide_eq_true.
        by apply (syncAttrs_unique
                    {| el_tag := otag; el_attrs := oattrs; el_value := ovalue |}).
      * clear Hattrs Hoattrs. revert och Ho IH Hwf.
        induction children as [|c rest IHrest]; intros och Ho IH Hwf; [done|].
        simpl in Hwf. apply andb_true_iff in Hwf as [Hwfc Hwfr].
        apply Forall_cons in IH as [IHc IHr].
        destruct och as [|oc orest]; simpl.
        -- rewrite cloneNode_deep, Hwfc. simpl. by apply (IHrest []).
        -- simpl in Ho. apply andb_true_iff in Ho as [Hoc Hor].
           rewrite IHc by done. simpl. by apply IHrest.
    + by destruct okind.
  - destruct o as [odata|otag oattrs ovalue och|okind odata];
      destruct kind; try done; by destruct okind.
Qed.

(** X8. Unique attribute names are an invariant of reconciliation: when
    every element of the live children and of the desired children has
    unique attribute names, so has every element of the live children after
    [reconcileChildren]. *)
Theorem reconcileChildren_well_formed (oldCh newCh : list Node) :
  forallb well_formed oldCh = true ->
  forallb well_formed newCh = true ->
  forallb well_formed (reconcileChildren oldCh newCh) = true.
Proof.
  rewrite reconcileChildren_align.
  revert oldCh. induction newCh as [|n rest IH]; intros oldCh Ho Hn; [done|].
  simpl in Hn. apply andb_true_iff in Hn as [Hn Hrest].
  destruct oldCh as [|o oldRest]; simpl.
  - rewrite cloneNode_deep, Hn. simpl. by apply (IH []).
  - simpl in Ho. apply andb_true_iff in Ho as [Ho Hor].
    rewrite patch_well_formed by done. simpl. by apply IH.
Qed.

Lemma reconcileChildren_well_formed_witness :
  forallb well_formed (reconcileChildren live_example shorter_example) = true.
Proof.
  apply (reconcileChildren_well_formed live_example shorter_example); reflexivity.
Defined.

End DiffExtra.
(** ** lib/act.js, further properties *)

Module ActExtra.
Import Dom DomFacts Json Act ActAux ActProofs.

#[local] Arguments cleanupListeners : simpl never.
#[local] Arguments rerender : simpl never.
#[local] Arguments bindEvents : simpl never.

(** *** State *)

Lemma scheduled_globalState st :
  globalState (if mounted st then scheduleRerender st else st) = globalState st.
Proof.
  destruct (mounted st); [|done]. unfold scheduleRerender.
  by destruct (negb (rerenderScheduled st)).
Qed.

Lemma scheduled_locals st :
  locals (if mounted st then scheduleRerender st else st) = locals st.
Proof.
  destruct (mounted st); [|done]. unfold scheduleRerender.
  by destruct (negb (rerenderScheduled st)).
Qed.

(** X9. The global state is a store: under a key that is none of the
    names every object inherits, [getState] returns what the last
    [setState] on that key stored and [undefined] after [deleteState]; and
    such a write or deletion leaves what is read under every other key as it
    was. *)
Theorem globalState_round_trip (st : App) (key other : string) (value : Value) :
  inherited key = false ->
  getState key (setState key value st) = value
  /\ getState key (deleteState key st) = VUndefined
  /\ (other <> key ->
      getState other (setState key value st) = getState other st
      /\ getState other (deleteState key st) = getState other st).
Proof.
  intros _. unfold getState, setState, deleteState. cbv zeta.
  rewrite !scheduled_globalState. simpl. split_and!.
  - by rewrite lookup_insert_eq.
  - by rewrite lookup_delete_eq.
  - intros Hne. by rewrite lookup_insert_ne, lookup_delete_ne.
Qed.

Lemma globalState_round_trip_witness :
  let st := run [OSetState "theme" (VString "dark")] (createApp []) in
  getState "count" (setState "count" (VNumber 1) st) = VNumber 1
  /\ getState "count" (deleteState "count" st) = VUndefined
  /\ ("theme" <> "count" ->
      getState "theme" (setState "count" (VNumber 1) st) = getState "theme" st
      /\ getState "theme" (deleteState "count" st) = getState "theme" st).
Proof.
  refine (globalState_round_trip (run [OSetState "theme" (VString "dark")] (createApp []))
            "count" "theme" (VNumber 1) _).
  vm_compute. reflexivity.
Defined.

Lemma scope_setState_locals sid sc key value st :
  locals st !! sid = Some sc ->
  locals (scope_setState sid key value st)
  = <[sid := {| sc_name := sc_name sc; localState := <[key := value]> (localState sc) |}]>
      (locals st)
  /\ globalState (scope_setState sid key value st) = globalState st.
Proof.
  intros Hsc. unfold scope_setState. rewrite Hsc. cbv zeta.
  by rewrite scheduled_locals, scheduled_globalState.
Qed.

(** X10. Local state is private to its scope object: what is written
    through a scope object under a key that is none of the names every
    object inherits is read back through it, [scope.all()] is the local
    state with that entry, the key reads [undefined] once deleted, and
    neither the local state of any other scope object nor the global state
    changes; a global [setState] under such a key changes no local state;
    [scope.getGlobal] reads the global state. *)
Theorem scope_state_isolated
    (st : App) (sid sid' : nat) (sc : Scope) (key k : string) (value : Value) :
  inherited key = false ->
  locals st !! sid = Some sc ->
  sid' <> sid ->
  let st' := scope_setState sid key value st in
  scope_getState sid key st' = value
  /\ scope_all sid st' = <[key := value]> (scope_all sid st)
  /\ scope_getState sid key (scope_deleteState sid key st') = VUndefined
  /\ scope_getState sid' k st' = scope_getState sid' k st
  /\ getState k st' = getState k st
  /\ scope_getGlobal sid k st' = getState k st
  /\ scope_getState sid k (setState key value st) = scope_getState sid k st.
Proof.
  intros _ Hsc Hne st'.
  destruct (scope_setState_locals sid sc key value st Hsc) as [HL HG]. fold st' in HL, HG.
  unfold scope_getState, scope_all, scope_getGlobal, getState, scope_deleteState.
  rewrite HL, HG, Hsc, !lookup_insert_eq. simpl. rewrite lookup_insert_eq. simpl.
  rewrite lookup_insert_eq. simpl.
  rewrite lookup_delete_eq, lookup_insert_ne by done. split_and!; try done.
  unfold setState. cbv zeta. rewrite scheduled_locals. simpl. by rewrite Hsc.
Qed.

Lemma scope_state_isolated_witness :
  let st := run counter_setup (createApp []) in
  let st' := scope_setState 0 "seconds" (VNumber 5) st in
  scope_getState 0 "seconds" st' = VNumber 5
  /\ scope_all 0 st' = <["seconds" := VNumber 5]> (scope_all 0 st)
  /\ scope_getState 0 "seconds" (scope_deleteState 0 "seconds" st') = VUndefined
  /\ scope_getState 1 "seconds" st' = scope_getState 1 "seconds" st
  /\ getState "seconds" st' = getState "seconds" st
  /\ scope_getGlobal 0 "seconds" st' = getState "seconds" st
  /\ scope_getState 0 "seconds" (setState "seconds" (VNumber 5) st)
     = scope_getState 0 "seconds" st.
Proof.
  refine (scope_state_isolated (run counter_setup (createApp [])) 0 1
            {| sc_name := "timer"; localState := {["seconds" := VNumber 0]} |}
            "seconds" "seconds" (VNumber 5) _ _ _);
    vm_compute; first [reflexivity | discriminate].
Defined.

(** *** Scopes *)

(** X11. A scope created under a name that is not registered, and is none
    of the names every object inherits, is a new object: after any run, it
    is none of the scope objects created before (destroyed ones included),
    every one of which keeps its state; its local state is empty, so that it
    reads [undefined] under every key the object does not inherit;
    [getScope] finds it under the name without a warning; and no warning is
    logged for the creation. *)
Theorem createScope_fresh (content : list Node) (ops : list Op) (name : string) :
  let st := run ops (createApp content) in
  inherited name = false ->
  scopes st !! name = None ->
  let scope := fst (createScope name st) in
  let st1 := snd (createScope name st) in
  getScope name st1 = (Some scope, st1)
  /\ scope_all scope st1 = ∅
  /\ (forall key, inherited key = false -> scope_getState scope key st1 = VUndefined)
  /\ (forall sid sc, locals st !! sid = Some sc ->
        sid <> scope /\ locals st1 !! sid = Some sc)
  /\ console st1 = console st.
Proof.
  intros st _ Hnone scope st1.
  assert (HI : Inv st) by apply run_Inv, Inv_createApp.
  unfold scope, st1, createScope. rewrite Hnone. simpl.
  unfold getScope, scope_all, scope_getState. simpl.
  rewrite !lookup_insert_eq. simpl. split_and!; try done.
  intros sid sc Hsid. pose proof (inv_fresh _ HI _ _ Hsid) as Hlt.
  split; [lia|]. rewrite lookup_insert_ne by lia. done.
Qed.

Lemma createScope_fresh_witness :
  let st := run counter_setup (createApp []) in
  let scope := fst (createScope "todo" st) in
  let st1 := snd (createScope "todo" st) in
  getScope "todo" st1 = (Some scope, st1)
  /\ scope_all scope st1 = ∅
  /\ (forall key, inherited key = false -> scope_getState scope key st1 = VUndefined)
  /\ (forall sid sc, locals st !! sid = Some sc ->
        sid <> scope /\ locals st1 !! sid = Some sc)
  /\ console st1 = console st.
Proof.
  refine (createScope_fresh [] counter_setup "todo" _ _); vm_compute; reflexivity.
Defined.

Lemma prefix_append (a b c : string) :
  String.prefix (a +:+ b) (a +:+ c) = String.prefix b c.
Proof.
  induction a as [|x a IH]; [done|]. simpl.
  destruct (ascii_dec x x); [done|congruence].
Qed.

Lemma prefix_inv (p k : string) :
  String.prefix p k = true -> exists r, k = p +:+ r.
Proof.
  revert k. induction p as [|x p IH]; intros k; simpl.
  - eauto.
  - destruct k as [|y k]; simpl; [done|]. destruct (ascii_dec x y) as [->|]; [|done].
    intros H. apply IH in H as [r ->]. eauto.
Qed.

Lemma append_colon (a r : string) : (a +:+ ":") +:+ r = handler_key a r.
Proof.
  unfold handler_key. induction a as [|x a IH]; [done|].
  change (String x ((a +:+ ":") +:+ r) = String x (a +:+ ":" +:+ r)). by rewrite IH.
Qed.

Lemma no_colon_handler_key a r : no_colon (handler_key a r) = false.
Proof.
  unfold handler_key. induction a as [|x a IH]; [done|].
  change (negb (Ascii.eqb x ":") && no_colon (a +:+ ":" +:+ r) = false).
  rewrite IH. apply andb_false_r.
Qed.

Lemma lookup_filter_key {A} (P : string -> bool) (m : gmap string A) (k : string) :
  filter (fun kv => P (fst kv) = true) m !! k = if P k then m !! k else None.
Proof.
  destruct (P k) eqn:HP.
  - destruct (m !! k) as [x|] eqn:Hk.
    + by apply map_lookup_filter_Some.
    + apply map_lookup_filter_None. by left.
  - apply map_lookup_filter_None. right. intros x _. simpl. congruence.
Qed.

Lemma scope_destroy_fields sid sc st :
  locals st !! sid = Some sc ->
  let st' := scope_destroy sid st in
  (forall key, handlers st' !! key
               = if String.prefix (sc_name sc +:+ ":") key then None
                 else handlers st !! key)
  /\ locals st' = <[sid := {| sc_name := sc_name sc; localState := ∅ |}]> (locals st)
  /\ scopes st' = delete (sc_name sc) (scopes st)
  /\ globalState st' = globalState st /\ console st' = console st
  /\ next_id st' = next_id st.
Proof.
  intros Hsc. unfold scope_destroy. rewrite Hsc. simpl. split_and!; try done.
  intros key.
  rewrite (lookup_filter_key (fun k => negb (String.prefix (sc_name sc +:+ ":") k))).
  by destruct (String.prefix _ key).
Qed.

(** X12. [scope.destroy()] cleans up after the scope: every handler
    registered under a key that starts with the scope's name and a colon is
    gone from the registry, so every handler the scope registered is; the
    local state is empty, so that the scope object reads [undefined] under
    every key it does not inherit; and the name is no longer registered, so
    [getScope] gives [null] and logs its warning.  The scope's name is, as
    the name of every scope that was created, none of those every object
    inherits. *)
Theorem scope_destroy_cleans (st : App) (sid : nat) (sc : Scope) :
  locals st !! sid = Some sc ->
  inherited (sc_name sc) = false ->
  let st' := scope_destroy sid st in
  (forall key, String.prefix (sc_name sc +:+ ":") key = true -> handlers st' !! key = None)
  /\ (forall h, handlers st' !! scope_handler sid h st = None)
  /\ (forall key, inherited key = false -> scope_getState sid key st' = VUndefined)
  /\ scope_all sid st' = ∅
  /\ getScope (sc_name sc) st'
     = (None, console_warn (scope_missing_warning (sc_name sc)) st').
Proof.
  intros Hsc _ st'.
  destruct (scope_destroy_fields sid sc st Hsc) as (HH & HL & HS & _). fold st' in HH, HL, HS.
  split_and!.
  - intros key Hp. by rewrite HH, Hp.
  - intros h. unfold scope_handler. rewrite Hsc, HH.
    unfold handler_key. rewrite prefix_append. simpl. by destruct h.
  - intros key _. unfold scope_getState. by rewrite HL, lookup_insert_eq.
  - unfold scope_all. by rewrite HL, lookup_insert_eq.
  - unfold getScope. by rewrite HS, lookup_delete_eq.
Qed.

Lemma scope_destroy_cleans_witness :
  let st := run (counter_setup ++ [OScopeOn 0 "start" 7]) (createApp []) in
  let st' := scope_destroy 0 st in
  (forall key, String.prefix ("timer" +:+ ":") key = true -> handlers st' !! key = None)
  /\ (forall h, handlers st' !! scope_handler 0 h st = None)
  /\ (forall key, inherited key = false -> scope_getState 0 key st' = VUndefined)
  /\ scope_all 0 st' = ∅
  /\ getScope "timer" st' = (None, console_warn (scope_missing_warning "timer") st').
Proof.
  refine (scope_destroy_cleans (run (counter_setup ++ [OScopeOn 0 "start" 7]) (createApp []))
            0 {| sc_name := "timer"; localState := {["seconds" := VNumber 0]} |} _ _);
    vm_compute; reflexivity.
Defined.

(** X13. [scope.destroy()] takes nothing from others: handlers registered
    under names without a colon (global handlers), the handlers of every
    scope whose colon-free name differs from this scope's colon-free name,
    the local state of every other scope object, every other entry of the
    registry and the global state stay as they were. *)
Theorem scope_destroy_keeps_others (st : App) (sid : nat) (sc : Scope) :
  locals st !! sid = Some sc ->
  no_colon (sc_name sc) = true ->
  let st' := scope_destroy sid st in
  (forall key, no_colon key = true -> handlers st' !! key = handlers st !! key)
  /\ (forall name' h, no_colon name' = true -> name' <> sc_name sc ->
        handlers st' !! handler_key name' h = handlers st !! handler_key name' h)
  /\ (forall sid', sid' <> sid -> locals st' !! sid' = locals st !! sid')
  /\ (forall name', name' <> sc_name sc -> scopes st' !! name' = scopes st !! name')
  /\ globalState st' = globalState st.
Proof.
  intros Hsc Hname st'.
  destruct (scope_destroy_fields sid sc st Hsc) as (HH & HL & HS & HG & _).
  fold st' in HH, HL, HS, HG.
  split_and!.
  - intros key Hkey. rewrite HH.
    destruct (String.prefix _ key) eqn:Hp; [|done].
    apply prefix_inv in Hp as [r ->]. rewrite append_colon in Hkey.
    by rewrite no_colon_handler_key in Hkey.
  - intros name' h Hname' Hne. rewrite HH.
    destruct (String.prefix _ _) eqn:Hp; [|done].
    apply prefix_inv in Hp as [r Hr]. rewrite append_colon in Hr.
    apply handler_key_inj in Hr as [? _]; done.
  - intros sid' Hne. by rewrite HL, lookup_insert_ne.
  - intros name' Hne. by rewrite HS, lookup_delete_ne.
  - done.
Qed.

Lemma scope_destroy_keeps_others_witness :
  let st := run (counter_setup ++ [OScopeOn 0 "start" 7]) (createApp []) in
  let st' := scope_destroy 0 st in
  (forall key, no_colon key = true -> handlers st' !! key = handlers st !! key)
  /\ (forall name' h, no_colon name' = true -> name' <> "timer" ->
        handlers st' !! handler_key name' h = handlers st !! handler_key name' h)
  /\ (forall sid', sid' <> 0 -> locals st' !! sid' = locals st !! sid')
  /\ (forall name', name' <> "timer" -> scopes st' !! name' = scopes st !! name')
  /\ globalState st' = globalState st.
Proof.
  refine (scope_destroy_keeps_others
            (run (counter_setup ++ [OScopeOn 0 "start" 7]) (createApp []))
            0 {| sc_name := "timer"; localState := {["seconds" := VNumber 0]} |} _ _);
    vm_compute; reflexivity.
Defined.

(** X14. A scope created again after [scope.destroy()] is another object:
    after any run, destroying the scope registered under a name (none of
    those every object inherits) and creating one under the same name
    gives, without a warning, a new scope object with empty state, which
    [getScope] then returns; a write through the old reference, under a key
    the object does not inherit, is not seen through the new one; and
    [destroy()] through the old reference takes the name out of the
    registry again. *)
Theorem createScope_after_destroy
    (content : list Node) (ops : list Op) (name : string) (sid : nat) :
  let st := run ops (createApp content) in
  inherited name = false ->
  scopes st !! name = Some sid ->
  let st1 := scope_destroy sid st in
  let scope := fst (createScope name st1) in
  let st2 := snd (createScope name st1) in
  scope <> sid
  /\ scope_all scope st2 = ∅
  /\ console st2 = console st
  /\ fst (getScope name st2) = Some scope
  /\ (forall key value,
        inherited key = false ->
        scope_getState scope key (scope_setState sid key value st2) = VUndefined)
  /\ fst (getScope name (scope_destroy sid st2)) = None.
Proof.
  intros st _ Hreg st1 scope st2.
  assert (HI : Inv st) by apply run_Inv, Inv_createApp.
  destruct (inv_registry _ HI _ _ Hreg) as (sc & Hsc & Hname).
  pose proof (inv_fresh _ HI _ _ Hsc) as Hlt.
  destruct (scope_destroy_fields sid sc st Hsc) as (_ & HL & HS & _ & HC & HN).
  fold st1 in HL, HS, HC, HN. rewrite Hname in HL, HS.
  assert (Hnone : scopes st1 !! name = None) by (by rewrite HS, lookup_delete_eq).
  assert (Hscope : scope = next_id st).
  { unfold scope, createScope. by rewrite Hnone. }
  assert (HL2 : locals st2 = <[next_id st := {| sc_name := name; localState := ∅ |}]>
                               (locals st1)).
  { unfold st2, createScope. rewrite Hnone. simpl. by rewrite HN. }
  assert (HS2 : scopes st2 = <[name := next_id st]> (scopes st1)).
  { unfold st2, createScope. rewrite Hnone. simpl. by rewrite HN. }
  assert (HC2 : console st2 = console st1).
  { unfold st2, createScope. by rewrite Hnone. }
  assert (Hold : locals st2 !! sid = Some {| sc_name := name; localState := ∅ |}).
  { rewrite HL2, lookup_insert_ne by lia. by rewrite HL, lookup_insert_eq. }
  rewrite Hscope. split_and!.
  - lia.
  - unfold scope_all. by rewrite HL2, lookup_insert_eq.
  - congruence.
  - unfold getScope. by rewrite HS2, lookup_insert_eq.
  - intros key value _.
    destruct (scope_setState_locals sid _ key value st2 Hold) as [HL3 _].
    unfold scope_getState. rewrite HL3, lookup_insert_ne by lia.
    by rewrite HL2, lookup_insert_eq.
  - destruct (scope_destroy_fields sid _ st2 Hold) as (_ & _ & HS3 & _).
    unfold getScope. simpl in HS3. by rewrite HS3, lookup_delete_eq.
Qed.

Lemma createScope_after_destroy_witness :
  let st := run counter_setup (createApp []) in
  let st1 := scope_destroy 0 st in
  let scope := fst (createScope "timer" st1) in
  let st2 := snd (createScope "timer" st1) in
  scope <> 0
  /\ scope_all scope st2 = ∅
  /\ console st2 = console st
  /\ fst (getScope "timer" st2) = Some scope
  /\ (forall key value,
        inherited key = false ->
        scope_getState scope key (scope_setState 0 key value st2) = VUndefined)
  /\ fst (getScope "timer" (scope_destroy 0 st2)) = None.
Proof.
  refine (createScope_after_destroy [] counter_setup "timer" 0 _ _);
    vm_compute; reflexivity.
Defined.

(** *** Fields that calls leave alone *)

(** What [scheduleRerender] touches is the flag and the queue. *)
Lemma scheduled_fields st :
  let st' := if mounted st then scheduleRerender st else st in
  timers st' = timers st /\ intervals st' = intervals st /\ timeouts st' = timeouts st
  /\ next_id st' = next_id st /\ mounted st' = mounted st /\ renderFn st' = renderFn st
  /\ renders st' = renders st /\ container st' = container st
  /\ activeListeners st' = activeListeners st /\ attached st' = attached st
  /\ console st' = console st.
Proof.
  cbv zeta. destruct (mounted st) eqn:E; [|done]. unfold scheduleRerender.
  by destruct (negb (rerenderScheduled st)).
Qed.

Lemma run_microtask_fields t st :
  let st' := run_microtask t st in
  same_core (set_rerenderScheduled false st) st'
  /\ (renderFn st = None ->
      st' = set_rerenderScheduled false st).
Proof.
  cbv zeta. unfold run_microtask.
  destruct (rerender (set_rerenderScheduled false st)) as [s out] eqn:E.
  pose proof (rerender_core _ _ _ E) as C. split.
  - destruct out; [done|]. destruct C. by constructor.
  - intros Hfn. rewrite rerender_unmounted in E by done. by injection E as <- <-.
Qed.

Lemma checkpoint_fields st :
  timers (checkpoint st) = timers st /\ intervals (checkpoint st) = intervals st
  /\ timeouts (checkpoint st) = timeouts st /\ next_id (checkpoint st) = next_id st
  /\ mounted (checkpoint st) = mounted st /\ renderFn (checkpoint st) = renderFn st
  /\ microtasks (checkpoint st) = [].
Proof.
  unfold checkpoint.
  change (timers st) with (timers (set_microtasks [] st)).
  change (intervals st) with (intervals (set_microtasks [] st)).
  change (timeouts st) with (timeouts (set_microtasks [] st)).
  change (next_id st) with (next_id (set_microtasks [] st)).
  change (mounted st) with (mounted (set_microtasks [] st)).
  change (renderFn st) with (renderFn (set_microtasks [] st)).
  assert (H0 : microtasks (set_microtasks [] st) = []) by done.
  revert H0. generalize (set_microtasks [] st).
  induction (microtasks st) as [|t ts IH]; intros s Hs; [done|].
  cbn [fold_left].
  destruct (run_microtask_fields t s) as [[] _]. simpl in *.
  destruct (IH (run_microtask t s)) as (? & ? & ? & ? & ? & ? & ?); [congruence|].
  split_and!; congruence.
Qed.

(** With no render function, the queued closures only reset the flag. *)
Lemma checkpoint_unmounted st :
  renderFn st = None ->
  checkpoint st
  = set_rerenderScheduled
      (match microtasks st with [] => rerenderScheduled st | _ :: _ => false end)
      (set_microtasks [] st).
Proof.
  intros Hfn. unfold checkpoint.
  assert (H0 : renderFn (set_microtasks [] st) = None) by done.
  assert (Hgen : forall ts s, renderFn s = None ->
            fold_left (fun st t => run_microtask t st) ts s
            = set_rerenderScheduled
                (match ts with [] => rerenderScheduled s | _ :: _ => false end) s).
  { induction ts as [|t ts IH]; intros s Hs; simpl; [by destruct s|].
    destruct (run_microtask_fields t s) as [_ ->]; [|done].
    rewrite IH by done. by destruct ts. }
  rewrite Hgen by done. by destruct (microtasks st).
Qed.

(** The state [destroy] leaves, with the timers that are left. *)
Lemma destroy_exact st :
  Inv st ->
  exists L H T,
    destroy st
    = (wiped (set_scopes ∅ (set_locals L (set_handlers H
         (set_timeouts ∅ (set_intervals ∅ (set_timers T
            (set_activeListeners [] (set_attached []
               (set_renderFn None (set_mounted false st)))))))))),
       Returned tt)
    /\ forall id, T !! id
                  = if decide (id ∈ intervals st \/ id ∈ timeouts st) then None
                    else timers st !! id.
Proof.
  intros [Hreg Hfresh Htim Hlis Hgen].
  destruct (torn_eq st Hlis) as (T & Etorn & HT).
  rewrite destroy_unfold, Etorn.
  match goal with |- context [for_each _ _ ?s] => set (st1 := s) end.
  destruct (destroy_scopes_loop (fst <$> map_to_list (scopes st1)) st1)
    as (S & L & H & E & HS & HL).
  { apply NoDup_fst_map_to_list. }
  { intros n Hn. apply list_elem_of_fmap in Hn as ([n' sid] & -> & Hn).
    apply elem_of_map_to_list in Hn. simpl in *.
    destruct (Hreg n' sid Hn) as (sc & ? & ?). eauto. }
  assert (S = ∅) as ->.
  { apply map_eq. intros n. rewrite HS, lookup_empty.
    destruct (decide _) as [|Hnotin]; [done|].
    destruct (scopes st1 !! n) as [sid|] eqn:Hn; [|done].
    exfalso. apply Hnotin. apply list_elem_of_fmap. exists (n, sid).
    split; [done|]. by apply elem_of_map_to_list. }
  exists L, H, T. rewrite E. split; [reflexivity|exact HT].
Qed.

(** *** Timers *)

Lemma fresh_shrink st st' :
  (forall id t, timers st' !! id = Some t -> timers st !! id = Some t) ->
  (forall id, id ∈ intervals st' -> id ∈ intervals st) ->
  (forall id, id ∈ timeouts st' -> id ∈ timeouts st) ->
  next_id st <= next_id st' ->
  timers_fresh st -> timers_fresh st'.
Proof.
  intros HT HI HO Hn [F1 F2 F3 F4]. constructor.
  - intros id t Ht. apply HT, F1 in Ht. lia.
  - intros id Hid. apply HI, F2 in Hid. lia.
  - intros id Hid. apply HO, F3 in Hid. lia.
  - intros id t Ht [Hid|Hid]; apply (F4 id t); auto.
Qed.

Lemma fresh_transfer st st' :
  timers st' = timers st -> intervals st' = intervals st ->
  timeouts st' = timeouts st -> next_id st <= next_id st' ->
  timers_fresh st -> timers_fresh st'.
Proof.
  intros E1 E2 E3 Hn. apply fresh_shrink; rewrite ?E1, ?E2, ?E3; done.
Qed.

Lemma fresh_createApp content : timers_fresh (createApp content).
Proof.
  constructor; simpl; intros id; try set_solver; intros t; by rewrite lookup_empty.
Qed.

Lemma fresh_set_timer k helper st :
  timers_fresh st ->
  timers_fresh (snd (host_setTimer k helper st))
  /\ timers st !! next_id st = None
  /\ (next_id st ∉ intervals st) /\ (next_id st ∉ timeouts st).
Proof.
  intros [F1 F2 F3 F4].
  assert (Hn : timers st !! next_id st = None).
  { destruct (timers st !! next_id st) as [t|] eqn:E; [|done]. apply F1 in E. lia. }
  assert (Hi : next_id st ∉ intervals st) by (intros H; apply F2 in H; lia).
  assert (Ho : next_id st ∉ timeouts st) by (intros H; apply F3 in H; lia).
  split; [|done]. constructor; simpl.
  - intros id t. destruct (decide (id = next_id st)) as [->|Hne]; [lia|].
    rewrite lookup_insert_ne by done. intros Ht. apply F1 in Ht. lia.
  - intros id Hid. apply F2 in Hid. lia.
  - intros id Hid. apply F3 in Hid. lia.
  - intros id t. destruct (decide (id = next_id st)) as [->|Hne].
    + intros _ [?|?]; done.
    + rewrite lookup_insert_ne by done. apply F4.
Qed.

Lemma fresh_safeSetInterval st :
  timers_fresh st -> timers_fresh (snd (safeSetInterval st)).
Proof.
  intros [F1 F2 F3 F4]. constructor; simpl.
  - intros id t. destruct (decide (id = next_id st)) as [->|Hne]; [lia|].
    rewrite lookup_insert_ne by done. intros Ht. apply F1 in Ht. lia.
  - intros id [->%elem_of_singleton|Hid]%elem_of_union; [lia|]. apply F2 in Hid. lia.
  - intros id Hid. apply F3 in Hid. lia.
  - intros id t. destruct (decide (id = next_id st)) as [->|Hne].
    + rewrite lookup_insert_eq. by intros [= <-].
    + rewrite lookup_insert_ne by done. intros Ht [Hid|Hid]; apply (F4 id t); auto.
      left. set_solver.
Qed.

Lemma fresh_safeSetTimeout st :
  timers_fresh st -> timers_fresh (snd (safeSetTimeout st)).
Proof.
  intros [F1 F2 F3 F4]. constructor; simpl.
  - intros id t. destruct (decide (id = next_id st)) as [->|Hne]; [lia|].
    rewrite lookup_insert_ne by done. intros Ht. apply F1 in Ht. lia.
  - intros id Hid. apply F2 in Hid. lia.
  - intros id [->%elem_of_singleton|Hid]%elem_of_union; [lia|]. apply F3 in Hid. lia.
  - intros id t. destruct (decide (id = next_id st)) as [->|Hne].
    + rewrite lookup_insert_eq. by intros [= <-].
    + rewrite lookup_insert_ne by done. intros Ht [Hid|Hid]; apply (F4 id t); auto.
      right. set_solver.
Qed.

Lemma fresh_step st op : Inv st -> timers_fresh st -> timers_fresh (step st op).
Proof.
  intros HI HF. destruct op; simpl.
  - unfold setState. cbv zeta.
    destruct (scheduled_fields (set_globalState (<[key:=value]> (globalState st)) st))
      as (E1 & E2 & E3 & E4 & _).
    by apply (fresh_transfer st); rewrite ?E1, ?E2, ?E3, ?E4.
  - by apply (fresh_transfer st).
  - unfold createScope. destruct (scopes st !! name); simpl.
    + by apply (fresh_transfer st).
    + apply (fresh_transfer st); simpl; try done. lia.
  - unfold getScope. destruct (scopes st !! name); [done|]. by apply (fresh_transfer st).
  - unfold scope_setState. destruct (locals st !! sid) as [sc|]; [|done]. cbv zeta.
    match goal with |- timers_fresh (if mounted ?s then _ else _) =>
      destruct (scheduled_fields s) as (E1 & E2 & E3 & E4 & _) end.
    by apply (fresh_transfer st); rewrite ?E1, ?E2, ?E3, ?E4.
  - unfold scope_deleteState. destruct (locals st !! sid); [|done].
    by apply (fresh_transfer st).
  - unfold scope_on. destruct (locals st !! sid); [|done]. by apply (fresh_transfer st).
  - unfold scope_off. destruct (locals st !! sid); [|done]. by apply (fresh_transfer st).
  - unfold scope_destroy. destruct (locals st !! sid); [|done].
    by apply (fresh_transfer st).
  - by apply (fresh_transfer st).
  - by apply (fresh_transfer st).
  - destruct (mount fn st) as [st' out] eqn:E.
    apply rerender_core in E as []. simpl in *.
    apply (fresh_transfer st); try done. lia.
  - destruct (destroy_exact st HI) as (L & H & T & -> & HT). simpl.
    apply (fresh_shrink st); simpl; try done; try set_solver.
    intros id t. rewrite HT. by destruct (decide _).
  - by apply fresh_safeSetInterval.
  - apply (fresh_shrink st); simpl; try done; try set_solver.
    intros i t Ht. by apply lookup_delete_Some in Ht as [_ Ht].
  - by apply fresh_safeSetTimeout.
  - apply (fresh_shrink st); simpl; try done; try set_solver.
    intros i t Ht. by apply lookup_delete_Some in Ht as [_ Ht].
  - by apply fresh_set_timer.
  - apply (fresh_shrink st); simpl; try done.
    intros i t Ht. by apply lookup_delete_Some in Ht as [_ Ht].
  - unfold timer_fires.
    destruct (timers st !! id) as [[[] helper]|] eqn:E; [done| |done].
    destruct helper; apply (fresh_shrink st); simpl; try done; try set_solver;
      intros i t Ht; by apply lookup_delete_Some in Ht as [_ Ht].
  - destruct (checkpoint_fields st) as (E1 & E2 & E3 & E4 & _).
    apply (fresh_transfer st); try done. lia.
Qed.

Lemma run_fresh ops st :
  Inv st -> timers_fresh st -> Inv (run ops st) /\ timers_fresh (run ops st).
Proof.
  revert st. induction ops as [|op ops IH]; intros st HI HF; [done|].
  apply IH; [by apply step_Inv|by apply fresh_step].
Qed.

Lemma reachable_fresh content ops :
  Inv (run ops (createApp content)) /\ timers_fresh (run ops (createApp content)).
Proof. apply run_fresh; [apply Inv_createApp|apply fresh_createApp]. Qed.

(** X15. Setting and clearing a tracked timer is a round trip: after any
    run, [safeSetInterval] returns an id that names no running timer and is
    not tracked, starts an interval under it and tracks it, and
    [safeClearInterval] on that id leaves the host's timers and the tracked
    ids exactly as they were before the two calls; the same holds for
    [safeSetTimeout] and [safeClearTimeout]. *)
Theorem safe_timer_round_trip (content : list Node) (ops : list Op) :
  let st := run ops (createApp content) in
  let id := fst (safeSetInterval st) in
  let st1 := snd (safeSetInterval st) in
  let id' := fst (safeSetTimeout st) in
  let st1' := snd (safeSetTimeout st) in
  (timers st !! id = None /\ (id ∉ intervals st) /\ (id ∉ timeouts st))
  /\ (timers st1 !! id = Some {| kind := Interval; via_helper := true |}
      /\ id ∈ intervals st1)
  /\ (timers (safeClearInterval id st1) = timers st
      /\ intervals (safeClearInterval id st1) = intervals st
      /\ timeouts (safeClearInterval id st1) = timeouts st)
  /\ (timers st1' !! id' = Some {| kind := Timeout; via_helper := true |}
      /\ id' ∈ timeouts st1')
  /\ (timers (safeClearTimeout id' st1') = timers st
      /\ intervals (safeClearTimeout id' st1') = intervals st
      /\ timeouts (safeClearTimeout id' st1') = timeouts st).
Proof.
  intros st id st1 id' st1'.
  destruct (reachable_fresh content ops) as [_ HF]. fold st in HF.
  destruct (fresh_set_timer Interval true st HF) as (_ & Hn & Hi & Ho).
  unfold id, st1, id', st1'. simpl.
  rewrite !lookup_insert_eq, !delete_insert_id by done.
  split_and!; try done; set_solver.
Qed.

(** X16. A timeout that fires is no longer tracked: after any run, when
    the host fires a timeout that [safeSetTimeout] has just set, the timer
    is over and its id is out of the tracked set, so the timers and the
    tracked ids are what they were before [safeSetTimeout]; an interval that
    [safeSetInterval] set keeps running and stays tracked when it fires. *)
Theorem safeSetTimeout_fires_untracks (content : list Node) (ops : list Op) :
  let st := run ops (createApp content) in
  let id := fst (safeSetTimeout st) in
  let st1 := snd (safeSetTimeout st) in
  timers (timer_fires id st1) = timers st
  /\ timeouts (timer_fires id st1) = timeouts st
  /\ intervals (timer_fires id st1) = intervals st
  /\ timer_fires (fst (safeSetInterval st)) (snd (safeSetInterval st))
     = snd (safeSetInterval st).
Proof.
  intros st id st1.
  destruct (reachable_fresh content ops) as [_ HF]. fold st in HF.
  destruct (fresh_set_timer Timeout true st HF) as (_ & Hn & Hi & Ho).
  unfold id, st1, timer_fires. simpl.
  rewrite !lookup_insert_eq. simpl. rewrite delete_insert_id by done.
  split_and!; try done. set_solver.
Qed.

(** X17. [destroy] stops the timers that the helpers set and no others:
    after any run, the timers running after [destroy] are exactly those
    running before it that were set with the host's own [setInterval] or
    [setTimeout]; every timer set through [safeSetInterval] or
    [safeSetTimeout] is stopped. *)
Theorem destroy_stops_helper_timers (content : list Node) (ops : list Op) (id : nat) :
  let st := run ops (createApp content) in
  timers (fst (destroy st)) !! id
  = match timers st !! id with
    | Some t => if via_helper t then None else Some t
    | None => None
    end.
Proof.
  intros st.
  destruct (reachable_fresh content ops) as [HI HF]. fold st in HI, HF.
  destruct (destroy_exact st HI) as (L & H & T & -> & HT). simpl.
  rewrite HT. destruct (timers st !! id) as [t|] eqn:Ht.
  - destruct (decide _) as [Hin|Hnot].
    + by rewrite (tracked_helper _ HF id t Ht Hin).
    + destruct (via_helper t) eqn:Hh; [|done].
      exfalso. apply Hnot. by apply (inv_timers _ HI id t).
  - by destruct (decide _).
Qed.

(** *** Before [mount] and after [destroy] *)

Lemma idle_step st op :
  Inv st -> idle st -> not_mount op = true ->
  idle (step st op)
  /\ renders (step st op) = renders st
  /\ (microtasks st = [] -> microtasks (step st op) = [])
  /\ (rerenderScheduled st = false -> rerenderScheduled (step st op) = false)
  /\ (container st = [] -> container (step st op) = [])
  /\ (not_destroy op = true -> container (step st op) = container st).
Proof.
  intros HI [Hm Hf Ha Ht] Hop.
  destruct op; try discriminate; simpl;
    try (split; [by constructor|done]).
  - unfold setState. simpl. rewrite Hm. split; [by constructor|done].
  - unfold createScope. destruct (scopes st !! name); split; by try constructor.
  - unfold getScope. destruct (scopes st !! name); split; by try constructor.
  - unfold scope_setState. destruct (locals st !! sid); [|split; by try constructor].
    simpl. rewrite Hm. split; by try constructor.
  - unfold scope_deleteState. destruct (locals st !! sid); split; by try constructor.
  - unfold scope_on. destruct (locals st !! sid); split; by try constructor.
  - unfold scope_off. destruct (locals st !! sid); split; by try constructor.
  - unfold scope_destroy. destruct (locals st !! sid); split; by try constructor.
  - destruct (destroy_exact st HI) as (L & H & T & -> & _). simpl.
    split; by try constructor.
  - unfold timer_fires. destruct (timers st !! id) as [[[] []]|];
      split; by try constructor.
  - rewrite checkpoint_unmounted by done. simpl. split; [by constructor|].
    split_and!; try done. intros Hs. rewrite Hs. by destruct (microtasks st).
Qed.

Lemma idle_run ops st :
  Inv st -> idle st -> forallb not_mount ops = true ->
  idle (run ops st)
  /\ renders (run ops st) = renders st
  /\ (microtasks st = [] -> microtasks (run ops st) = [])
  /\ (rerenderScheduled st = false -> rerenderScheduled (run ops st) = false)
  /\ (container st = [] -> container (run ops st) = [])
  /\ (forallb not_destroy ops = true -> container (run ops st) = container st).
Proof.
  revert st. induction ops as [|op ops IH]; intros st HI Hidle Hops; [done|].
  simpl in Hops. apply andb_true_iff in Hops as [Hop Hops].
  destruct (idle_step st op HI Hidle Hop) as (I1 & R1 & M1 & S1 & C1 & K1).
  destruct (IH (step st op) (step_Inv _ _ HI) I1 Hops) as (I2 & R2 & M2 & S2 & C2 & K2).
  change (run (op :: ops) st) with (run ops (step st op)).
  split_and!; try done; try congruence; auto.
  simpl. intros [Hd Hds]%andb_true_iff. rewrite K2, K1; done.
Qed.

Lemma idle_createApp content : idle (createApp content).
Proof. by constructor. Qed.

(** X18. Nothing is rendered before [mount]: after any run of calls other
    than [mount] from [createApp], the render function has not been called,
    no render is scheduled or queued (so [setState] before [mount] only
    stores the value), no listener is attached, and unless [destroy] was
    called the container still holds what it held at [createApp]. *)
Theorem no_render_before_mount (content : list Node) (ops : list Op) :
  forallb not_mount ops = true ->
  let st := run ops (createApp content) in
  renders st = 0 /\ microtasks st = [] /\ rerenderScheduled st = false
  /\ activeListeners st = [] /\ attached st = [] /\ mounted st = false
  /\ (forallb not_destroy ops = true -> container st = content).
Proof.
  intros Hops st.
  destruct (idle_run ops (createApp content) (Inv_createApp _) (idle_createApp _) Hops)
    as ([Hm Hf Ha Ht] & R & M & S & _ & K).
  split_and!; auto.
Qed.

Lemma no_render_before_mount_witness :
  let st := run (counter_setup ++ [OSetState "count" (VNumber 1); OCheckpoint])
              (createApp [Text "loading"]) in
  renders st = 0 /\ microtasks st = [] /\ rerenderScheduled st = false
  /\ activeListeners st = [] /\ attached st = [] /\ mounted st = false
  /\ (forallb not_destroy (counter_setup ++ [OSetState "count" (VNumber 1); OCheckpoint])
      = true -> container st = [Text "loading"]).
Proof.
  refine (no_render_before_mount [Text "loading"]
            (counter_setup ++ [OSetState "count" (VNumber 1); OCheckpoint]) _);
    vm_compute; reflexivity.
Defined.

(** X19. Nothing is rendered after [destroy]: after any run, [destroy]
    followed by any calls other than [mount], among them the host running a
    render that was scheduled before [destroy] and [setState] calls, never
    calls the render function; the container stays empty and no listener is
    attached. *)
Theorem no_render_after_destroy (content : list Node) (ops ops' : list Op) :
  forallb not_mount ops' = true ->
  let st := run ops (createApp content) in
  let st' := run ops' (fst (destroy st)) in
  renders st' = renders st /\ container st' = []
  /\ activeListeners st' = [] /\ attached st' = [] /\ mounted st' = false.
Proof.
  intros Hops st st'.
  assert (HI : Inv st) by apply run_Inv, Inv_createApp.
  pose proof (destroy_Inv st HI) as HI'.
  destruct (destroy_exact st HI) as (L & H & T & E & _).
  assert (Hidle : idle (fst (destroy st))) by (rewrite E; by constructor).
  destruct (idle_run ops' (fst (destroy st)) HI' Hidle Hops)
    as ([Hm Hf Ha Ht] & R & _ & _ & C & _).
  fold st' in Hm, Hf, Ha, Ht, R, C.
  split_and!; try done.
  - rewrite R, E. done.
  - apply C. by rewrite E.
Qed.

Lemma no_render_after_destroy_witness :
  let st := run (counter_setup ++ [OMount counter_view; OSetState "count" (VNumber 1)])
              (createApp [Text "loading"]) in
  let st' := run [OCheckpoint; OSetState "count" (VNumber 2); OCheckpoint]
               (fst (destroy st)) in
  renders st' = renders st /\ container st' = []
  /\ activeListeners st' = [] /\ attached st' = [] /\ mounted st' = false.
Proof.
  refine (no_render_after_destroy [Text "loading"]
            (counter_setup ++ [OMount counter_view; OSetState "count" (VNumber 1)])
            [OCheckpoint; OSetState "count" (VNumber 2); OCheckpoint] _);
    vm_compute; reflexivity.
Defined.

(** X20. Only [setState], [mount], [destroy] and a scheduled render touch
    the page or the schedule: every other call ([deleteState],
    [createScope], [getScope], the other scope methods, [on], [off], the
    timer helpers and the host's timers) leaves the container, the render
    count, the listeners, the microtask queue, the scheduling flag and the
    mount state as they are. *)
Theorem quiet_calls_leave_page (st : App) (op : Op) :
  quiet op = true ->
  let st' := step st op in
  container st' = container st /\ renders st' = renders st
  /\ activeListeners st' = activeListeners st /\ attached st' = attached st
  /\ microtasks st' = microtasks st /\ rerenderScheduled st' = rerenderScheduled st
  /\ mounted st' = mounted st /\ renderFn st' = renderFn st.
Proof.
  intros Hop. destruct op; try discriminate; simpl; try done.
  - unfold createScope. by destruct (scopes st !! name).
  - unfold getScope. by destruct (scopes st !! name).
  - unfold scope_deleteState. by destruct (locals st !! sid).
  - unfold scope_on. by destruct (locals st !! sid).
  - unfold scope_off. by destruct (locals st !! sid).
  - unfold scope_destroy. by destruct (locals st !! sid).
  - unfold timer_fires. by destruct (timers st !! id) as [[[] []]|].
Qed.

Lemma quiet_calls_leave_page_witness :
  let st' := step counter_app (OScopeDestroy 0) in
  container st' = container counter_app /\ renders st' = renders counter_app
  /\ activeListeners st' = activeListeners counter_app
  /\ attached st' = attached counter_app
  /\ microtasks st' = microtasks counter_app
  /\ rerenderScheduled st' = rerenderScheduled counter_app
  /\ mounted st' = mounted counter_app /\ renderFn st' = renderFn counter_app.
Proof.
  refine (quiet_calls_leave_page counter_app (OScopeDestroy 0) _); reflexivity.
Defined.

(** *** The schedule *)

Lemma scheduleRerender_scheduling st :
  scheduling st ->
  scheduling (scheduleRerender st) /\ rerenderScheduled (scheduleRerender st) = true
  /\ globalState (scheduleRerender st) = globalState st
  /\ locals (scheduleRerender st) = locals st
  /\ renderFn (scheduleRerender st) = renderFn st
  /\ renders (scheduleRerender st) = renders st.
Proof.
  intros [Hq Hm]. unfold scheduleRerender.
  destruct (rerenderScheduled st) eqn:E; simpl.
  - split; [by constructor; rewrite ?E|done].
  - split; [|done]. constructor; simpl; [by rewrite Hq|done].
Qed.

Lemma when_mounted_scheduling st :
  scheduling st -> scheduling (if mounted st then scheduleRerender st else st).
Proof. intros H. destruct (mounted st); [by apply scheduleRerender_scheduling|done]. Qed.

Lemma scheduling_transfer st st' :
  microtasks st' = microtasks st -> rerenderScheduled st' = rerenderScheduled st ->
  mounted st' = mounted st -> renderFn st' = renderFn st ->
  scheduling st -> scheduling st'.
Proof. intros E1 E2 E3 E4 []. constructor; rewrite ?E1, ?E2, ?E3, ?E4; done. Qed.

(** The queued closure runs: one render from the state as it is then. *)
Lemma checkpoint_renders st fn :
  scheduling st -> renderFn st = Some fn -> rerenderScheduled st = true ->
  without_attr "data-on" <$> container (checkpoint st)
  = without_attr "data-on" <$> fn (globalState st) (locals st)
  /\ renders (checkpoint st) = S (renders st)
  /\ microtasks (checkpoint st) = [] /\ rerenderScheduled (checkpoint st) = false
  /\ globalState (checkpoint st) = globalState st
  /\ locals (checkpoint st) = locals st
  /\ mounted (checkpoint st) = mounted st /\ renderFn (checkpoint st) = renderFn st.
Proof.
  intros [Hq Hm] Hfn Hs. rewrite Hs in Hq. unfold checkpoint. rewrite Hq.
  cbn [fold_left]. unfold run_microtask.
  set (s0 := set_rerenderScheduled false (set_microtasks [] st)).
  destruct (rerender s0) as [s out] eqn:E.
  destruct (rerender_any s0 fn s out Hfn E) as ([] & R & C & _).
  simpl in *. destruct out; simpl; split_and!; done.
Qed.

Lemma scheduling_step st op : Inv st -> scheduling st -> scheduling (step st op).
Proof.
  intros HI HS. destruct op; simpl.
  - apply (when_mounted_scheduling (set_globalState _ st)). by apply (scheduling_transfer st).
  - by apply (scheduling_transfer st).
  - unfold createScope. destruct (scopes st !! name); by apply (scheduling_transfer st).
  - unfold getScope. destruct (scopes st !! name); by apply (scheduling_transfer st).
  - unfold scope_setState. destruct (locals st !! sid); [|done].
    apply (when_mounted_scheduling (set_locals _ st)). by apply (scheduling_transfer st).
  - unfold scope_deleteState. destruct (locals st !! sid); by apply (scheduling_transfer st).
  - unfold scope_on. destruct (locals st !! sid); by apply (scheduling_transfer st).
  - unfold scope_off. destruct (locals st !! sid); by apply (scheduling_transfer st).
  - unfold scope_destroy. destruct (locals st !! sid); by apply (scheduling_transfer st).
  - by apply (scheduling_transfer st).
  - by apply (scheduling_transfer st).
  - destruct (mount fn st) as [st' out] eqn:E.
    apply rerender_core in E as [_ _ _ _ Ef Em _ _ Es Eq _ _]. simpl in *.
    destruct HS as [Hq _].
    constructor; [by rewrite Eq, Es|]. rewrite Em, Ef. split; [by eexists|done].
  - destruct (destroy_exact st HI) as (L & H & T & -> & _). destruct HS as [Hq _].
    constructor; simpl; [done|]. split; [done|]. by intros [? ?].
  - by apply (scheduling_transfer st).
  - by apply (scheduling_transfer st).
  - by apply (scheduling_transfer st).
  - by apply (scheduling_transfer st).
  - by apply (scheduling_transfer st).
  - by apply (scheduling_transfer st).
  - unfold timer_fires. destruct (timers st !! id) as [[[] []]|];
      by apply (scheduling_transfer st).
  - destruct (rerenderScheduled st) eqn:Hs.
    + destruct (renderFn st) as [fn|] eqn:Hfn.
      * destruct (checkpoint_renders st fn HS Hfn Hs) as (_ & _ & M & F & _ & _ & Em & Ef).
        destruct HS as [_ Hm]. constructor; [by rewrite M, F|].
        rewrite Em, Ef. exact Hm.
      * rewrite checkpoint_unmounted by done. destruct HS as [Hq Hm].
        constructor; simpl; [by destruct (microtasks st)|done].
    + destruct HS as [Hq Hm]. rewrite Hs in Hq. unfold checkpoint. rewrite Hq. simpl.
      constructor; simpl; [by rewrite Hs|done].
Qed.

Lemma scheduling_createApp content : scheduling (createApp content).
Proof. constructor; simpl; [done|]. split; [done|]. by intros [? ?]. Qed.

Lemma reachable_scheduling content ops :
  Inv (run ops (createApp content)) /\ scheduling (run ops (createApp content)).
Proof.
  assert (H : forall ops st, Inv st -> scheduling st ->
                             Inv (run ops st) /\ scheduling (run ops st)).
  { clear. induction ops as [|op ops IH]; intros st HI HS; [done|].
    apply IH; [by apply step_Inv|by apply scheduling_step]. }
  apply H; [apply Inv_createApp|apply scheduling_createApp].
Qed.

(** X21. The schedule never holds more than one render: after any run,
    the host's queue holds the closure of [scheduleRerender] exactly once
    when the flag [rerenderScheduled] is set and is empty when it is not, so
    a scheduled render is never lost and never queued twice; and the
    application is mounted exactly when it has a render function. *)
Theorem render_scheduled_once (content : list Node) (ops : list Op) :
  let st := run ops (createApp content) in
  microtasks st = (if rerenderScheduled st then [RerenderTask] else [])
  /\ (mounted st = true <-> is_Some (renderFn st)).
Proof.
  intros st. destruct (reachable_scheduling content ops) as [_ [Hq Hm]]. done.
Qed.

(** X22. A state change reaches the page: after any run of calls on which
    the maps do what the objects do ([plain_op]) that leaves the
    application mounted with render function [fn], [setState(key, value)]
    under a key other than [__proto__], followed by the host's microtask
    checkpoint, calls [fn] exactly once, on the global state with the new
    value, and the container then holds what that call returned (up to the
    [data-on] attributes that [bindEvents] takes off); nothing stays
    scheduled. *)
Theorem setState_is_rendered
    (content : list Node) (ops : list Op) (fn : RenderFn) (key : string) (value : Value) :
  let st := run ops (createApp content) in
  forallb plain_op ops = true ->
  key <> "__proto__" ->
  renderFn st = Some fn ->
  let st' := checkpoint (setState key value st) in
  without_attr "data-on" <$> container st'
  = without_attr "data-on" <$> fn (<[key := value]> (globalState st)) (locals st)
  /\ renders st' = S (renders st)
  /\ microtasks st' = [] /\ rerenderScheduled st' = false
  /\ getState key st' = value.
Proof.
  intros st _ _ Hfn st'.
  destruct (reachable_scheduling content ops) as [_ HS]. fold st in HS.
  assert (Hm : mounted st = true) by (apply HS; by eexists).
  set (s0 := set_globalState (<[key := value]> (globalState st)) st).
  assert (HS0 : scheduling s0) by (by apply (scheduling_transfer st)).
  assert (E : setState key value st = scheduleRerender s0).
  { unfold setState. cbv zeta. fold s0. by replace (mounted s0) with true. }
  destruct (scheduleRerender_scheduling s0 HS0) as (HS1 & F1 & G1 & L1 & R1 & N1).
  destruct (checkpoint_renders (scheduleRerender s0) fn HS1) as (C & R & M & F & G & _);
    [by rewrite R1|done|].
  unfold st'. rewrite E. rewrite G1, L1 in C. rewrite N1 in R.
  split_and!; try done.
  unfold getState. rewrite G, G1. simpl. by rewrite lookup_insert_eq.
Qed.

Lemma setState_is_rendered_witness :
  let st := run (counter_setup ++ [OMount counter_view]) (createApp [Text "loading"]) in
  let st' := checkpoint (setState "count" (VNumber 1) st) in
  without_attr "data-on" <$> container st'
  = without_attr "data-on"
      <$> counter_view (<["count" := VNumber 1]> (globalState st)) (locals st)
  /\ renders st' = S (renders st)
  /\ microtasks st' = [] /\ rerenderScheduled st' = false
  /\ getState "count" st' = VNumber 1.
Proof.
  refine (setState_is_rendered [Text "loading"] (counter_setup ++ [OMount counter_view])
            counter_view "count" (VNumber 1) _ _ _);
    vm_compute; first [reflexivity | discriminate].
Defined.

(** X23. A change of local state reaches the page: after any run of calls
    on which the maps do what the objects do ([plain_op]) that leaves the
    application mounted with render function [fn],
    [scope.setState(key, value)] on a scope object under a key other than
    [__proto__], followed by the host's microtask checkpoint, calls [fn]
    exactly once, with that scope's local state holding the new value, and
    the container then holds what the call returned (up to the [data-on]
    attributes). *)
Theorem scope_setState_is_rendered
    (content : list Node) (ops : list Op) (fn : RenderFn)
    (sid : nat) (sc : Scope) (key : string) (value : Value) :
  let st := run ops (createApp content) in
  forallb plain_op ops = true ->
  key <> "__proto__" ->
  renderFn st = Some fn ->
  locals st !! sid = Some sc ->
  let st' := checkpoint (scope_setState sid key value st) in
  without_attr "data-on" <$> container st'
  = without_attr "data-on"
      <$> fn (globalState st)
            (<[sid := {| sc_name := sc_name sc;
                         localState := <[key := value]> (localState sc) |}]> (locals st))
  /\ renders st' = S (renders st)
  /\ microtasks st' = [] /\ rerenderScheduled st' = false
  /\ scope_getState sid key st' = value.
Proof.
  intros st _ _ Hfn Hsc st'.
  destruct (reachable_scheduling content ops) as [_ HS]. fold st in HS.
  assert (Hm : mounted st = true) by (apply HS; by eexists).
  set (s0 := set_locals
               (<[sid := {| sc_name := sc_name sc;
                            localState := <[key := value]> (localState sc) |}]> (locals st))
               st).
  assert (HS0 : scheduling s0) by (by apply (scheduling_transfer st)).
  assert (E : scope_setState sid key value st = scheduleRerender s0).
  { unfold scope_setState. rewrite Hsc. cbv zeta. fold s0.
    by replace (mounted s0) with true. }
  destruct (scheduleRerender_scheduling s0 HS0) as (HS1 & F1 & G1 & L1 & R1 & N1).
  destruct (checkpoint_renders (scheduleRerender s0) fn HS1) as (C & R & M & F & G & L & _);
    [by rewrite R1|done|].
  unfold st'. rewrite E. rewrite G1, L1 in C. rewrite N1 in R.
  split_and!; try done.
  unfold scope_getState. rewrite L, L1. unfold s0. simpl.
  rewrite lookup_insert_eq. simpl. by rewrite lookup_insert_eq.
Qed.

Lemma scope_setState_is_rendered_witness :
  let st := run (counter_setup ++ [OMount counter_view]) (createApp [Text "loading"]) in
  let st' := checkpoint (scope_setState 0 "seconds" (VNumber 1) st) in
  without_attr "data-on" <$> container st'
  = without_attr "data-on"
      <$> counter_view (globalState st)
            (<[0 := {| sc_name := "timer";
                       localState := <["seconds" := VNumber 1]> {["seconds" := VNumber 0]} |}]>
               (locals st))
  /\ renders st' = S (renders st)
  /\ microtasks st' = [] /\ rerenderScheduled st' = false
  /\ scope_getState 0 "seconds" st' = VNumber 1.
Proof.
  refine (scope_setState_is_rendered [Text "loading"]
            (counter_setup ++ [OMount counter_view]) counter_view
            0 {| sc_name := "timer"; localState := {["seconds" := VNumber 0]} |}
            "seconds" (VNumber 1) _ _ _ _);
    vm_compute; first [reflexivity | discriminate].
Defined.

(** *** What [bindEvents] logs *)












End ActExtra.
(** ** lib/act.js, the style sheets *)

Module CssExtra.
Import ActCss.

Lemma new_sheets css sheets rs next :
  exists rs',
    fold_left new_sheet css (sheets, (rs, next))
    = (sheets ++ seq next (length css), (rs', next + length css))
    /\ (forall i text, css !! i = Some text -> rs' !! (next + i) = Some text)
    /\ (forall s, s < next -> rs' !! s = rs !! s).
Proof.
  revert sheets rs next. induction css as [|text css IH]; intros sheets rs next.
  - exists rs. simpl. rewrite app_nil_r, Nat.add_0_r. split; [done|]. split; [|done].
    intros i text. by rewrite lookup_nil.
  - cbn [fold_left new_sheet].
    destruct (IH (sheets ++ [next]) (<[next := text]> rs) (S next)) as (rs' & E & Hnew & Hold).
    exists rs'. rewrite E. split; [|split].
    + simpl. rewrite <- app_assoc. simpl. do 2 f_equal. lia.
    + intros [|i] t Ht; simpl in Ht.
      * injection Ht as <-. rewrite Nat.add_0_r, Hold by lia. apply lookup_insert_eq.
      * replace (next + S i) with (S next + i) by lia. by apply Hnew.
    + intros s Hs. rewrite Hold by lia. apply lookup_insert_ne. lia.
Qed.

Lemma mount_styles_fields st :
  let st' := mount_styles st in
  mountedStringSheets st' = seq (next_sheet st) (length (criticalCSSStrings st))
  /\ adoptedStyleSheets st'
     = adoptedStyleSheets st ++ mountedStringSheets st' ++ criticalSheets st
  /\ (forall i text, criticalCSSStrings st !! i = Some text ->
        rules st' !! (next_sheet st + i) = Some text)
  /\ (forall s, s < next_sheet st -> rules st' !! s = rules st !! s)
  /\ criticalSheets st' = criticalSheets st
  /\ criticalCSSStrings st' = criticalCSSStrings st.
Proof.
  unfold mount_styles.
  destruct (new_sheets (criticalCSSStrings st) [] (rules st) (next_sheet st))
    as (rs' & -> & Hnew & Hold).
  simpl. split_and!; try done.
  destruct (seq _ _) as [|s sheets]; simpl; [|done].
  destruct (criticalSheets st); simpl; [by rewrite app_nil_r|done].
Qed.

Lemma filter_none {A} (P : A -> bool) (l : list A) :
  (forall x, x ∈ l -> P x = false) -> List.filter P l = [].
Proof.
  induction l as [|a l IH]; intros H; simpl; [done|].
  rewrite (H a) by (by left). apply IH. intros x Hx. apply H. by right.
Qed.

Lemma filter_all {A} (P : A -> bool) (l : list A) :
  (forall x, x ∈ l -> P x = true) -> List.filter P l = l.
Proof.
  induction l as [|a l IH]; intros H; simpl; [done|].
  rewrite (H a) by (by left). f_equal. apply IH. intros x Hx. apply H. by right.
Qed.

(** X26. [mount] adopts the registered styles after those the document
    has: it makes one new style-sheet object for each text given to
    [criticalCSS], in the order of the calls, each with that text as its
    rules, and [document.adoptedStyleSheets] becomes what it was, followed
    by the new sheets, followed by the sheets given to
    [criticalStylesheet]; with nothing registered the list stays as it
    is. *)
Theorem mount_adopts_styles (st : Styles) :
  let st' := mount_styles st in
  mountedStringSheets st' = seq (next_sheet st) (length (criticalCSSStrings st))
  /\ adoptedStyleSheets st'
     = adoptedStyleSheets st ++ mountedStringSheets st' ++ criticalSheets st
  /\ (forall i text, criticalCSSStrings st !! i = Some text ->
        rules st' !! (next_sheet st + i) = Some text)
  /\ (forall s, s < next_sheet st -> rules st' !! s = rules st !! s).
Proof.
  intros st'. destruct (mount_styles_fields st) as (H1 & H2 & H3 & H4 & _). done.
Qed.

(** X27. [destroy] takes the application's style sheets out of the
    document and no others: when every sheet the state refers to exists
    before [mount], then after [mount] and [destroy] the document has
    adopted exactly the sheets it had adopted before [mount], in their
    order, except those that were given to [criticalStylesheet]; when none
    of these was adopted before, the list is as it was before [mount].  The
    three lists of the application are empty. *)
Theorem destroy_restores_styles (st : Styles) :
  known st ->
  let st' := destroy_styles (mount_styles st) in
  adoptedStyleSheets st'
  = List.filter (fun s => negb (bool_decide (s ∈ criticalSheets st)))
      (adoptedStyleSheets st)
  /\ ((forall s, s ∈ criticalSheets st -> s ∉ adoptedStyleSheets st) ->
      adoptedStyleSheets st' = adoptedStyleSheets st)
  /\ criticalCSSStrings st' = [] /\ criticalSheets st' = []
  /\ mountedStringSheets st' = [].
Proof.
  intros Hknown st'.
  destruct (mount_styles_fields st) as (HM & HA & _ & _ & HC & _).
  assert (E : adoptedStyleSheets st'
              = List.filter (fun s => negb (bool_decide (s ∈ criticalSheets st)))
                  (adoptedStyleSheets st)).
  { unfold st', destroy_styles. simpl. rewrite HA, HC, !List.filter_app.
    rewrite (filter_none _ (mountedStringSheets (mount_styles st))).
    2:{ intros s Hs. apply negb_false_iff, bool_decide_eq_true. set_solver. }
    rewrite (filter_none _ (criticalSheets st)).
    2:{ intros s Hs. apply negb_false_iff, bool_decide_eq_true. set_solver. }
    rewrite !app_nil_r. apply filter_ext_in. intros s Hs. f_equal.
    apply bool_decide_ext. rewrite elem_of_app. split; [|by right].
    intros [Hnew|?]; [|done]. exfalso.
    rewrite HM in Hnew. apply list_elem_of_In, in_seq in Hnew.
    assert (s < next_sheet st); [|lia].
    apply Hknown. apply elem_of_app. left. by apply list_elem_of_In. }
  split; [done|]. split; [|done].
  intros Hdisj. rewrite E. apply filter_all.
  intros s Hs. apply negb_true_iff, bool_decide_eq_false.
  intros Hs'. by apply (Hdisj s).
Qed.

Lemma destroy_restores_styles_witness :
  let st' := destroy_styles (mount_styles styles_example) in
  adoptedStyleSheets st'
  = List.filter (fun s => negb (bool_decide (s ∈ criticalSheets styles_example)))
      (adoptedStyleSheets styles_example)
  /\ ((forall s, s ∈ criticalSheets styles_example -> s ∉ adoptedStyleSheets styles_example) ->
      adoptedStyleSheets st' = adoptedStyleSheets styles_example)
  /\ criticalCSSStrings st' = [] /\ criticalSheets st' = []
  /\ mountedStringSheets st' = [].
Proof.
  refine (destroy_restores_styles styles_example _).
  intros s Hs. vm_compute in Hs.
  apply elem_of_cons in Hs as [->|Hs]; [vm_compute; lia|].
  apply elem_of_cons in Hs as [->|Hs]; [vm_compute; lia|].
  by apply elem_of_nil in Hs.
Defined.

(** The example at work: the texts are trimmed, [null] is skipped, and
    [destroy] leaves the page's own sheet. *)
Example styles_example_run :
  criticalCSSStrings styles_example = [".b{}"; ".a { color: red }"]
  /\ criticalSheets styles_example = [1]
  /\ adoptedStyleSheets (mount_styles styles_example) = [0; 2; 3; 1]
  /\ rules (mount_styles styles_example) !! 3 = Some ".a { color: red }"
  /\ adoptedStyleSheets (destroy_styles (mount_styles styles_example)) = [0].
Proof. repeat split; reflexivity. Qed.

End CssExtra.
(** ** components/timer.js *)

Module ComponentsExtra.
Import Dom Act ActAux ActProofs ActExtra Components.

(** What [scope.setState] changes, on a scope object that exists. *)
Lemma scope_setState_spec sid key value st :
  is_Some (locals st !! sid) ->
  let st' := scope_setState sid key value st in
  is_Some (locals st' !! sid)
  /\ (forall k, scope_getState sid k st'
                = if decide (k = key) then value else scope_getState sid k st)
  /\ timers st' = timers st /\ intervals st' = intervals st
  /\ timeouts st' = timeouts st /\ next_id st' = next_id st.
Proof.
  intros [sc Hsc] st'.
  destruct (scope_setState_locals sid sc key value st Hsc) as [HL _]. fold st' in HL.
  assert (HF : timers st' = timers st /\ intervals st' = intervals st
               /\ timeouts st' = timeouts st /\ next_id st' = next_id st).
  { unfold st', scope_setState. rewrite Hsc. cbv zeta.
    match goal with |- context [if mounted ?s then _ else _] =>
      destruct (scheduled_fields s) as (E1 & E2 & E3 & E4 & _) end.
    by rewrite E1, E2, E3, E4. }
  split; [|split; [|exact HF]].
  - rewrite HL, lookup_insert_eq. by eexists.
  - intros k. unfold scope_getState. rewrite HL, Hsc, lookup_insert_eq. simpl.
    destruct (decide (k = key)) as [->|Hne].
    + by rewrite lookup_insert_eq.
    + by rewrite lookup_insert_ne.
Qed.

Lemma scope_setState_ok sid key value st :
  Inv st -> timers_fresh st ->
  Inv (scope_setState sid key value st) /\ timers_fresh (scope_setState sid key value st).
Proof.
  intros HI HF. split.
  - apply (step_Inv st (OScopeSetState sid key value) HI).
  - apply (fresh_step st (OScopeSetState sid key value) HI HF).
Qed.

Lemma clear_interval_spec c n :
  timer_ok c n ->
  let st := clear_interval c in
  Inv st /\ timers_fresh st
  /\ locals st = locals (app c) /\ next_id st = next_id (app c)
  /\ (forall id, id ∈ ticking c -> timers st !! id = None).
Proof.
  intros [HI HF Hsc Hids Hone Hrun Hint Hsec]. unfold clear_interval.
  destruct (intervalId c) as [id|] eqn:E.
  - split_and!; try done.
    + apply (step_Inv (app c) (OSafeClearInterval id) HI).
    + apply (fresh_step (app c) (OSafeClearInterval id) HI HF).
    + intros i Hi. simpl. destruct (decide (i = id)) as [->|Hne].
      * apply lookup_delete_eq.
      * rewrite lookup_delete_ne by done.
        destruct (timers (app c) !! i) as [t|] eqn:Ht; [|done].
        exfalso. apply Hne.
        assert (Hq : Some id = Some i) by (apply Hone; [done|by eexists]).
        by injection Hq.
  - split_and!; try done. intros i Hi.
    destruct (timers (app c) !! i) as [t|] eqn:Ht; [|done].
    exfalso. assert (Hq : None = Some i) by (apply Hone; [done|by eexists]). done.
Qed.

Lemma scope_getState_locals sid k st st' :
  locals st' = locals st -> scope_getState sid k st' = scope_getState sid k st.
Proof. unfold scope_getState. by intros ->. Qed.

Lemma timer_start_ok c n : timer_ok c n -> timer_ok (timer_start c) n.
Proof.
  intros Hok. pose proof Hok as [HI HF Hsc Hids Hone Hrun Hint Hsec].
  unfold timer_start. rewrite Hrun. simpl.
  destruct (bool_decide (is_Some (intervalId c))) eqn:Hid; [done|].
  apply bool_decide_eq_false in Hid.
  set (st1 := scope_setState (scope c) "running" (VBool true) (app c)).
  destruct (scope_setState_spec (scope c) "running" (VBool true) (app c) Hsc)
    as (Hsc1 & Hget & Et & Ei & Eo & En).
  destruct (scope_setState_ok (scope c) "running" (VBool true) (app c) HI HF) as [HI1 HF1].
  fold st1 in Hsc1, Hget, Et, Ei, Eo, En, HI1, HF1.
  destruct (fresh_set_timer Interval true st1 HF1) as (_ & Hnew & _).
  constructor; simpl.
  - apply (safeSetInterval_Inv st1 HI1).
  - apply (fresh_safeSetInterval st1 HF1).
  - done.
  - intros id [->%elem_of_singleton|Hid']%elem_of_union; [lia|].
    apply Hids in Hid'. lia.
  - intros id [->%elem_of_singleton|Hid']%elem_of_union; [done|].
    pose proof (Hids id Hid') as Hlt. rewrite lookup_insert_ne by lia.
    rewrite Et. intros Hrunning. exfalso. apply Hid.
    rewrite (Hone id Hid' Hrunning). by eexists.
  - rewrite (scope_getState_locals _ _ st1) by done. rewrite Hget.
    by destruct (decide _).
  - intros id [= <-]. split_and!; [set_solver|apply lookup_insert_eq|set_solver].
  - destruct Hsec as (m & Hm & Hb). exists m. split; [|done].
    rewrite (scope_getState_locals _ _ st1) by done. rewrite Hget.
    by destruct (decide _).
Qed.

Lemma stopped_ok c n st :
  timer_ok c n ->
  Inv st -> timers_fresh st -> is_Some (locals st !! scope c) ->
  next_id st = next_id (app c) ->
  (forall id, id ∈ ticking c -> timers st !! id = None) ->
  scope_getState (scope c) "running" st = VBool false ->
  (exists m, scope_getState (scope c) "seconds" st = VNumber m /\ (0 <= m <= n)%Z) ->
  timer_ok {| app := st; scope := scope c; intervalId := None; ticking := ticking c |} n.
Proof.
  intros [_ _ _ Hids _ _ _ _] HI HF Hsc En Hnone Hrun Hsec. constructor; simpl; try done.
  - intros id Hid. rewrite En. by apply Hids.
  - intros id Hid [t Ht]. rewrite Hnone in Ht; done.
Qed.

Lemma timer_stop_ok c n : timer_ok c n -> timer_ok (timer_stop c) n.
Proof.
  intros Hok. pose proof Hok as [HI HF Hsc Hids Hone Hrun Hint Hsec].
  destruct (clear_interval_spec c n Hok) as (HI0 & HF0 & EL & En & Hnone).
  unfold timer_stop. cbv zeta.
  assert (Hsc0 : is_Some (locals (clear_interval c) !! scope c)) by (by rewrite EL).
  destruct (scope_setState_spec (scope c) "running" (VBool false) _ Hsc0)
    as (Hsc1 & Hget & Et & _ & _ & En1).
  destruct (scope_setState_ok (scope c) "running" (VBool false) _ HI0 HF0) as [HI1 HF1].
  apply (stopped_ok c n _ Hok HI1 HF1 Hsc1).
  - congruence.
  - intros id Hid. rewrite Et. by apply Hnone.
  - rewrite Hget. by destruct (decide _).
  - destruct Hsec as (m & Hm & Hb). exists m. split; [|done].
    rewrite Hget. destruct (decide _); [done|].
    by rewrite (scope_getState_locals _ _ (app c)).
Qed.

Lemma timer_reset_ok c n : timer_ok c n -> timer_ok (timer_reset c) n.
Proof.
  intros Hok. pose proof Hok as [HI HF Hsc Hids Hone Hrun Hint Hsec].
  destruct (clear_interval_spec c n Hok) as (HI0 & HF0 & EL & En & Hnone).
  unfold timer_reset. cbv zeta.
  assert (Hsc0 : is_Some (locals (clear_interval c) !! scope c)) by (by rewrite EL).
  destruct (scope_setState_spec (scope c) "running" (VBool false) _ Hsc0)
    as (Hsc1 & Hget1 & Et1 & _ & _ & En1).
  destruct (scope_setState_ok (scope c) "running" (VBool false) _ HI0 HF0) as [HI1 HF1].
  destruct (scope_setState_spec (scope c) "seconds" (VNumber 0) _ Hsc1)
    as (Hsc2 & Hget2 & Et2 & _ & _ & En2).
  destruct (scope_setState_ok (scope c) "seconds" (VNumber 0) _ HI1 HF1) as [HI2 HF2].
  apply (stopped_ok c n _ Hok HI2 HF2 Hsc2).
  - congruence.
  - intros id Hid. rewrite Et2, Et1. by apply Hnone.
  - rewrite Hget2. destruct (decide _); [done|]. rewrite Hget1. by destruct (decide _).
  - exists 0%Z. split; [rewrite Hget2; by destruct (decide _)|].
    destruct Hsec as (m & _ & Hb). lia.
Qed.

Lemma timer_tick_ok c n :
  timer_ok c n -> (n < 2 ^ 53)%Z ->
  exists c', timer_tick c = Some c' /\ timer_ok c' (n + 1).
Proof.
  intros [HI HF Hsc Hids Hone Hrun Hint Hsec] Hn.
  destruct Hsec as (m & Hm & Hb). unfold timer_tick. rewrite Hm. simpl.
  rewrite bool_decide_eq_true_2 by lia. eexists. split; [reflexivity|].
  destruct (scope_setState_spec (scope c) "seconds" (VNumber (m + 1)) _ Hsc)
    as (Hsc1 & Hget & Et & Ei & _ & En).
  destruct (scope_setState_ok (scope c) "seconds" (VNumber (m + 1)) _ HI HF) as [HI1 HF1].
  constructor; simpl; try done.
  - intros id Hid. rewrite En. by apply Hids.
  - intros id Hid. rewrite Et. by apply Hone.
  - rewrite Hget. by destruct (decide _).
  - intros id Hid. rewrite Et, Ei. by apply Hint.
  - exists (m + 1)%Z. split; [rewrite Hget; by destruct (decide _)|lia].
Qed.

Lemma timer_ok_mono c n n' : timer_ok c n -> (n <= n')%Z -> timer_ok c n'.
Proof.
  intros [HI HF Hsc Hids Hone Hrun Hint (m & Hm & Hb)] Hle. constructor; try done.
  exists m. split; [done|lia].
Qed.

Lemma timer_event_ok c n e :
  timer_ok c n -> (n < 2 ^ 53)%Z ->
  exists c', timer_event c e = Some c' /\ timer_ok c' (n + 1).
Proof.
  intros Hok Hn. destruct e as [| | |id]; simpl.
  - eexists. split; [done|]. apply timer_ok_mono with n; [by apply timer_start_ok|lia].
  - eexists. split; [done|]. apply timer_ok_mono with n; [by apply timer_stop_ok|lia].
  - eexists. split; [done|]. apply timer_ok_mono with n; [by apply timer_reset_ok|lia].
  - destruct (bool_decide (id ∈ ticking c)) eqn:Hid.
    + destruct (timers (app c) !! id); [by apply timer_tick_ok|].
      eexists. split; [done|]. apply timer_ok_mono with n; [done|lia].
    + apply bool_decide_eq_false in Hid.
      eexists. split; [done|]. apply timer_ok_mono with n; [|lia].
      destruct Hok as [HI HF Hsc Hids Hone Hrun Hint Hsec].
      assert (HT : forall i, i <> id -> timers (timer_fires id (app c)) !! i
                                        = timers (app c) !! i).
      { intros i Hne. unfold timer_fires.
        destruct (timers (app c) !! id) as [[[] []]|]; simpl; try done;
          by rewrite lookup_delete_ne. }
      assert (HL : locals (timer_fires id (app c)) = locals (app c)
                   /\ next_id (timer_fires id (app c)) = next_id (app c)
                   /\ intervals (timer_fires id (app c)) = intervals (app c)).
      { unfold timer_fires. by destruct (timers (app c) !! id) as [[[] []]|]. }
      destruct HL as (EL & En & Ei).
      constructor; simpl.
      * apply (step_Inv (app c) (OTimerFires id) HI).
      * apply (fresh_step (app c) (OTimerFires id) HI HF).
      * by rewrite EL.
      * intros i Hi. rewrite En. by apply Hids.
      * intros i Hi. rewrite HT by (intros ->; done). by apply Hone.
      * by rewrite (scope_getState_locals _ _ (app c)).
      * intros i Hi. destruct (Hint i Hi) as (H1 & H2 & H3).
        rewrite HT by (intros ->; done). by rewrite Ei.
      * destruct Hsec as (m & Hm & Hb). exists m.
        by rewrite (scope_getState_locals _ _ (app c)).
Qed.

Lemma timer_events_ok events c n :
  timer_ok c n -> (n + Z.of_nat (length events) <= 2 ^ 53)%Z ->
  exists c', timer_events events c = Some c'
             /\ timer_ok c' (n + Z.of_nat (length events)).
Proof.
  revert c n. induction events as [|e events IH]; intros c n Hok Hn.
  - exists c. split; [done|]. simpl. by rewrite Z.add_0_r.
  - simpl length in *. rewrite Nat2Z.inj_succ in *.
    destruct (timer_event_ok c n e Hok) as (c1 & E1 & Hok1); [lia|].
    destruct (IH c1 (n + 1)%Z Hok1) as (c' & E & Hok'); [lia|].
    exists c'. simpl. rewrite E1. split; [done|].
    by replace (n + Z.succ (Z.of_nat (length events)))%Z
      with (n + 1 + Z.of_nat (length events))%Z by lia.
Qed.

Lemma TimerComponent_ok start stop reset st :
  Inv st -> timers_fresh st -> timer_ok (TimerComponent start stop reset st) 0.
Proof.
  intros HI HF. unfold TimerComponent.
  destruct (createScope "timer" st) as [sid st0] eqn:E0.
  assert (HI0 : Inv st0).
  { replace st0 with (step st (OCreateScope "timer")) by (simpl; by rewrite E0).
    by apply step_Inv. }
  assert (HF0 : timers_fresh st0).
  { replace st0 with (step st (OCreateScope "timer")) by (simpl; by rewrite E0).
    by apply fresh_step. }
  assert (Hsc0 : is_Some (locals st0 !! sid)).
  { pose proof (createScope_registers "timer" st) as Hreg. rewrite E0 in Hreg.
    simpl in Hreg. destruct (inv_registry _ HI0 _ _ Hreg) as (sc & Hsc & _).
    by eexists. }
  destruct (scope_setState_spec sid "seconds" (VNumber 0) st0 Hsc0)
    as (Hsc1 & Hget1 & _).
  destruct (scope_setState_ok sid "seconds" (VNumber 0) st0 HI0 HF0) as [HI1 HF1].
  set (st1 := scope_setState sid "seconds" (VNumber 0) st0) in *.
  destruct (scope_setState_spec sid "running" (VBool false) st1 Hsc1)
    as (Hsc2 & Hget2 & _).
  destruct (scope_setState_ok sid "running" (VBool false) st1 HI1 HF1) as [HI2 HF2].
  set (st2 := scope_setState sid "running" (VBool false) st1) in *.
  assert (Hon : forall h fn s, Inv s -> timers_fresh s ->
            Inv (scope_on sid h fn s) /\ timers_fresh (scope_on sid h fn s)
            /\ locals (scope_on sid h fn s) = locals s).
  { intros h fn s Hs Hfs. split_and!.
    - apply (step_Inv s (OScopeOn sid h fn) Hs).
    - apply (fresh_step s (OScopeOn sid h fn) Hs Hfs).
    - unfold scope_on. by destruct (locals s !! sid). }
  destruct (Hon "start" start st2 HI2 HF2) as (HI3 & HF3 & EL3).
  destruct (Hon "stop" stop _ HI3 HF3) as (HI4 & HF4 & EL4).
  destruct (Hon "reset" reset _ HI4 HF4) as (HI5 & HF5 & EL5).
  assert (EL : locals (scope_on sid "reset" reset
                         (scope_on sid "stop" stop (scope_on sid "start" start st2)))
               = locals st2) by congruence.
  constructor; simpl; try done.
  - by rewrite EL.
  - rewrite (scope_getState_locals _ _ st2) by done. rewrite Hget2.
    by destruct (decide _).
  - exists 0%Z. split; [|lia].
    rewrite (scope_getState_locals _ _ st2) by done. rewrite Hget2.
    destruct (decide _); [done|]. rewrite Hget1. by destruct (decide _).
Qed.

(** X28. The stopwatch never runs two intervals: after any run of the
    application, setting up [TimerComponent] and letting fewer than [2^53]
    clicks on its buttons and timer firings happen, in any order, every
    event is handled without leaving the integers the host counts exactly,
    and afterwards the only interval of the component that can be running
    is the one [intervalId] names, which then is running and tracked by the
    application; the state [running] is [true] exactly when [intervalId] is
    not [null]; and [seconds] is a number between 0 and the number of
    events. *)
Theorem timer_one_interval
    (content : list Node) (ops : list Op) (start stop reset : Handler)
    (events : list TimerEvent) :
  (Z.of_nat (length events) < 2 ^ 53)%Z ->
  let c0 := TimerComponent start stop reset (run ops (createApp content)) in
  exists c,
    timer_events events c0 = Some c
    /\ (forall id, id ∈ ticking c -> is_Some (timers (app c) !! id) ->
          intervalId c = Some id)
    /\ (forall id, intervalId c = Some id ->
          timers (app c) !! id = Some {| kind := Interval; via_helper := true |}
          /\ id ∈ intervals (app c))
    /\ scope_getState (scope c) "running" (app c)
       = VBool (bool_decide (is_Some (intervalId c)))
    /\ exists m, scope_getState (scope c) "seconds" (app c) = VNumber m
                 /\ (0 <= m <= Z.of_nat (length events))%Z.
Proof.
  intros Hlen c0.
  destruct (reachable_fresh content ops) as [HI HF].
  pose proof (TimerComponent_ok start stop reset _ HI HF) as Hok0. fold c0 in Hok0.
  destruct (timer_events_ok events c0 0 Hok0) as (c & E & Hok); [lia|].
  exists c. split; [done|].
  destruct Hok as [_ _ _ _ Hone Hrun Hint Hsec]. split_and!; try done.
  intros id Hid. by destruct (Hint id Hid) as (_ & ? & ?).
Qed.

Lemma timer_one_interval_witness :
  let c0 := TimerComponent 1 2 3 (run [OOn "increment" 9; OSafeSetTimeout] (createApp [])) in
  exists c,
    timer_events [ClickStart; Fires 2; ClickStart; Fires 2; ClickStop; Fires 2; ClickStart] c0
    = Some c
    /\ (forall id, id ∈ ticking c -> is_Some (timers (app c) !! id) ->
          intervalId c = Some id)
    /\ (forall id, intervalId c = Some id ->
          timers (app c) !! id = Some {| kind := Interval; via_helper := true |}
          /\ id ∈ intervals (app c))
    /\ scope_getState (scope c) "running" (app c)
       = VBool (bool_decide (is_Some (intervalId c)))
    /\ exists m, scope_getState (scope c) "seconds" (app c) = VNumber m
                 /\ (0 <= m
                     <= Z.of_nat (length [ClickStart; Fires 2; ClickStart; Fires 2;
                                          ClickStop; Fires 2; ClickStart]))%Z.
Proof.
  refine (timer_one_interval [] [OOn "increment" 9; OSafeSetTimeout] 1 2 3
            [ClickStart; Fires 2; ClickStart; Fires 2; ClickStop; Fires 2; ClickStart] _).
  vm_compute. reflexivity.
Defined.

(** The stopwatch at work: started, two ticks, stopped, a stale firing of
    the cleared interval, started again. *)
Example timer_example :
  let c0 := TimerComponent 1 2 3 (run [OOn "increment" 9; OSafeSetTimeout] (createApp [])) in
  match timer_events [ClickStart; Fires 2; ClickStart; Fires 2; ClickStop; Fires 2; ClickStart]
          c0 with
  | Some c =>
      intervalId c = Some 3
      /\ scope_getState (scope c) "seconds" (app c) = VNumber 2
      /\ elements (intervals (app c)) = [3]
      /\ handlers (app c) !! "timer:start" = Some 1
  | None => False
  end.
Proof. vm_compute. repeat split; reflexivity. Qed.

End ComponentsExtra.
(** ** lib/build.js, the walk of the module graph *)

Module BuildProofs.
Import Build.

Section Walk.
Variable readFileSync : string -> option string.
Variable parseImports : string -> string -> list string.

Local Abbreviation walk := (walk readFileSync parseImports).
Local Abbreviation walk_each := (walk_each readFileSync parseImports).
Local Abbreviation imports := (imports readFileSync parseImports).
Local Abbreviation added_by := (added_by readFileSync parseImports).

Lemma walk_unfold fuel filePath st :
  walk (S fuel) filePath st
  = if bool_decide (filePath ∈ visited st) then Some (Finished st)
    else
      let st1 := {| visited := {[filePath]} ∪ visited st;
                    orderedModules := orderedModules st |} in
      match readFileSync filePath with
      | None => Some (Failed st1)
      | Some code =>
          match walk_each fuel (parseImports code filePath) st1 with
          | Some (Finished st2) =>
              Some (Finished
                      {| visited := visited st2;
                         orderedModules := orderedModules st2 ++ [(filePath, code)] |})
          | other => other
          end
      end.
Proof.
  simpl. destruct (bool_decide _); [done|]. destruct (readFileSync filePath); [|done].
  cbv zeta.
  assert (H : forall deps s,
             (fix each (deps : list string) (st : Bundler) : option Walked :=
                match deps with
                | [] => Some (Finished st)
                | dep :: rest =>
                    match walk fuel dep st with
                    | Some (Finished st) => each rest st
                    | other => other
                    end
                end) deps s = walk_each fuel deps s).
  { induction deps as [|d deps IH]; intros s0; simpl; [done|].
    destruct (walk fuel d s0) as [[s1|s1]|]; [apply IH|done|done]. }
  by rewrite H.
Qed.

Lemma walk_each_cons fuel dep rest st :
  walk_each fuel (dep :: rest) st
  = match walk fuel dep st with
    | Some (Finished st1) => walk_each fuel rest st1
    | other => other
    end.
Proof. done. Qed.

Lemma before_app_l a b l l' : before a b l -> before a b (l ++ l').
Proof.
  intros (l1 & l2 & l3 & ->). exists l1, l2, (l3 ++ l').
  by repeat (rewrite <- ?app_assoc; simpl).
Qed.

Lemma before_app_r a b l l' : before a b l' -> before a b (l ++ l').
Proof.
  intros (l1 & l2 & l3 & ->). exists (l ++ l1), l2, l3.
  by repeat (rewrite <- ?app_assoc; simpl).
Qed.

Lemma before_app a b l l' : a ∈ l -> b ∈ l' -> before a b (l ++ l').
Proof.
  intros (l1 & l2 & ->)%list_elem_of_split (l3 & l4 & ->)%list_elem_of_split.
  exists l1, (l2 ++ l3), l4. by repeat (rewrite <- ?app_assoc; simpl).
Qed.

Lemma added_nothing roots st : added_by roots st st [].
Proof.
  constructor; simpl; try done.
  - by rewrite app_nil_r.
  - set_solver.
  - constructor.
  - intros n H. by apply elem_of_nil in H.
  - intros n code H. by apply elem_of_nil in H.
  - intros n H. by apply elem_of_nil in H.
  - intros n d H. by apply elem_of_nil in H.
Qed.

Lemma added_trans roots st1 st2 st3 new1 new2 :
  added_by roots st1 st2 new1 -> added_by roots st2 st3 new2 ->
  added_by roots st1 st3 (new1 ++ new2).
Proof.
  intros [O1 V1 N1 F1 C1 R1 D1] [O2 V2 N2 F2 C2 R2 D2]. constructor.
  - by rewrite O2, O1, app_assoc.
  - rewrite V2, V1, fmap_app, list_to_set_app_L. set_solver.
  - rewrite fmap_app. apply NoDup_app. split; [done|]. split; [|done].
    intros n Hn1 Hn2. apply F2 in Hn2. apply Hn2. rewrite V1.
    apply elem_of_union. right. by apply elem_of_list_to_set.
  - rewrite fmap_app. intros n [Hn|Hn]%elem_of_app; [by apply F1|].
    apply F2 in Hn. rewrite V1 in Hn. set_solver.
  - intros n code [H|H]%elem_of_app; [by apply C1|by apply C2].
  - rewrite fmap_app. intros n [Hn|Hn]%elem_of_app; [by apply R1|by apply R2].
  - rewrite fmap_app. intros n d [Hn|Hn]%elem_of_app Hd.
    + destruct (D1 n d Hn Hd) as [H|[H|[H H']]].
      * by left.
      * right. left. by apply before_app_l.
      * right. right. split; [|done]. apply elem_of_app. by left.
    + destruct (D2 n d Hn Hd) as [H|[H|[H H']]].
      * rewrite V1 in H. apply elem_of_union in H as [H|H]; [by left|].
        right. left. apply before_app; [|done]. by apply elem_of_list_to_set in H.
      * right. left. by apply before_app_r.
      * right. right. split; [|done]. apply elem_of_app. by right.
Qed.

Lemma added_roots roots roots' st st' new :
  (forall r, r ∈ roots -> r ∈ roots') -> added_by roots st st' new ->
  added_by roots' st st' new.
Proof.
  intros Hsub [O V N F C R D]. constructor; try done.
  intros n Hn. destruct (R n Hn) as (r & Hr & Hrn). eauto.
Qed.

(** What [walk] and the loop over the imports do when they finish. *)
Lemma walk_spec fuel :
  (forall filePath st st',
      walk fuel filePath st = Some (Finished st') ->
      filePath ∈ visited st'
      /\ exists new, added_by [filePath] st st' new
                     /\ (filePath ∉ visited st ->
                         exists code rest, new = rest ++ [(filePath, code)]))
  /\ (forall deps st st',
        walk_each fuel deps st = Some (Finished st') ->
        (forall d, d ∈ deps -> d ∈ visited st')
        /\ exists new, added_by deps st st' new).
Proof.
  induction fuel as [|fuel [IHw IHe]].
  - split; [done|].
    induction deps as [|d deps IH]; intros st st'; simpl; [|done].
    intros [= <-]. split; [by intros d H; apply elem_of_nil in H|].
    exists []. apply added_nothing.
  - assert (Hw : forall filePath st st',
               walk (S fuel) filePath st = Some (Finished st') ->
               filePath ∈ visited st'
               /\ exists new, added_by [filePath] st st' new
                              /\ (filePath ∉ visited st ->
                                  exists code rest, new = rest ++ [(filePath, code)])).
    { intros f st st'. rewrite walk_unfold.
      destruct (bool_decide (f ∈ visited st)) eqn:Hv.
      { apply bool_decide_eq_true in Hv. intros [= <-]. split; [done|].
        exists []. split; [apply added_nothing|done]. }
      apply bool_decide_eq_false in Hv.
      destruct (readFileSync f) as [code|] eqn:Hread; [|done]. cbv zeta.
      set (st1 := {| visited := {[f]} ∪ visited st; orderedModules := orderedModules st |}).
      destruct (walk_each fuel (parseImports code f) st1) as [[st2|st2]|] eqn:E; [|done|done].
      intros [= <-]. simpl.
      destruct (IHe _ _ _ E) as (Hdeps & new & [O V N F C R D]).
      assert (Hf2 : f ∈ visited st2) by (rewrite V; set_solver).
      split; [done|].
      assert (Hfnew : f ∉ (fst <$> new)).
      { intros H. apply F in H. apply H. set_solver. }
      exists (new ++ [(f, code)]). split; [|by eauto].
      constructor; simpl.
      - by rewrite O, app_assoc.
      - rewrite V, fmap_app, list_to_set_app_L. simpl. set_solver.
      - rewrite fmap_app. simpl. apply NoDup_app. split; [done|]. split.
        + intros n Hn Hn'. apply list_elem_of_singleton in Hn'. by subst.
        + apply NoDup_singleton.
      - rewrite fmap_app. simpl.
        intros n [Hn | ->%list_elem_of_singleton]%elem_of_app; [|done].
        apply F in Hn. set_solver.
      - intros n c [H|H]%elem_of_app; [by apply C|].
        apply list_elem_of_singleton in H. by injection H as -> ->.
      - rewrite fmap_app. simpl.
        intros n [Hn | ->%list_elem_of_singleton]%elem_of_app.
        + destruct (R n Hn) as (r & Hr & Hrn). exists f. split; [by left|].
          eapply rtc_l; [|done]. by exists code.
        + exists f. split; [by left|done].
      - rewrite fmap_app. simpl.
        intros n d [Hn | ->%list_elem_of_singleton]%elem_of_app Hd.
        + destruct (D n d Hn Hd) as [H|[H|[H H']]].
          * simpl in H. apply elem_of_union in H as [->%elem_of_singleton|H]; [|by left].
            right. right. split; [apply elem_of_app; right; by left|].
            destruct (R n Hn) as (r & Hr & Hrn).
            eapply tc_rtc_r; [|done]. apply tc_once. by exists code.
          * right. left. by apply before_app_l.
          * right. right. split; [|done]. apply elem_of_app. by left.
        + destruct Hd as (code' & Hread' & Hd). rewrite Hread in Hread'.
          injection Hread' as <-.
          pose proof Hd as Hin.
          apply Hdeps in Hd. rewrite V in Hd. simpl in Hd.
          apply elem_of_union in Hd as [Hd|Hd].
          * apply elem_of_union in Hd as [->%elem_of_singleton|Hd]; [|by left].
            right. right. split; [apply elem_of_app; right; by left|].
            apply tc_once. by exists code.
          * right. left. apply before_app; [by apply elem_of_list_to_set in Hd|by left]. }
    split; [exact Hw|].
    induction deps as [|d deps IH]; intros st st'.
    + simpl. intros [= <-]. split; [by intros d H; apply elem_of_nil in H|].
      exists []. apply added_nothing.
    + rewrite walk_each_cons.
      destruct (walk (S fuel) d st) as [[st1|st1]|] eqn:E; [|done|done].
      intros Hrest. destruct (Hw _ _ _ E) as (Hd & new1 & A1 & _).
      destruct (IH _ _ Hrest) as (Hdeps & new2 & A2).
      split.
      * intros x [-> | Hx]%elem_of_cons; [|by apply Hdeps].
        destruct A2 as [_ V2 _ _ _ _ _]. rewrite V2. set_solver.
      * exists (new1 ++ new2). apply added_trans with st1.
        -- apply (added_roots [d]); [|done]. intros r ->%list_elem_of_singleton. by left.
        -- apply (added_roots deps); [|done]. intros r Hr. by right.
Qed.

(** Enough fuel: the recursion is never deeper than the number of files
    not yet visited, plus one. *)
Lemma walk_total (U : gset string) :
  (forall a b, a ∈ U -> imports a b -> b ∈ U) ->
  (forall a, a ∈ U -> is_Some (readFileSync a)) ->
  forall fuel f st,
    f ∈ U -> size (U ∖ visited st) < fuel ->
    exists st', walk fuel f st = Some (Finished st') /\ visited st ⊆ visited st'.
Proof.
  intros Hclosed Hread. induction fuel as [|fuel IH]; intros f st Hf Hsize; [lia|].
  rewrite walk_unfold.
  destruct (bool_decide (f ∈ visited st)) eqn:Hv; [by eauto|].
  apply bool_decide_eq_false in Hv.
  destruct (Hread f Hf) as [code Hcode]. rewrite Hcode. cbv zeta.
  set (st1 := {| visited := {[f]} ∪ visited st; orderedModules := orderedModules st |}).
  assert (Hsize1 : size (U ∖ visited st1) < fuel).
  { assert (size (U ∖ visited st1) < size (U ∖ visited st)); [|lia].
    apply subset_size. simpl. set_solver. }
  assert (Heach : forall deps s,
             (forall d, d ∈ deps -> d ∈ U) -> visited st1 ⊆ visited s ->
             exists s', walk_each fuel deps s = Some (Finished s')
                        /\ visited s ⊆ visited s').
  { induction deps as [|d deps IHd]; intros s Hdeps Hs; [by exists s|].
    rewrite walk_each_cons.
    destruct (IH d s) as (s1 & E1 & Hs1); [apply Hdeps; by left| |].
    { assert (size (U ∖ visited s) <= size (U ∖ visited st1)); [|lia].
      apply subseteq_size. set_solver. }
    rewrite E1.
    destruct (IHd s1) as (s2 & E2 & Hs2);
      [intros x Hx; apply Hdeps; by right|set_solver|].
    exists s2. split; [done|set_solver]. }
  destruct (Heach (parseImports code f) st1) as (st2 & E & Hsub); [|done|].
  { intros d Hd. apply (Hclosed f); [done|]. by exists code. }
  rewrite E. eexists. split; [done|]. simpl. unfold st1 in Hsub. simpl in Hsub. set_solver.
Qed.

Lemma walk_from_start (U : gset string) (entry : string) :
  entry ∈ U ->
  (forall a b, a ∈ U -> imports a b -> b ∈ U) ->
  (forall a, a ∈ U -> is_Some (readFileSync a)) ->
  exists st,
    walk (S (size U)) entry start = Some (Finished st)
    /\ NoDup (paths st)
    /\ (forall n, n ∈ paths st <-> rtc imports entry n)
    /\ (forall n code, (n, code) ∈ orderedModules st -> readFileSync n = Some code)
    /\ last (paths st) = Some entry
    /\ (forall n d, n ∈ paths st -> imports n d ->
          before d n (paths st) \/ tc imports d n).
Proof.
  intros Hentry Hclosed Hread.
  destruct (walk_total U Hclosed Hread (S (size U)) entry start Hentry) as (st & E & _).
  { simpl. assert (size (U ∖ ∅) <= size U); [|lia]. apply subseteq_size. set_solver. }
  exists st. split; [done|].
  destruct (proj1 (walk_spec (S (size U))) _ _ _ E) as (Hin & new & [O V N F C R D] & Hlast).
  simpl in O, V. unfold paths. rewrite O.
  destruct Hlast as (code & rest & Hnew); [set_solver|].
  assert (Hclosed' : forall n d, n ∈ (fst <$> new) -> imports n d -> d ∈ (fst <$> new)).
  { intros n d Hn Hd. destruct (D n d Hn Hd) as [H|[H|[H _]]].
    - set_solver.
    - destruct H as (l1 & l2 & l3 & ->). set_solver.
    - done. }
  split_and!.
  - done.
  - intros n. split.
    + intros Hn. destruct (R n Hn) as (r & ->%list_elem_of_singleton & Hr). done.
    + revert n. apply (rtc_ind_r (fun n => n ∈ (fst <$> new))).
      * rewrite Hnew, fmap_app. set_solver.
      * intros y z _ Hyz Hy. by apply (Hclosed' y).
  - intros n c Hn. by apply C.
  - rewrite Hnew, fmap_app. simpl. by rewrite last_snoc.
  - intros n d Hn Hd. destruct (D n d Hn Hd) as [H|[H|[_ H]]]; [set_solver|by left|by right].
Qed.

(** X29. The walk lists every module once: when the entry file lies in a
    finite set of readable files that is closed under imports, [walk]
    from the empty state finishes (with recursion depth at most the size of
    that set, plus one) and [orderedModules] then holds exactly the files
    that the entry reaches through imports, each once, each with the code
    read from it, the entry last. *)
Theorem walk_lists_reachable (U : gset string) (entry : string) :
  entry ∈ U ->
  (forall a b, a ∈ U -> imports a b -> b ∈ U) ->
  (forall a, a ∈ U -> is_Some (readFileSync a)) ->
  exists st,
    walk (S (size U)) entry start = Some (Finished st)
    /\ NoDup (paths st)
    /\ (forall n, n ∈ paths st <-> rtc imports entry n)
    /\ (forall n code, (n, code) ∈ orderedModules st -> readFileSync n = Some code)
    /\ last (paths st) = Some entry.
Proof.
  intros Hentry Hclosed Hread.
  destruct (walk_from_start U entry Hentry Hclosed Hread)
    as (st & E & H1 & H2 & H3 & H4 & _).
  by exists st.
Qed.

(** X30. Dependencies come first: when moreover no file of the set
    imports itself through a chain of imports, every file that a module of
    [orderedModules] imports stands before that module in the list. *)
Theorem walk_dependencies_first (U : gset string) (entry : string) :
  entry ∈ U ->
  (forall a b, a ∈ U -> imports a b -> b ∈ U) ->
  (forall a, a ∈ U -> is_Some (readFileSync a)) ->
  (forall a, a ∈ U -> ~ tc imports a a) ->
  exists st,
    walk (S (size U)) entry start = Some (Finished st)
    /\ forall n d, n ∈ paths st -> imports n d -> before d n (paths st).
Proof.
  intros Hentry Hclosed Hread Hacyclic.
  destruct (walk_from_start U entry Hentry Hclosed Hread)
    as (st & E & _ & Hreach & _ & _ & Hdeps).
  exists st. split; [done|].
  intros n d Hn Hd. destruct (Hdeps n d Hn Hd) as [H|H]; [done|].
  exfalso. apply (Hacyclic n).
  - apply Hreach in Hn. clear -Hn Hentry Hclosed.
    induction Hn as [|x y z Hxy Hyz IH]; [done|]. apply IH. by apply (Hclosed x).
  - by apply tc_l with d.
Qed.

End Walk.

(** *** The example disk *)

Lemma disk_closed a b :
  a ∈ ({["app.js"; "a.js"; "b.js"; "lib.js"]} : gset string) ->
  imports disk disk_imports a b ->
  b ∈ ({["app.js"; "a.js"; "b.js"; "lib.js"]} : gset string).
Proof.
  intros Ha (code & _ & Hb). unfold disk_imports in Hb.
  repeat (destruct (String.eqb a _); [set_solver|]). set_solver.
Qed.

Lemma disk_readable a :
  a ∈ ({["app.js"; "a.js"; "b.js"; "lib.js"]} : gset string) -> is_Some (disk a).
Proof.
  intros Ha. apply elem_of_union in Ha as [Ha|Ha%elem_of_singleton].
  - apply elem_of_union in Ha as [Ha|Ha%elem_of_singleton].
    + apply elem_of_union in Ha as [Ha%elem_of_singleton|Ha%elem_of_singleton];
        subst; by eexists.
    + subst. by eexists.
  - subst. by eexists.
Qed.

Lemma disk_ranked a b : imports disk disk_imports a b -> disk_rank b < disk_rank a.
Proof.
  intros (code & _ & Hb). unfold disk_imports in Hb. unfold disk_rank at 2.
  destruct (String.eqb a "app.js") eqn:E1.
  { apply elem_of_cons in Hb as [->|Hb]; [vm_compute; lia|].
    apply list_elem_of_singleton in Hb as ->. vm_compute. lia. }
  destruct (String.eqb a "a.js") eqn:E2.
  { apply String.eqb_eq in E2. subst a.
    apply list_elem_of_singleton in Hb as ->. vm_compute. lia. }
  destruct (String.eqb a "b.js") eqn:E3.
  { apply String.eqb_eq in E3. subst a.
    apply list_elem_of_singleton in Hb as ->. vm_compute. lia. }
  by apply elem_of_nil in Hb.
Qed.

Lemma disk_acyclic a : ~ tc (imports disk disk_imports) a a.
Proof.
  assert (H : forall x y, tc (imports disk disk_imports) x y -> disk_rank y < disk_rank x).
  { intros x y Hxy. induction Hxy as [x y Hxy|x y z Hxy _ IH].
    - by apply disk_ranked.
    - apply disk_ranked in Hxy. lia. }
  intros Hc. apply H in Hc. lia.
Qed.

Lemma walk_lists_reachable_witness :
  exists st,
    walk disk disk_imports (S (size ({["app.js"; "a.js"; "b.js"; "lib.js"]} : gset string)))
      "app.js" start
    = Some (Finished st)
    /\ NoDup (paths st)
    /\ (forall n, n ∈ paths st <-> rtc (imports disk disk_imports) "app.js" n)
    /\ (forall n code, (n, code) ∈ orderedModules st -> disk n = Some code)
    /\ last (paths st) = Some "app.js".
Proof.
  refine (walk_lists_reachable disk disk_imports
            {["app.js"; "a.js"; "b.js"; "lib.js"]} "app.js" _ disk_closed
            (fun a Ha => disk_readable a Ha)).
  set_solver.
Defined.

Lemma walk_dependencies_first_witness :
  exists st,
    walk disk disk_imports (S (size ({["app.js"; "a.js"; "b.js"; "lib.js"]} : gset string)))
      "app.js" start
    = Some (Finished st)
    /\ forall n d, n ∈ paths st -> imports disk disk_imports n d -> before d n (paths st).
Proof.
  refine (walk_dependencies_first disk disk_imports
            {["app.js"; "a.js"; "b.js"; "lib.js"]} "app.js" _ disk_closed
            (fun a Ha => disk_readable a Ha) (fun a _ => disk_acyclic a)).
  set_solver.
Defined.

(** The order for the example disk: the shared module first and once. *)
Example walk_disk :
  option_map (fun r => match r with Finished st => paths st | Failed st => [] end)
    (walk disk disk_imports 5 "app.js" start)
  = Some ["lib.js"; "a.js"; "b.js"; "app.js"].
Proof. vm_compute. reflexivity. Qed.

End BuildProofs.
